(** * Decklist-to-image pipeline of [decklists.py]: a shallow embedding

    The development follows the source file function by function:
    text helpers and the regular expressions of the line parser, the
    grouping and aggregation of parsed entries, the identifier builder,
    the batch resolver, image selection, file naming and the download
    loop.

    Text is modelled as a list of 8-bit code points (the Latin-1 range of
    a Python [str]); the character classes below are Python's Unicode
    classes restricted to that range.  Python integers are [Z]; the
    limit an interpreter may put on the number of digits that [int]
    reads is not modelled. *)

From Stdlib Require Import ZArith Lia Bool Ascii String List Permutation.
From Stdlib Require Import DecimalString DecimalZ DecimalPos DecimalN.
From stdpp Require Import base option list gmap.
Import ListNotations.

Local Open Scope Z_scope.
Local Open Scope list_scope.

(** ** Text *)

Definition str := list ascii.

(** String literals. *)
Definition L (s : string) : str := list_ascii_of_string s.

Definition code (c : ascii) : N := N_of_ascii c.

Definition in_range (lo hi : N) (c : ascii) : bool :=
  ((lo <=? code c) && (code c <=? hi))%N.

(** [str.isspace] / [\s]: HT LF VT FF CR, FS GS RS US, space, NEL, NBSP. *)
Definition isspace (c : ascii) : bool :=
  in_range 9 13 c || in_range 28 32 c || (code c =? 133)%N || (code c =? 160)%N.

(** [\d] ([str.isdecimal]): only 0-9 below code point 256. *)
Definition isdecimal (c : ascii) : bool := in_range 48 57 c.

Definition is_upper_ascii (c : ascii) : bool := in_range 65 90 c.
Definition is_lower_ascii (c : ascii) : bool := in_range 97 122 c.

(** [[A-Za-z0-9]] without flags. *)
Definition is_alnum_ascii (c : ascii) : bool :=
  is_upper_ascii c || is_lower_ascii c || isdecimal c.

(** [[a-z]] under IGNORECASE. *)
Definition is_letter_ascii (c : ascii) : bool :=
  is_upper_ascii c || is_lower_ascii c.

(** [str.isalnum] on the Latin-1 range: ASCII letters and digits, the
    ordinal indicators, micro sign, superscript digits, vulgar fractions
    and the accented letters (all of C0-FF except the two operators). *)
Definition isalnum (c : ascii) : bool :=
  is_alnum_ascii c
  || (code c =? 170)%N || (code c =? 181)%N || (code c =? 186)%N
  || (code c =? 178)%N || (code c =? 179)%N || (code c =? 185)%N
  || in_range 188 190 c
  || in_range 192 214 c || in_range 216 246 c || in_range 248 255 c.

(** [\w] with Unicode semantics. *)
Definition is_word (c : ascii) : bool := isalnum c || (code c =? 95)%N.

(** [str.lower] on one code point. *)
Definition lower_char (c : ascii) : ascii :=
  if is_upper_ascii c || in_range 192 214 c || in_range 216 222 c
  then ascii_of_N (code c + 32) else c.

Definition lower (s : str) : str := map lower_char s.

Fixpoint dropwhile (p : ascii -> bool) (s : str) : str :=
  match s with
  | c :: s' => if p c then dropwhile p s' else s
  | [] => []
  end.

Definition lstrip (s : str) : str := dropwhile isspace s.
Definition rstrip (s : str) : str := rev (dropwhile isspace (rev s)).
Definition strip (s : str) : str := rstrip (lstrip s).

Fixpoint startswith (s p : str) : bool :=
  match p, s with
  | [], _ => true
  | c :: p', d :: s' => Ascii.eqb c d && startswith s' p'
  | _ :: _, [] => false
  end.

Definition startswith_any (s : str) (ps : list str) : bool :=
  existsb (startswith s) ps.

(** [s[i:j]] for [0 <= i <= j]. *)
Definition slice (s : str) (i j : nat) : str := firstn (j - i) (skipn i s).

Definition digit_value (c : ascii) : Z := Z.of_N (code c) - 48.

(** [int] applied to a run of decimal digits. *)
Definition int (s : str) : Z :=
  fold_left (fun acc c => 10 * acc + digit_value c) s 0.

(** [str] applied to an integer (also the [{qty}] of an f-string). *)
Definition str_of_int (z : Z) : str :=
  list_ascii_of_string (NilZero.string_of_int (Z.to_int z)).

(** ** Regular expressions

    The fragment of [re] used by the program, with the matching order of
    a backtracking engine: alternatives left to right, repetitions
    greedy.  Every repetition in the source is over a single character
    class.  Flags are resolved in the pattern: a literal under
    IGNORECASE is [LitI]. *)

Inductive regex : Type :=
| Eps
| Class (p : ascii -> bool)
| Cat (r1 r2 : regex)
| Alt (r1 r2 : regex)
| Rep (p : ascii -> bool) (lo : nat) (hi : option nat)
| Group (i : nat) (r : regex)
| Bol
| Eol
| WordB.

Definition Lit (c : ascii) : regex := Class (Ascii.eqb c).
Definition LitI (c : ascii) : regex := Class (fun a => Ascii.eqb (lower_char a) (lower_char c)).
Definition Seq (rs : list regex) : regex := fold_right Cat Eps rs.
Definition Lits (s : string) : regex := Seq (map Lit (L s)).
Definition LitsI (s : string) : regex := Seq (map LitI (L s)).
Definition Star p := Rep p 0 None.
Definition Plus p := Rep p 1 None.
Definition Opt p := Rep p 0 (Some 1%nat).
(** [.] without DOTALL. *)
Definition dot (c : ascii) : bool := negb (Ascii.eqb c "010").

(** Group spans, most recent first. *)
Definition caps := list (nat * (nat * nat)).

(** End offset and group spans of a successful match. *)
Definition answer : Type := nat * caps.

Definition hi_open (hi : option nat) : bool :=
  match hi with Some O => false | _ => true end.

(** Greedy repetition of a class between [lo] and [hi] times; [pre] is
    the consumed text reversed, [suf] the text ahead. *)
Fixpoint rep_greedy (p : ascii -> bool) (lo : nat) (hi : option nat)
    (k : str -> str -> option answer) (pre suf : str) {struct suf} : option answer :=
  let stop := match lo with O => k pre suf | S _ => None end in
  match suf with
  | a :: suf' =>
      if p a && hi_open hi then
        match rep_greedy p (Nat.pred lo) (Nat.pred <$> hi) k (a :: pre) suf' with
        | Some r => Some r
        | None => stop
        end
      else stop
  | [] => stop
  end.

Definition word_before (pre : str) : bool :=
  match pre with c :: _ => is_word c | [] => false end.

Definition at_boundary (pre suf : str) : bool :=
  xorb (word_before pre) (word_before suf).

(** [$] without MULTILINE: at the end, or before a final newline. *)
Definition at_end (suf : str) : bool :=
  match suf with
  | [] => true
  | [c] => Ascii.eqb c "010"
  | _ => false
  end.

Fixpoint m (r : regex) (k : str -> str -> caps -> option answer)
    (pre suf : str) (cs : caps) {struct r} : option answer :=
  match r with
  | Eps => k pre suf cs
  | Class p =>
      match suf with
      | a :: suf' => if p a then k (a :: pre) suf' cs else None
      | [] => None
      end
  | Cat r1 r2 => m r1 (m r2 k) pre suf cs
  | Alt r1 r2 =>
      match m r1 k pre suf cs with
      | Some a => Some a
      | None => m r2 k pre suf cs
      end
  | Rep p lo hi => rep_greedy p lo hi (fun pre' suf' => k pre' suf' cs) pre suf
  | Group i r1 =>
      m r1 (fun pre' suf' cs' =>
              k pre' suf' ((i, (length pre, length pre')) :: cs')) pre suf cs
  | Bol => match pre with [] => k pre suf cs | _ :: _ => None end
  | Eol => if at_end suf then k pre suf cs else None
  | WordB => if at_boundary pre suf then k pre suf cs else None
  end.

Definition accept : str -> str -> caps -> option answer :=
  fun pre _ cs => Some (length pre, cs).

(** A match object: [start()], [end()] and the group spans. *)
Record Match := { m_start : nat; m_end : nat; m_groups : caps }.

Definition match_at (r : regex) (pre suf : str) : option Match :=
  match m r accept pre suf [] with
  | Some (e, cs) => Some {| m_start := length pre; m_end := e; m_groups := cs |}
  | None => None
  end.

(** [re.match]. *)
Definition re_match (r : regex) (s : str) : option Match := match_at r [] s.

(** [re.search]: the leftmost position with a match. *)
Fixpoint search_from (r : regex) (pre suf : str) {struct suf} : option Match :=
  match match_at r pre suf with
  | Some mo => Some mo
  | None =>
      match suf with
      | a :: suf' => search_from r (a :: pre) suf'
      | [] => None
      end
  end.

Definition re_search (r : regex) (s : str) : option Match := search_from r [] s.

Fixpoint span_of (i : nat) (cs : caps) : option (nat * nat) :=
  match cs with
  | (j, sp) :: cs' => if Nat.eqb i j then Some sp else span_of i cs'
  | [] => None
  end.

(** [mo.group(i)] of a match in [s]; the groups read by the program are
    never optional. *)
Definition group (mo : Match) (s : str) (i : nat) : str :=
  match span_of i (m_groups mo) with
  | Some (b, e) => slice s b e
  | None => []
  end.

(** [re.sub] with a constant replacement.  [skip] counts the characters
    of the last match still to be passed over.  None of the program's
    substitution patterns matches the empty string; an empty match
    inserts the replacement and copies the next character. *)
Fixpoint sub_from (r : regex) (repl : str) (skip : nat) (pre suf : str)
    {struct suf} : str :=
  match skip with
  | S n =>
      match suf with
      | a :: suf' => sub_from r repl n (a :: pre) suf'
      | [] => []
      end
  | O =>
      match match_at r pre suf with
      | Some mo =>
          repl ++
          match suf with
          | a :: suf' =>
              match (m_end mo - m_start mo)%nat with
              | O => a :: sub_from r repl O (a :: pre) suf'
              | S n => sub_from r repl n (a :: pre) suf'
              end
          | [] => []
          end
      | None =>
          match suf with
          | a :: suf' => a :: sub_from r repl O (a :: pre) suf'
          | [] => []
          end
      end
  end.

Definition re_sub (r : regex) (repl : str) (s : str) : str :=
  sub_from r repl O [] s.

(** ** The patterns of the source *)

(** A literal character under IGNORECASE, as a class. *)
Definition chr_i (c : ascii) : ascii -> bool :=
  fun a => Ascii.eqb (lower_char a) (lower_char c).

(** [\*F\*|\(Foil\)], IGNORECASE. *)
Definition foil_re : regex := Alt (LitsI "*F*") (LitsI "(Foil)").

(** The quantity pattern, IGNORECASE: [^], group 1 [\d+], [\s*], [x?],
    [\s+], group 2 a greedy run of [.], [$]. *)
Definition qty_re : regex :=
  Seq [Bol; Group 1 (Plus isdecimal); Star isspace; Opt (chr_i "x");
       Plus isspace; Group 2 (Star dot); Eol].

(** [\(([A-Za-z0-9]{2,5})\)]. *)
Definition set_re : regex :=
  Seq [Lit "("; Group 1 (Rep is_alnum_ascii 2 (Some 5%nat)); Lit ")"].

(** [\b(\d+[a-z]?)\b\s*$], IGNORECASE. *)
Definition num_re : regex :=
  Seq [WordB; Group 1 (Seq [Plus isdecimal; Opt is_letter_ascii]); WordB;
       Star isspace; Eol].

(** [\s*//\s*]. *)
Definition slash_re : regex :=
  Seq [Star isspace; Lit "/"; Lit "/"; Star isspace].

(** [[^\w\s\-\(\)\[\]\.&,'!+]], UNICODE. *)
Definition unsafe_char (c : ascii) : bool :=
  negb (is_word c || isspace c || existsb (Ascii.eqb c) (L "-()[].&,'!+")).

(** [\.(png|jpg|jpeg)(?:\?|$)], IGNORECASE. *)
Definition ext_re : regex :=
  Seq [Lit "."; Group 1 (Alt (LitsI "png") (Alt (LitsI "jpg") (LitsI "jpeg")));
       Alt (Lit "?") Eol].

(** ** [sanitize_filename] *)

Definition sanitize_filename (name : str) : str :=
  let name := strip name in
  let name := re_sub (Class unsafe_char) [] name in
  re_sub (Plus isspace) (L " ") name.

(** ** [parse_deck_line] *)

(** The dict returned by the parser; [set_code] is its key ["set"]. *)
Record Entry := {
  qty : Z;
  name : str;
  set_code : option str;
  collector_number : option str
}.

Definition section_markers : list str :=
  [L "#"; L "//"; L "Sideboard"; L "Commander"; L "Companion"; L "Maybeboard"].

(** The line after the blank, comment and section checks and the removal
    of the foil markers; [None] when the line is skipped. *)
Definition clean_line (line : str) : option str :=
  let s := strip line in
  match s with
  | [] => None
  | _ :: _ =>
      if startswith_any s section_markers then None
      else Some (strip (re_sub foil_re [] s))
  end.

(** The quantity prefix: [m_qty] and the [qty], [rest] it gives. *)
Definition split_qty (s : str) : Z * str :=
  match re_match qty_re s with
  | Some m_qty => (int (group m_qty s 1), strip (group m_qty s 2))
  | None => (1, s)
  end.

(** The set code: [m_set], [set_code] and [rest_wo_set]. *)
Definition split_set (rest : str) : option str * str :=
  match re_search set_re rest with
  | Some m_set =>
      (Some (lower (group m_set rest 1)),
       strip (firstn (m_start m_set) rest ++ skipn (m_end m_set) rest))
  | None => (None, rest)
  end.

(** The collector number: [m_num], [collector_number] and the name before
    its double slashes are normalized. *)
Definition split_num (rest_wo_set : str) : option str * str :=
  match re_search num_re rest_wo_set with
  | Some m_num =>
      (Some (group m_num rest_wo_set 1), strip (firstn (m_start m_num) rest_wo_set))
  | None => (None, strip rest_wo_set)
  end.

Definition parse_deck_line (line : str) : option Entry :=
  match clean_line line with
  | None => None
  | Some s =>
      let '(qty, rest) := split_qty s in
      let '(set_code, rest_wo_set) := split_set rest in
      let '(collector_number, name) := split_num rest_wo_set in
      let name := re_sub slash_re (L " // ") name in
      match name with
      | [] => None
      | _ :: _ =>
          Some {| qty := qty; name := name; set_code := set_code;
                  collector_number := collector_number |}
      end
  end.

(** ** [build_identifiers] *)

(** Truth value of [e.get(key)]: present and not the empty string. *)
Definition truthy (o : option str) : bool :=
  match o with
  | Some (_ :: _) => true
  | _ => false
  end.

(** [e[key]] where the value is known to be a string. *)
Definition item (o : option str) : str := default [] o.

(** An identifier sent to the lookup API: a dict from field names to
    text. *)
Abbreviation Identifier := (gmap str str).

Definition build_identifier (e : Entry) : Identifier :=
  if truthy (set_code e) && truthy (collector_number e) then
    {[ L "set" := item (set_code e);
       L "collector_number" := item (collector_number e) ]}
  else if truthy (set_code e) then
    {[ L "name" := name e; L "set" := item (set_code e) ]}
  else
    {[ L "name" := name e ]}.

Definition build_identifiers (entries : list Entry) : list Identifier :=
  map build_identifier entries.

(** ** [group_by_identifier] and the aggregation loop of [main] *)

Definition key (e : Entry) : str :=
  if truthy (set_code e) && truthy (collector_number e) then
    L "set:" ++ item (set_code e) ++ L "#cn:" ++ item (collector_number e)
  else if truthy (set_code e) then
    L "name:" ++ lower (name e) ++ L "#set:" ++ item (set_code e)
  else
    L "name:" ++ lower (name e).

(** [groups.setdefault(k, []).append(e)] on an insertion-ordered dict. *)
Fixpoint setdefault_append (k : str) (e : Entry) (groups : list (str * list Entry))
    : list (str * list Entry) :=
  match groups with
  | [] => [(k, [e])]
  | (k', items) :: groups' =>
      if decide (k = k') then (k', items ++ [e]) :: groups'
      else (k', items) :: setdefault_append k e groups'
  end.

Definition group_by_identifier (entries : list Entry) : list (str * list Entry) :=
  fold_left (fun groups e => setdefault_append (key e) e groups) entries [].

(** [sum(i["qty"] for i in items)]. *)
Definition total_qty (items : list Entry) : Z :=
  fold_left (fun acc i => acc + qty i) items 0.

(** One turn of the aggregation loop; [None] is the IndexError of
    [items[0]] on an empty group. *)
Definition exemplar_of (unique : bool) (items : list Entry) : option Entry :=
  match items with
  | [] => None
  | first :: _ =>
      Some {| qty := if unique then 1 else total_qty items;
              name := name first;
              set_code := set_code first;
              collector_number := collector_number first |}
  end.

Definition aggregate (unique : bool) (grouped : list (str * list Entry))
    : option (list Entry) :=
  mapM (fun kv => exemplar_of unique (snd kv)) grouped.

Definition aggregated_of (unique : bool) (parsed : list Entry) : option (list Entry) :=
  aggregate unique (group_by_identifier parsed).

(** The parsing loop of [main]. *)
Definition parse_lines (lines : list str) : list Entry :=
  omap parse_deck_line lines.

(** ** Card objects of the lookup API *)

Record Face := {
  face_name : option str;
  face_image_uris : option (gmap str str)
}.

Record Card := {
  card_name : option str;
  card_set : option str;
  card_collector_number : option str;
  image_uris : option (gmap str str);
  card_faces : option (list Face)
}.

Inductive Exception : Type :=
| KeyError (msg : str)
| IndexError (msg : str)
| HTTPError (msg : str)
| OSError (msg : str).

(** [{card.get('name')}] inside an f-string. *)
Definition fmt_opt (o : option str) : str := default (L "None") o.

(** [f"{n}"] for a list index. *)
Definition fmt_nat (n : nat) : str := str_of_int (Z.of_nat n).

(** A dict value is truthy when present and non-empty. *)
Definition nonempty_map (o : option (gmap str str)) : option (gmap str str) :=
  match o with
  | Some iu => if decide (iu = ∅) then None else Some iu
  | None => None
  end.

Definition nonempty_list {A} (o : option (list A)) : option (list A) :=
  match o with
  | Some (x :: l) => Some (x :: l)
  | _ => None
  end.

(** ** [pick_image_uris] *)

(** The loop over [enumerate(faces)], from index [idx]. *)
Fixpoint pick_faces (card : Card) (size : str) (idx : nat) (faces : list Face)
    : Exception + list (str * str) :=
  match faces with
  | [] => inr []
  | face :: faces' =>
      match face_image_uris face ≫= (fun iu => iu !! size) with
      | None =>
          inl (KeyError (L "No '" ++ size ++ L "' image for face " ++ fmt_nat (idx + 1)
                         ++ L " of " ++ fmt_opt (card_name card)))
      | Some url =>
          let face_name := default (L "face" ++ fmt_nat (idx + 1)) (face_name face) in
          let suffix := L "-" ++ sanitize_filename face_name in
          match pick_faces card size (S idx) faces' with
          | inl ex => inl ex
          | inr uris => inr ((url, suffix) :: uris)
          end
      end
  end.

Definition pick_image_uris (card : Card) (size : str) : Exception + list (str * str) :=
  match nonempty_map (image_uris card) with
  | Some iu =>
      match iu !! size with
      | None => inl (KeyError (L "No '" ++ size ++ L "' image for " ++ fmt_opt (card_name card)))
      | Some url => inr [(url, [])]
      end
  | None =>
      match nonempty_list (card_faces card) with
      | Some faces => pick_faces card size 0 faces
      | None => inl (KeyError (L "No image_uris found for " ++ fmt_opt (card_name card)))
      end
  end.

(** ** [make_filename] and [infer_extension_from_url] *)

Definition make_filename (card : Card) (qty : Z) (face_suffix : str) : str :=
  let set_code := lower (default [] (card_set card)) in
  let cn := default [] (card_collector_number card) in
  let name := sanitize_filename (default (L "Unknown") (card_name card)) in
  let qty_prefix := if 1 <? qty then str_of_int qty ++ L "x " else [] in
  let set_part := match set_code with [] => [] | _ :: _ => L " (" ++ set_code ++ L ")" end in
  let num_part := match cn with [] => [] | _ :: _ => L " " ++ cn end in
  qty_prefix ++ name ++ face_suffix ++ set_part ++ num_part.

Definition infer_extension_from_url (url : str) : str :=
  match re_search ext_re url with
  | Some mo => L "." ++ lower (group mo url 1)
  | None => L ".img"
  end.

(** ** The effectful part of [main]

    The network, the file system and the platform library are the
    environment of the program: the lookup request, the file download,
    the creation of the output folder, [os.path.join] and [str] on an
    exception are parameters.  [Exception] stands for the instances of
    Python's [Exception] class; interrupts are outside the model. *)

Definition BATCH_SIZE : nat := 75.

(** The JSON body of a lookup response; a field is [None] when the key is
    absent. *)
Record Response := {
  data : option (list Card);
  not_found : option (list Identifier)
}.

(** [range(0, n, step)]. *)
Definition range_step (n step : nat) : list nat :=
  map (fun i => (i * step)%nat) (seq 0 ((n + step - 1) / step)).

(** [l[start:start+BATCH_SIZE]]. *)
Definition batch {A} (l : list A) (start : nat) : list A :=
  firstn BATCH_SIZE (skipn start l).

Section Run.

Context {World : Type}.

Variable post : list Identifier -> World -> World * (Exception + Response).
Variable path_exists : str -> World -> bool.
Variable fetch : str -> str -> World -> World * option Exception.
Variable ensure_dir : str -> World -> World * option Exception.
Variable path_join : str -> str -> str.
Variable str_of_exception : Exception -> str.

(** The local variables of [main] that the loops update, and the world. *)
Record State := {
  world : World;
  resolved_cards : list (Card * Z);
  missing : list Identifier;
  errors : list (str * str);
  pbar : nat
}.

(** Computations that update the state and return or raise. *)
Definition Eff (A : Type) : Type := State -> State * (Exception + A).

#[local] Instance Eff_ret : MRet Eff := fun A a st => (st, inr a).

#[local] Instance Eff_bind : MBind Eff := fun A B f c st =>
  match c st with
  | (st', inr a) => f a st'
  | (st', inl ex) => (st', inl ex)
  end.

(** [try: body except Exception as ex: handler(ex)]. *)
Definition try_except {A} (body : Eff A) (handler : Exception -> Eff A) : Eff A :=
  fun st =>
    match body st with
    | (st', inr a) => (st', inr a)
    | (st', inl ex) => handler ex st'
    end.

(** [try: body finally: fin]. *)
Definition try_finally {A} (body : Eff A) (fin : Eff unit) : Eff A :=
  fun st =>
    match body st with
    | (st', r) =>
        match fin st' with
        | (st'', inr _) => (st'', r)
        | (st'', inl ex) => (st'', inl ex)
        end
    end.

(** [for x in xs: body(x)]. *)
Fixpoint for_each {A} (xs : list A) (body : A -> Eff unit) : Eff unit :=
  match xs with
  | [] => mret tt
  | x :: xs' => body x ;; for_each xs' body
  end.

Definition lift {A} (r : Exception + A) : Eff A := fun st => (st, r).

Definition set_world (w : World) (st : State) : State :=
  {| world := w; resolved_cards := resolved_cards st; missing := missing st;
     errors := errors st; pbar := pbar st |}.

(** A call that may fail after changing the world. *)
Definition call (f : World -> World * option Exception) : Eff unit :=
  fun st =>
    match f (world st) with
    | (w, None) => (set_world w st, inr tt)
    | (w, Some ex) => (set_world w st, inl ex)
    end.

(** [session.post] followed by [raise_for_status] and [json]. *)
Definition call_post (ids : list Identifier) : Eff Response :=
  fun st =>
    match post ids (world st) with
    | (w, r) => (set_world w st, r)
    end.

Definition add_missing (nf : Identifier) (st : State) : State :=
  {| world := world st; resolved_cards := resolved_cards st;
     missing := missing st ++ [nf]; errors := errors st; pbar := pbar st |}.

Definition add_resolved (rc : Card * Z) (st : State) : State :=
  {| world := world st; resolved_cards := resolved_cards st ++ [rc];
     missing := missing st; errors := errors st; pbar := pbar st |}.

Definition add_error (err : str * str) (st : State) : State :=
  {| world := world st; resolved_cards := resolved_cards st;
     missing := missing st; errors := errors st ++ [err]; pbar := pbar st |}.

Definition add_progress (n : nat) (st : State) : State :=
  {| world := world st; resolved_cards := resolved_cards st;
     missing := missing st; errors := errors st; pbar := (pbar st + n)%nat |}.

Definition update (f : State -> State) : Eff unit := fun st => (f st, inr tt).

Definition missing_append (nf : Identifier) : Eff unit := update (add_missing nf).
Definition resolved_append (rc : Card * Z) : Eff unit := update (add_resolved rc).
Definition errors_append (err : str * str) : Eff unit := update (add_error err).
Definition pbar_update (n : nat) : Eff unit := update (add_progress n).

(** *** Resolving cards in batches *)

(** The body of the loop over [start]. *)
Definition resolve_batch (identifiers : list Identifier) (aggregated : list Entry)
    (start : nat) : Eff unit :=
  let batch_ids := batch identifiers start in
  resp ← call_post batch_ids;
  let returned := default [] (data resp) in
  for_each (default [] (not_found resp)) missing_append ;;
  for_each (zip returned (batch aggregated start))
    (fun '(card_json, entry) => resolved_append (card_json, qty entry)).

Definition resolve (identifiers : list Identifier) (aggregated : list Entry) : Eff unit :=
  for_each (range_step (length identifiers) BATCH_SIZE)
    (resolve_batch identifiers aggregated).

(** *** Downloading *)

(** [download_file]: nothing is done for a file that exists unless
    [overwrite] is set; otherwise [fetch] stands for the request, its
    status check and the writing of the chunks to [dest].  The delay
    after a download only lets time pass. *)
Definition download_file (url dest : str) (overwrite : bool) : Eff unit :=
  fun st =>
    if negb overwrite && path_exists dest (world st) then (st, inr tt)
    else call (fetch url dest) st.

(** The body of the [try] block for one resolved card. *)
Definition download_card (size out_dir : str) (overwrite : bool)
    (card_json : Card) (qty : Z) : Eff unit :=
  pairs ← lift (pick_image_uris card_json size);
  for_each pairs (fun '(url, suffix) =>
    let base := make_filename card_json qty suffix in
    let ext := infer_extension_from_url url in
    let dest_path := path_join out_dir (base ++ ext) in
    download_file url dest_path overwrite).

(** The [except] handler. *)
Definition record_error (card_json : Card) (ex : Exception) : Eff unit :=
  let name := default (L "Unknown") (card_name card_json) in
  errors_append (name, str_of_exception ex).

(** One turn of the download loop. *)
Definition download_turn (size out_dir : str) (overwrite : bool) (rc : Card * Z)
    : Eff unit :=
  let '(card_json, qty) := rc in
  try_finally
    (try_except (download_card size out_dir overwrite card_json qty)
       (record_error card_json))
    (pbar_update 1).

Definition download_all (size out_dir : str) (overwrite : bool)
    (resolved : list (Card * Z)) : Eff unit :=
  for_each resolved (download_turn size out_dir overwrite).

(** The download loop runs over the list the resolver has built. *)
Definition download_resolved (size out_dir : str) (overwrite : bool) : Eff unit :=
  fun st => download_all size out_dir overwrite (resolved_cards st) st.

(** What the download loop is to do with a list of resolved cards: a
    card whose [try] block returns leaves the error list alone, a card
    whose [try] block raises adds one entry that pairs its name with the
    text of the exception, and either way the progress bar advances and
    the remaining cards follow. *)
Inductive Processed (size out_dir : str) (overwrite : bool)
    : State -> list (Card * Z) -> State -> Prop :=
| Processed_nil st :
    Processed size out_dir overwrite st [] st
| Processed_ok st st1 st' card_json qty rest :
    download_card size out_dir overwrite card_json qty st = (st1, inr tt) ->
    Processed size out_dir overwrite (add_progress 1 st1) rest st' ->
    Processed size out_dir overwrite st ((card_json, qty) :: rest) st'
| Processed_failed st st1 st' card_json qty ex rest :
    download_card size out_dir overwrite card_json qty st = (st1, inl ex) ->
    Processed size out_dir overwrite
      (add_progress 1
         (add_error (default (L "Unknown") (card_name card_json), str_of_exception ex) st1))
      rest st' ->
    Processed size out_dir overwrite st ((card_json, qty) :: rest) st'.

(** *** [main] after argument parsing and input reading *)

Inductive Outcome : Type :=
| Exited (code : Z)
| Crashed (ex : Exception) (st : State)
| Done (st : State).

Definition initial (w : World) : State :=
  {| world := w; resolved_cards := []; missing := []; errors := []; pbar := O |}.

Definition main (lines : list str) (unique overwrite : bool) (size out_dir : str)
    (w : World) : Outcome :=
  match parse_lines lines with
  | [] => Exited 1
  | parsed =>
      match aggregated_of unique parsed with
      | None => Crashed (IndexError (L "list index out of range")) (initial w)
      | Some aggregated =>
          let identifiers := build_identifiers aggregated in
          let run : Eff unit :=
            resolve identifiers aggregated ;;
            call (ensure_dir out_dir) ;;
            download_resolved size out_dir overwrite in
          match run (initial w) with
          | (st, inr _) => Done st
          | (st, inl ex) => Crashed ex st
          end
      end
  end.

End Run.

Arguments State World : clear implicits.
Arguments Eff World A : clear implicits.
Arguments Outcome World : clear implicits.

(** ** The serializer of the specification, the lookup service and a
    small environment *)

(** Modelled from the spec: the canonical text of a CardEntry, quantity,
    name, then the set code in parentheses and the collector number when
    they are present; the source has no serializer. *)
Definition serialize (e : Entry) : str :=
  str_of_int (qty e) ++ L " " ++ name e
  ++ match set_code e with Some s => L " (" ++ s ++ L ")" | None => [] end
  ++ match collector_number e with Some c => L " " ++ c | None => [] end.

(** Modelled from the spec: the lookup service, which is outside the
    repository.  By its contract the [data] list holds the cards of the
    identifiers that resolve, in the order of the request, and
    [not_found] the identifiers that do not.  [db] is the card database
    of the service. *)
Definition lookup_api (db : Identifier -> option Card) (ids : list Identifier)
    : Response :=
  {| data := Some (omap db ids);
     not_found := Some (filter (fun i => db i = None) ids) |}.

(** A lookup service that knows a single card, and an environment in
    which every download succeeds. *)
Definition counterspell : Card :=
  {| card_name := Some (L "Counterspell"); card_set := Some (L "lea");
     card_collector_number := Some (L "54");
     image_uris := Some {[ L "png" := L "https://img/counterspell.png" ]};
     card_faces := None |}.

Definition one_card_db (i : Identifier) : option Card :=
  if decide (i = {[ L "name" := L "Counterspell" ]}) then Some counterspell else None.

Definition one_card_post (ids : list Identifier) (w : unit)
    : unit * (Exception + Response) :=
  (w, inr (lookup_api one_card_db ids)).

Definition always_ok (w : unit) : unit * option Exception := (w, None).

Definition no_file (dest : str) (w : unit) : bool := false.

Definition posix_join (a b : str) : str := a ++ L "/" ++ b.

Definition exception_text (ex : Exception) : str :=
  match ex with
  | KeyError msg | IndexError msg | HTTPError msg | OSError msg => msg
  end.

(** ** Shapes of text and of entries *)

(** A leading quantity prefix: an integer, optional blanks, an optional
    x, and at least one blank. *)
Definition has_qty_prefix (s : str) : Prop :=
  exists ds ws x ws' rest,
    s = ds ++ ws ++ x ++ ws' ++ rest
    /\ ds <> [] /\ Forall (fun c => isdecimal c = true) ds
    /\ Forall (fun c => isspace c = true) ws
    /\ Forall (fun c => chr_i "x" c = true) x /\ (length x <= 1)%nat
    /\ ws' <> [] /\ Forall (fun c => isspace c = true) ws'.

(** Text that does not start, or end, with whitespace. *)
Definition no_lead (s : str) : Prop :=
  match s with c :: _ => isspace c = false | [] => True end.

Definition no_trail (s : str) : Prop := no_lead (rev s).

(** Characters that start neither a foil marker nor a set code and that
    [.] matches. *)
Definition plain_char (c : ascii) : bool :=
  negb (Ascii.eqb c "(" || Ascii.eqb c "*" || Ascii.eqb c "010").

(** A name that the parser leaves as it is: not empty, no surrounding
    whitespace, plain characters only, double-slash separators already in
    the canonical form. *)
Definition plain_name (nm : str) : Prop :=
  nm <> [] /\ no_lead nm /\ no_trail nm
  /\ Forall (fun c => plain_char c = true) nm
  /\ re_sub slash_re (L " // ") nm = nm.

(** Text with a blank followed, later on, by a character that is not a
    blank: no collector number ends the text from here. *)
Definition blocked (suf : str) : Prop :=
  exists u c v, suf = u ++ c :: v /\ isspace c = true
    /\ Exists (fun d => isspace d = false) v.

(** A collector number as the parser reads one: decimal digits, then at
    most one ASCII letter. *)
Definition is_collector_number (num : str) : Prop :=
  exists ds l, num = ds ++ l /\ ds <> [] /\ Forall (fun c => isdecimal c = true) ds
    /\ (l = [] \/ exists c, l = [c] /\ is_letter_ascii c = true).

(** A set code as the parser reads one. *)
Definition is_set_token (tok : str) : Prop :=
  (2 <= length tok <= 5)%nat /\ Forall (fun c => is_alnum_ascii c = true) tok.

(** The name starts with an x that the quantity pattern would take for
    its own: an x (in either case) alone or followed by whitespace. *)
Definition x_led (nm : str) : bool :=
  match nm with
  | c :: rest =>
      chr_i "x" c && match rest with [] => true | c2 :: _ => isspace c2 end
  | [] => false
  end.

(** An entry in normal form: a natural quantity, a plain name that does
    not start with a separate x and, when there is no collector number,
    does not end in one; a set code of 2 to 5 lower-case alphanumerics
    other than "foil"; a collector number of digits and at most one
    letter. *)
Definition normal_entry (e : Entry) : Prop :=
  0 <= qty e
  /\ plain_name (name e) /\ x_led (name e) = false
  /\ (forall s, set_code e = Some s ->
        is_set_token s /\ lower s = s /\ s <> L "foil")
  /\ (forall num, collector_number e = Some num -> is_collector_number num)
  /\ (collector_number e = None -> re_search num_re (name e) = None).

(** Present fields of an entry are not empty. *)
Definition fields_nonempty (e : Entry) : Prop :=
  set_code e <> Some [] /\ collector_number e <> Some [].

(** ** Auxiliary notions *)

(** The digits of a decimal numeral as text. *)
Definition uint_text (d : Decimal.uint) : str :=
  list_ascii_of_string (NilEmpty.string_of_uint d).

(** The set and collector-number parts that [make_filename] appends. *)
Definition set_part (card : Card) : str :=
  match lower (default [] (card_set card)) with
  | [] => []
  | c :: s => L " (" ++ (c :: s) ++ L ")"
  end.

Definition num_part (card : Card) : str :=
  match default [] (card_collector_number card) with
  | [] => []
  | c :: s => L " " ++ (c :: s)
  end.

(** The upper bound of a repetition admits [n] turns. *)
Definition within (hi : option nat) (n : nat) : Prop :=
  match hi with Some h => (n <= h)%nat | None => True end.

(** [groups.get(k)]. *)
Fixpoint assoc (k : str) (groups : list (str * list Entry)) : option (list Entry) :=
  match groups with
  | [] => None
  | (k', items) :: groups' => if decide (k = k') then Some items else assoc k groups'
  end.

(** The entries of a list that have identity key [k], in order. *)
Definition with_key (k : str) (entries : list Entry) : list Entry :=
  filter (fun e => key e = k) entries.

(** What [group_by_identifier] has built after the entries [l]: the keys
    are distinct and each is bound to the entries of [l] with that key. *)
Definition grouped (g : list (str * list Entry)) (l : list Entry) : Prop :=
  NoDup (map fst g)
  /\ forall k, assoc k g = match with_key k l with [] => None | items => Some items end.

(** An aggregated entry seen as its identity key and its quantity. *)
Definition key_qty (e : Entry) : str * Z := (key e, qty e).

(** ** Notions for the further properties *)

(** The IdentityKey of the specification (its section 3), written after
    the specification's words for comparison with [key] of the source:
    set code and collector number if both are present, else the
    lower-cased name and the set code if the set code is present, else
    the lower-cased name. *)
Inductive IdentityKey : Type :=
| BySetNumber (set_code collector_number : str)
| ByNameSet (name_lowercased set_code : str)
| ByName (name_lowercased : str).

Definition spec_identity_key (e : Entry) : IdentityKey :=
  match set_code e, collector_number e with
  | Some s, Some c => BySetNumber s c
  | Some s, None => ByNameSet (lower (name e)) s
  | None, _ => ByName (lower (name e))
  end.

(** The characters [sanitize_filename] lets through: word characters,
    the plain space and the punctuation of its whitelist. *)
Definition safe_char (c : ascii) : bool :=
  is_word c || Ascii.eqb c " " || existsb (Ascii.eqb c) (L "-()[].&,'!+").

(** Every whitespace character is a plain space and is followed by a
    character that is not whitespace, or by nothing. *)
Fixpoint single_spaced (s : str) : Prop :=
  match s with
  | [] => True
  | a :: s' => (isspace a = true -> a = " "%char /\ no_lead s') /\ single_spaced s'
  end.

(** A foil marker in any letter case. *)
Definition is_foil_marker (mk : str) : Prop :=
  lower mk = L "*f*" \/ lower mk = L "(foil)".

(** The distinct elements of a list of keys, in the order of their first
    occurrence. *)
Fixpoint first_seen (ks : list str) : list str :=
  match ks with
  | [] => []
  | k :: ks' => k :: filter (fun k' => k' <> k) (first_seen ks')
  end.

(** [chunked], a helper that [main] does not call.  The generator is
    modelled by the list of the chunks it yields; [None] is the
    ValueError that [range] raises for a zero step.  A negative step
    makes the range empty. *)
Definition chunked {A} (iterable : list A) (size : Z) : option (list (list A)) :=
  if size =? 0 then None
  else if size <? 0 then Some []
  else Some (map (fun i => firstn (Z.to_nat size) (skipn i iterable))
               (range_step (length iterable) (Z.to_nat size))).
(** The step from [st] to [st1] changed nothing but the world: the lists
    and the progress counter of [main] are as they were. *)
Definition only_world {World : Type} (st st1 : State World) : Prop :=
  resolved_cards st1 = resolved_cards st /\ missing st1 = missing st
  /\ errors st1 = errors st /\ pbar st1 = pbar st.
(** A lookup service that answers every identifier with the same card,
    and one that is down. *)
Definition echo_post (card : Card) (ids : list Identifier) (w : unit)
    : unit * (Exception + Response) :=
  (w, inr {| data := Some (map (fun _ => card) ids); not_found := None |}).

Definition down_post (ids : list Identifier) (w : unit)
    : unit * (Exception + Response) :=
  (w, inl (HTTPError (L "503 Server Error"))).

(** A file system that holds the single file [p]. *)
Definition only_file (p dest : str) (w : unit) : bool := bool_decide (dest = p).

Definition never_ok (w : unit) : unit * option Exception :=
  (w, Some (OSError (L "unreachable"))).

(** No dot of the text starts an image extension: the character after
    each dot is neither p nor j, in either case. *)
Fixpoint dots_inert (s : str) : bool :=
  match s with
  | c :: s' =>
      (if Ascii.eqb c "." then
         match s' with
         | c' :: _ => negb (chr_i "p" c' || chr_i "j" c')
         | [] => true
         end
       else true) && dots_inert s'
  | [] => true
  end.

(** The text is one of the three image extensions, in any case. *)
Definition is_image_ext (e : str) : Prop :=
  lower e = L "png" \/ lower e = L "jpg" \/ lower e = L "jpeg".

(** [str.splitlines] below code point 256: a line ends at a line feed, a
    carriage return (with the line feed that follows it, if any), a
    vertical tab, a form feed, a file, group or record separator, or a
    next-line character; the line ends are dropped and a text ending in a
    line end has no empty last line.  [cur] is the current line,
    reversed. *)
Definition is_linebreak (c : ascii) : bool :=
  in_range 10 13 c || in_range 28 30 c || (code c =? 133)%N.

Fixpoint splitlines_from (cur : str) (s : str) {struct s} : list str :=
  match s with
  | [] => match cur with [] => [] | _ :: _ => [rev cur] end
  | c :: s' =>
      if is_linebreak c then
        rev cur ::
        match s' with
        | c' :: s'' =>
            if Ascii.eqb c "013" && Ascii.eqb c' "010" then splitlines_from [] s''
            else splitlines_from [] s'
        | [] => []
        end
      else splitlines_from (c :: cur) s'
  end.

Definition splitlines (s : str) : list str := splitlines_from [] s.

(** [read_decklist_from_stdin] and [read_decklist_from_file] once the
    text has been read: whether the empty-input warning is printed, and
    the lines returned. *)
Definition read_decklist_from_stdin (data : str) : bool * list str :=
  (match strip data with [] => true | _ :: _ => false end, splitlines data).

Definition read_decklist_from_file (txt : str) : bool * list str :=
  (match strip txt with [] => true | _ :: _ => false end, splitlines txt).

(** The paths that the download loop hands to [download_file] for one
    resolved card, and the entries that the loop adds to the error list
    for the cards whose image selection raises. *)
Definition destinations (path_join : str -> str -> str) (size out_dir : str)
    (rc : Card * Z) : list str :=
  match pick_image_uris (fst rc) size with
  | inr pairs =>
      map (fun p => path_join out_dir
                      (make_filename (fst rc) (snd rc) (snd p)
                       ++ infer_extension_from_url (fst p))) pairs
  | inl _ => []
  end.

Definition selection_errors (str_of_exception : Exception -> str) (size : str)
    (resolved : list (Card * Z)) : list (str * str) :=
  omap (fun rc =>
          match pick_image_uris (fst rc) size with
          | inl ex => Some (default (L "Unknown") (card_name (fst rc)), str_of_exception ex)
          | inr _ => None
          end) resolved.

(** * Properties *)

(** ** Decimal numerals *)

Section Numerals.

Let step (acc : Z) (c : ascii) : Z := 10 * acc + digit_value c.

Lemma int_uint_acc (d : Decimal.uint) (p : positive) :
  fold_left step (uint_text d) (Z.pos p) = Z.pos (Pos.of_uint_acc d p).
Proof.
  revert p. unfold uint_text.
  induction d as [|d IH|d IH|d IH|d IH|d IH|d IH|d IH|d IH|d IH|d IH];
    intros p; cbn [NilEmpty.string_of_uint list_ascii_of_string fold_left Pos.of_uint_acc];
    [reflexivity | rewrite <- IH; f_equal; unfold step, digit_value; cbn; lia ..].
Qed.

Lemma int_uint (d : Decimal.uint) :
  fold_left step (uint_text d) 0 = Z.of_N (Pos.of_uint d).
Proof.
  unfold uint_text.
  induction d as [|d IH|d IH|d IH|d IH|d IH|d IH|d IH|d IH|d IH|d IH];
    cbn [NilEmpty.string_of_uint list_ascii_of_string fold_left Pos.of_uint];
    [reflexivity | exact IH | cbn [Z.of_N]; rewrite <- int_uint_acc; reflexivity ..].
Qed.

Lemma uint_text_digits (d : Decimal.uint) :
  Forall (fun c => isdecimal c = true) (uint_text d).
Proof.
  unfold uint_text.
  induction d; cbn [NilEmpty.string_of_uint list_ascii_of_string];
    constructor; auto.
Qed.

Lemma uint_text_nil (d : Decimal.uint) : uint_text d = [] -> d = Decimal.Nil.
Proof. destruct d; [reflexivity | discriminate ..]. Qed.

End Numerals.

Lemma str_of_int_pos (p : positive) : str_of_int (Z.pos p) = uint_text (Pos.to_uint p).
Proof.
  unfold str_of_int, uint_text. cbn [Z.to_int NilZero.string_of_int].
  unfold NilZero.string_of_uint.
  destruct (Pos.to_uint p) eqn:E; try reflexivity.
  exfalso. revert E. apply DecimalPos.Unsigned.to_uint_nonnil.
Qed.

(** Printing a natural number and reading it back. *)
Lemma int_str_of_int (z : Z) : 0 <= z -> int (str_of_int z) = z.
Proof.
  intros Hz. destruct z as [|p|p]; [reflexivity | | lia].
  rewrite str_of_int_pos. unfold int.
  rewrite int_uint, DecimalPos.Unsigned.of_to. reflexivity.
Qed.

Lemma str_of_int_digits (z : Z) :
  0 <= z -> Forall (fun c => isdecimal c = true) (str_of_int z).
Proof.
  intros Hz. destruct z as [|p|p]; [repeat constructor | | lia].
  rewrite str_of_int_pos. apply uint_text_digits.
Qed.

Lemma str_of_int_nonempty (z : Z) : str_of_int z <> [].
Proof.
  destruct z as [|p|p]; [discriminate | | discriminate].
  rewrite str_of_int_pos. intros E. apply uint_text_nil in E.
  revert E. apply DecimalPos.Unsigned.to_uint_nonnil.
Qed.

(** ** File names *)

(** C8. The file name built for quantity 1 starts directly with the
    sanitized card name: nothing is put in front of it.  For a quantity
    [N > 1] the file name is the decimal numeral of [N], the letter x and
    a space, followed by exactly the name built for quantity 1. *)
Theorem make_filename_qty_prefix (card : Card) (q : Z) (face_suffix : str) :
  make_filename card 1 face_suffix
    = sanitize_filename (default (L "Unknown") (card_name card))
        ++ face_suffix ++ set_part card ++ num_part card
  /\ (1 < q ->
      make_filename card q face_suffix
        = str_of_int q ++ L "x " ++ make_filename card 1 face_suffix
      /\ int (str_of_int q) = q
      /\ Forall (fun c => isdecimal c = true) (str_of_int q)).
Proof.
  split.
  - unfold make_filename, set_part, num_part. cbn [Z.ltb Z.compare Pos.compare].
    destruct (lower _), (default [] (card_collector_number card)); reflexivity.
  - intros Hq. split; [|split].
    + unfold make_filename.
      destruct (Z.ltb_spec 1 q) as [_|]; [|lia].
      cbn [Z.ltb Z.compare Pos.compare]. rewrite <- !app_assoc. reflexivity.
    + apply int_str_of_int. lia.
    + apply str_of_int_digits. lia.
Qed.

Lemma make_filename_qty_prefix_witness :
  make_filename
    {| card_name := Some (L "Lightning Bolt"); card_set := Some (L "LEA");
       card_collector_number := Some (L "162"); image_uris := None;
       card_faces := None |} 4 []
  = L "4x Lightning Bolt (lea) 162".
Proof.
  pose proof (make_filename_qty_prefix
    {| card_name := Some (L "Lightning Bolt"); card_set := Some (L "LEA");
       card_collector_number := Some (L "162"); image_uris := None;
       card_faces := None |} 4 []) as [H1 H2].
  destruct H2 as [H2 _]; [lia|].
  rewrite H2, H1. vm_compute. reflexivity.
Defined.

(** ** Identifiers *)

Lemma truthy_Some (s : str) : s <> [] -> truthy (Some s) = true.
Proof. destruct s; [congruence | reflexivity]. Qed.

(** C6. For an entry whose present fields are not empty, the identifier
    holds the set and the collector number when both are present, the
    name and the set when only the set is present, and the name alone
    otherwise; with set and collector number both present it has no name
    field. *)
Theorem build_identifier_precedence (e : Entry) :
  fields_nonempty e ->
  build_identifier e =
    match set_code e, collector_number e with
    | Some s, Some c => {[ L "set" := s; L "collector_number" := c ]}
    | Some s, None => {[ L "name" := name e; L "set" := s ]}
    | None, _ => {[ L "name" := name e ]}
    end
  /\ (is_Some (set_code e) -> is_Some (collector_number e) ->
      build_identifier e !! L "name" = None).
Proof.
  intros [Hs Hc]. unfold build_identifier. revert Hs Hc.
  destruct (set_code e) as [s|], (collector_number e) as [c|]; intros Hs Hc.
  - assert (Hs' : s <> []) by (intros ->; apply Hs; reflexivity).
    assert (Hc' : c <> []) by (intros ->; apply Hc; reflexivity).
    rewrite !truthy_Some by assumption. cbn [andb item default].
    split; [reflexivity|]. intros _ _.
    rewrite lookup_insert_ne by (vm_compute; discriminate).
    rewrite lookup_singleton_ne by (vm_compute; discriminate). reflexivity.
  - assert (Hs' : s <> []) by (intros ->; apply Hs; reflexivity).
    rewrite truthy_Some by assumption. cbn [andb item default truthy].
    split; [reflexivity|]. intros _ [? ?]. discriminate.
  - split; [reflexivity|]. intros [? ?]. discriminate.
  - split; [reflexivity|]. intros [? ?]. discriminate.
Qed.

Lemma build_identifier_precedence_witness :
  build_identifier
    {| qty := 4; name := L "Lightning Bolt"; set_code := Some (L "lea");
       collector_number := Some (L "162") |} !! L "name" = None.
Proof.
  apply (build_identifier_precedence
    {| qty := 4; name := L "Lightning Bolt"; set_code := Some (L "lea");
       collector_number := Some (L "162") |}).
  - split; discriminate.
  - eexists; reflexivity.
  - eexists; reflexivity.
Defined.

(** ** Image selection *)

(** C10 (as amended). A card with a non-empty top-level [image_uris]
    mapping is served from that mapping alone, whatever its [card_faces]:
    one pair with the URL of the requested size and an empty suffix when
    the mapping has that size, and otherwise an error naming the size
    and the card.  The faces are consulted only when the top-level
    mapping is absent or empty, and when the faces are absent or empty as
    well the selection fails with an error naming the card. *)
Theorem pick_image_uris_precedence (card : Card) (size : str) :
  (forall iu, image_uris card = Some iu -> iu <> ∅ ->
     pick_image_uris card size =
       match iu !! size with
       | Some url => inr [(url, [])]
       | None => inl (KeyError (L "No '" ++ size ++ L "' image for "
                                ++ fmt_opt (card_name card)))
       end)
  /\ (image_uris card = None \/ image_uris card = Some ∅ ->
      forall face faces, card_faces card = Some (face :: faces) ->
        pick_image_uris card size = pick_faces card size 0 (face :: faces))
  /\ (image_uris card = None \/ image_uris card = Some ∅ ->
      card_faces card = None \/ card_faces card = Some [] ->
      pick_image_uris card size
        = inl (KeyError (L "No image_uris found for " ++ fmt_opt (card_name card)))).
Proof.
  unfold pick_image_uris. repeat split.
  - intros iu -> Hne. cbn [nonempty_map].
    destruct (decide (iu = ∅)); [contradiction|]. reflexivity.
  - intros [-> | ->] face faces ->; cbn [nonempty_map nonempty_list];
      [|destruct (decide _) as [_|Hn]; [|contradiction Hn]]; reflexivity.
  - intros [-> | ->] [-> | ->]; cbn [nonempty_map nonempty_list];
      try reflexivity;
      (destruct (decide _) as [_|Hn]; [|contradiction Hn]); reflexivity.
Qed.

Lemma pick_image_uris_precedence_witness :
  pick_image_uris
    {| card_name := Some (L "Island"); card_set := None; card_collector_number := None;
       image_uris := Some {[ L "png" := L "https://img/island.png" ]};
       card_faces := Some [ {| face_name := None; face_image_uris := None |} ] |}
    (L "png")
  = inr [(L "https://img/island.png", [])].
Proof.
  pose proof (pick_image_uris_precedence
    {| card_name := Some (L "Island"); card_set := None; card_collector_number := None;
       image_uris := Some {[ L "png" := L "https://img/island.png" ]};
       card_faces := Some [ {| face_name := None; face_image_uris := None |} ] |}
    (L "png")) as [H _].
  rewrite (H _ eq_refl); [vm_compute; reflexivity|].
  vm_compute. discriminate.
Defined.

(** C10, the claim as stated fails: a card whose non-empty top-level
    mapping lacks the requested size yields no pair at all. *)
Lemma pick_image_uris_size_missing :
  (exists iu,
     image_uris
       {| card_name := Some (L "Island"); card_set := None;
          card_collector_number := None;
          image_uris := Some {[ L "small" := L "https://img/island-small.jpg" ]};
          card_faces := None |} = Some iu /\ iu <> ∅)
  /\ pick_image_uris
       {| card_name := Some (L "Island"); card_set := None;
          card_collector_number := None;
          image_uris := Some {[ L "small" := L "https://img/island-small.jpg" ]};
          card_faces := None |} (L "png")
     = inl (KeyError (L "No 'png' image for Island"))
  /\ ~ exists pair,
        pick_image_uris
          {| card_name := Some (L "Island"); card_set := None;
             card_collector_number := None;
             image_uris := Some {[ L "small" := L "https://img/island-small.jpg" ]};
             card_faces := None |} (L "png")
        = inr [pair].
Proof.
  split; [|split].
  - eexists. split; [reflexivity|]. vm_compute. discriminate.
  - vm_compute. reflexivity.
  - intros [pair H]. vm_compute in H. discriminate.
Qed.

(** ** Grouping and aggregation *)

Section Grouping.

Implicit Types (k : str) (e : Entry) (g : list (str * list Entry)) (l : list Entry).

Lemma assoc_setdefault_append k k' e g :
  assoc k' (setdefault_append k e g)
  = if decide (k = k') then Some (default [] (assoc k g) ++ [e]) else assoc k' g.
Proof.
  induction g as [|[k0 items] g IH]; cbn [setdefault_append assoc].
  - destruct (decide (k' = k)), (decide (k = k')); cbn; congruence.
  - destruct (decide (k = k0)) as [->|Hk0]; cbn [assoc].
    + destruct (decide (k' = k0)) as [->|Hk'].
      * rewrite decide_True by reflexivity. reflexivity.
      * rewrite decide_False by congruence. reflexivity.
    + destruct (decide (k' = k0)) as [->|Hk'].
      * rewrite decide_False by assumption. reflexivity.
      * exact IH.
Qed.

Lemma keys_setdefault_append k e g :
  map fst (setdefault_append k e g)
  = if decide (k ∈ map fst g) then map fst g else map fst g ++ [k].
Proof.
  induction g as [|[k0 items] g IH]; cbn [setdefault_append map fst].
  - rewrite decide_False by apply not_elem_of_nil. reflexivity.
  - destruct (decide (k = k0)) as [->|Hk0]; cbn [map fst].
    + rewrite decide_True by (apply elem_of_cons; left; reflexivity). reflexivity.
    + rewrite IH. destruct (decide (k ∈ map fst g)) as [Hin|Hin].
      * rewrite decide_True by (apply elem_of_cons; right; exact Hin). reflexivity.
      * rewrite decide_False; [reflexivity|].
        rewrite elem_of_cons. intros [?|?]; congruence.
Qed.

Lemma assoc_elem_of k items g :
  NoDup (map fst g) -> (k, items) ∈ g <-> assoc k g = Some items.
Proof.
  induction g as [|[k0 its] g IH]; cbn [assoc map fst]; intros Hnd.
  - split; [intros H; inversion H | discriminate].
  - apply NoDup_cons in Hnd as [Hk0 Hnd]. rewrite elem_of_cons.
    destruct (decide (k = k0)) as [->|Hne]; split.
    + intros [E|Hin]; [congruence|].
      exfalso. apply Hk0. apply (list_elem_of_fmap_2 fst) in Hin. exact Hin.
    + intros [= ->]. left; reflexivity.
    + intros [E|Hin]; [congruence | apply IH; assumption].
    + intros H. right. apply IH; assumption.
Qed.

Lemma grouped_step g l e :
  grouped g l -> grouped (setdefault_append (key e) e g) (l ++ [e]).
Proof.
  intros [Hnd Hg]. split.
  - rewrite keys_setdefault_append. destruct (decide _) as [|Hnotin]; [assumption|].
    apply NoDup_app. repeat split; [assumption | | apply NoDup_singleton].
    intros x Hx Hx'. apply list_elem_of_singleton in Hx' as ->. contradiction.
  - intros k. rewrite assoc_setdefault_append. unfold with_key in *.
    rewrite filter_app. destruct (decide (key e = k)) as [<-|Hne].
    + rewrite Hg. rewrite filter_cons_True by reflexivity. rewrite filter_nil.
      destruct (filter _ l); reflexivity.
    + rewrite Hg. rewrite filter_cons_False by assumption. rewrite filter_nil.
      rewrite app_nil_r. reflexivity.
Qed.

Lemma grouped_fold l : forall g l0,
  grouped g l0 ->
  grouped (fold_left (fun groups e => setdefault_append (key e) e groups) l g) (l0 ++ l).
Proof.
  induction l as [|e l IH]; intros g l0 H; cbn [fold_left].
  - rewrite app_nil_r. exact H.
  - replace (l0 ++ e :: l) with ((l0 ++ [e]) ++ l) by (rewrite <- app_assoc; reflexivity).
    apply IH, grouped_step, H.
Qed.

Lemma group_by_identifier_spec l : grouped (group_by_identifier l) l.
Proof.
  apply (grouped_fold l [] []). split; [constructor | intros k; reflexivity].
Qed.

Lemma with_key_keys k l : Forall (fun e => key e = k) (with_key k l).
Proof.
  unfold with_key. apply Forall_forall. intros e He.
  apply list_elem_of_filter in He as [He _]. exact He.
Qed.

(** Every group holds at least one entry, all with the key of the group. *)
Lemma group_members l :
  Forall (fun kv => snd kv <> [] /\ Forall (fun e => key e = fst kv) (snd kv))
    (group_by_identifier l).
Proof.
  destruct (group_by_identifier_spec l) as [Hnd Hg].
  apply Forall_forall. intros [k items] Hin. cbn [fst snd].
  apply (assoc_elem_of _ _ _ Hnd) in Hin.
  rewrite Hg in Hin.
  pose proof (with_key_keys k l) as Hk.
  destruct (with_key k l) eqn:E; [discriminate|].
  injection Hin as <-. split; [discriminate | exact Hk].
Qed.

Lemma key_exemplar (unique : bool) items e :
  exemplar_of unique items = Some e ->
  exists first rest, items = first :: rest /\ key e = key first
    /\ qty e = (if unique then 1 else total_qty items)
    /\ name e = name first /\ set_code e = set_code first
    /\ collector_number e = collector_number first.
Proof.
  destruct items as [|first rest]; [discriminate|]. intros [= <-].
  exists first, rest. repeat split.
Qed.

(** The aggregation loop never indexes an empty group: it returns one
    entry per group, with the key of the group. *)
Lemma aggregate_groups (unique : bool) g :
  Forall (fun kv => snd kv <> [] /\ Forall (fun e => key e = fst kv) (snd kv)) g ->
  exists aggregated,
    aggregate unique g = Some aggregated
    /\ map key_qty aggregated
       = map (fun kv => (fst kv, if unique then 1 else total_qty (snd kv))) g.
Proof.
  unfold aggregate. induction 1 as [|[k items] g [Hne Hk] _ IH].
  - exists []. split; reflexivity.
  - destruct IH as (agg & Hagg & Hmap). cbn [snd fst] in *.
    destruct items as [|first rest]; [congruence|].
    eexists. split.
    + cbn. cbn in Hagg. rewrite Hagg. cbn. reflexivity.
    + cbn [map]. rewrite Hmap. f_equal. unfold key_qty. cbn [qty fst snd].
      f_equal. apply Forall_inv in Hk. cbn [fst] in Hk. rewrite <- Hk. reflexivity.
Qed.

Lemma aggregated_of_total (unique : bool) l :
  exists aggregated,
    aggregated_of unique l = Some aggregated
    /\ map key_qty aggregated
       = map (fun kv => (fst kv, if unique then 1 else total_qty (snd kv)))
           (group_by_identifier l).
Proof. apply aggregate_groups, group_members. Qed.

End Grouping.

(** C7. In unique mode the aggregation returns, and every aggregated
    entry has quantity 1, whatever the quantities of the parsed entries. *)
Theorem unique_mode_quantity_one (parsed : list Entry) :
  exists aggregated,
    aggregated_of true parsed = Some aggregated
    /\ Forall (fun e => qty e = 1) aggregated.
Proof.
  destruct (aggregated_of_total true parsed) as (agg & Hagg & Hmap).
  exists agg. split; [exact Hagg|].
  apply Forall_forall. intros e He.
  apply (list_elem_of_fmap_2 key_qty) in He. change (fmap key_qty agg) with (map key_qty agg) in He.
  rewrite Hmap in He.
  apply list_elem_of_fmap_1 in He as ([k items] & Heq & _).
  unfold key_qty in Heq. congruence.
Qed.

Section Permuting.

Implicit Types (k : str) (e : Entry) (l : list Entry).

Lemma total_qty_acc l : forall acc,
  fold_left (fun acc i => acc + qty i) l acc = acc + total_qty l.
Proof.
  unfold total_qty. induction l as [|e l IH]; intros acc; cbn [fold_left].
  - lia.
  - rewrite IH, (IH (0 + qty e)). lia.
Qed.

Lemma total_qty_cons e l : total_qty (e :: l) = qty e + total_qty l.
Proof. unfold total_qty at 1. cbn [fold_left]. rewrite total_qty_acc. lia. Qed.

Lemma total_qty_permutation l l' : Permutation l l' -> total_qty l = total_qty l'.
Proof.
  induction 1 as [|e l l' _ IH|e e' l|l l' l'' _ IH1 _ IH2].
  - reflexivity.
  - rewrite !total_qty_cons, IH. reflexivity.
  - rewrite !total_qty_cons. lia.
  - congruence.
Qed.

Lemma with_key_permutation k l l' :
  Permutation l l' -> Permutation (with_key k l) (with_key k l').
Proof. intros H. unfold with_key. rewrite H. reflexivity. Qed.

(** The key and quantity pairs of the aggregation, read off the input. *)
Lemma key_qty_aggregated (unique : bool) l k q :
  (k, q) ∈ map (fun kv => (fst kv, if unique then 1 else total_qty (snd kv)))
              (group_by_identifier l)
  <-> with_key k l <> [] /\ q = (if unique then 1 else total_qty (with_key k l)).
Proof.
  destruct (group_by_identifier_spec l) as [Hnd Hg]. split.
  - intros Hin. apply list_elem_of_fmap_1 in Hin as ([k0 items] & Heq & Hin).
    cbn [fst snd] in Heq. injection Heq as -> ->.
    apply (assoc_elem_of _ _ _ Hnd) in Hin. rewrite Hg in Hin.
    destruct (with_key k0 l) eqn:E; [discriminate|].
    injection Hin as <-. split; [discriminate | reflexivity].
  - intros [Hne ->].
    apply (list_elem_of_fmap_2'
             (fun kv => (fst kv, if unique then 1 else total_qty (snd kv)))
             _ (k, with_key k l)); [|reflexivity].
    apply (assoc_elem_of _ _ _ Hnd). rewrite Hg.
    destruct (with_key k l); [congruence | reflexivity].
Qed.

End Permuting.

(** X30. In terms of the string keys that the source computes,
    aggregating a permutation of a sequence of entries gives the same
    keys, each with the same quantity: the lists of (key, quantity) pairs
    of the two aggregations are permutations of each other, and no key
    occurs twice in either. *)
Theorem aggregation_permutation (unique : bool) (l l' : list Entry) :
  Permutation l l' ->
  exists a a',
    aggregated_of unique l = Some a
    /\ aggregated_of unique l' = Some a'
    /\ Permutation (map key_qty a) (map key_qty a')
    /\ NoDup (map key a) /\ NoDup (map key a').
Proof.
  intros Hperm.
  destruct (aggregated_of_total unique l) as (a & Ha & Hmap).
  destruct (aggregated_of_total unique l') as (a' & Ha' & Hmap').
  exists a, a'. split; [exact Ha|]. split; [exact Ha'|].
  assert (Hkeys : forall (x : list Entry) b,
             map key_qty b
             = map (fun kv => (fst kv, if unique then 1 else total_qty (snd kv)))
                 (group_by_identifier x) ->
             NoDup (map key b)).
  { intros x b Hb. destruct (group_by_identifier_spec x) as [Hnd _].
    replace (map key b) with (map fst (map key_qty b))
      by (rewrite map_map; reflexivity).
    rewrite Hb, map_map. exact Hnd. }
  split; [|split; [exact (Hkeys _ _ Hmap) | exact (Hkeys _ _ Hmap')]].
  apply NoDup_Permutation.
  - apply (NoDup_fmap_1 fst). change (NoDup (map fst (map key_qty a))).
    rewrite map_map. exact (Hkeys _ _ Hmap).
  - apply (NoDup_fmap_1 fst). change (NoDup (map fst (map key_qty a'))).
    rewrite map_map. exact (Hkeys _ _ Hmap').
  - intros [k q]. rewrite Hmap, Hmap', !key_qty_aggregated.
    pose proof (with_key_permutation k _ _ Hperm) as Hk.
    rewrite (total_qty_permutation _ _ Hk). split.
    + intros [Hne ->]. split; [|reflexivity].
      intros E. rewrite E in Hk. apply Permutation_nil_r in Hk. contradiction.
    + intros [Hne ->]. split; [|reflexivity].
      intros E. rewrite E in Hk. apply Permutation_nil in Hk. contradiction.
Qed.

Lemma aggregation_permutation_witness :
  exists a a',
    aggregated_of false
      [ {| qty := 2; name := L "Counterspell"; set_code := None; collector_number := None |};
        {| qty := 4; name := L "Lightning Bolt"; set_code := Some (L "lea");
           collector_number := Some (L "162") |};
        {| qty := 3; name := L "counterspell"; set_code := None; collector_number := None |} ]
      = Some a
    /\ aggregated_of false
      [ {| qty := 4; name := L "Lightning Bolt"; set_code := Some (L "lea");
           collector_number := Some (L "162") |};
        {| qty := 2; name := L "Counterspell"; set_code := None; collector_number := None |};
        {| qty := 3; name := L "counterspell"; set_code := None; collector_number := None |} ]
      = Some a'
    /\ Permutation (map key_qty a) (map key_qty a')
    /\ NoDup (map key a) /\ NoDup (map key a').
Proof.
  apply aggregation_permutation. apply perm_swap.
Defined.

(** C3. The string key of the source runs a name and a set code together:
    the entry named "foo#set:abc" without a set code and the entry named
    "foo" with the set code "abc" have different IdentityKeys, and
    [build_identifier] tells them apart, but they get one key.  The
    aggregation merges them into a single entry of quantity 5 instead of
    two entries of quantities 2 and 3, and which IdentityKey is left
    depends on the order of the lines. *)
Theorem aggregation_merges_distinct_identities :
  let e1 := {| qty := 2; name := L "foo#set:abc"; set_code := None;
               collector_number := None |} in
  let e2 := {| qty := 3; name := L "foo"; set_code := Some (L "abc");
               collector_number := None |} in
  parse_lines [L "2 foo#set:abc"; L "3 foo (abc)"] = [e1; e2]
  /\ spec_identity_key e1 <> spec_identity_key e2
  /\ build_identifier e1 <> build_identifier e2
  /\ key e1 = key e2
  /\ aggregated_of false [e1; e2]
     = Some [ {| qty := 5; name := L "foo#set:abc"; set_code := None;
                 collector_number := None |} ]
  /\ aggregated_of false [e2; e1]
     = Some [ {| qty := 5; name := L "foo"; set_code := Some (L "abc");
                 collector_number := None |} ]
  /\ (forall a a',
        aggregated_of false [e1; e2] = Some a ->
        aggregated_of false [e2; e1] = Some a' ->
        ~ Permutation (map spec_identity_key a) (map spec_identity_key a')).
Proof.
  cbv zeta.
  split; [vm_compute; reflexivity|].
  split; [vm_compute; discriminate|].
  split.
  { intros H. apply (f_equal (fun i : Identifier => i !! L "set")) in H.
    vm_compute in H. discriminate. }
  split; [vm_compute; reflexivity|].
  split; [vm_compute; reflexivity|].
  split; [vm_compute; reflexivity|].
  intros a a' Ha Ha'.
  vm_compute in Ha, Ha'. injection Ha as <-. injection Ha' as <-.
  intros H. apply Permutation_singleton_inj in H. vm_compute in H. discriminate.
Qed.

(** ** The download loop *)

Section Downloading.

Context {World : Type}.
Variable path_exists : str -> World -> bool.
Variable fetch : str -> str -> World -> World * option Exception.
Variable path_join : str -> str -> str.
Variable str_of_exception : Exception -> str.

Implicit Types (st : State World).

(** The [try] block touches the world only. *)
Lemma call_frame (f : World -> World * option Exception) st st1 r :
  call f st = (st1, r) -> pbar st1 = pbar st /\ errors st1 = errors st.
Proof.
  unfold call. destruct (f (world st)) as [w [ex|]]; intros [= <- _];
    split; reflexivity.
Qed.

Lemma for_each_frame {A} (body : A -> Eff World unit) (xs : list A) :
  (forall x st st1 r, body x st = (st1, r) ->
     pbar st1 = pbar st /\ errors st1 = errors st) ->
  forall st st1 r,
    for_each xs body st = (st1, r) ->
    pbar st1 = pbar st /\ errors st1 = errors st.
Proof.
  intros Hbody. induction xs as [|x xs IH]; intros st st1 r; cbn [for_each].
  - intros [= <- _]. split; reflexivity.
  - unfold mbind, Eff_bind.
    destruct (body x st) as [st2 [ex|u]] eqn:Hx.
    + intros [= <- _]. eapply Hbody, Hx.
    + intros H. apply IH in H as [-> ->]. eapply Hbody, Hx.
Qed.

Lemma download_file_frame url dest (overwrite : bool) st st1 r :
  download_file path_exists fetch url dest overwrite st = (st1, r) ->
  pbar st1 = pbar st /\ errors st1 = errors st.
Proof.
  unfold download_file. destruct (negb overwrite && path_exists dest (world st)).
  - intros [= <- _]. split; reflexivity.
  - apply call_frame.
Qed.

Lemma download_card_frame size out_dir (overwrite : bool) card_json q st st1 r :
  download_card path_exists fetch path_join size out_dir overwrite card_json q st
    = (st1, r) ->
  pbar st1 = pbar st /\ errors st1 = errors st.
Proof.
  unfold download_card, mbind, Eff_bind, lift.
  destruct (pick_image_uris card_json size) as [ex|pairs].
  - intros [= <- _]. split; reflexivity.
  - apply for_each_frame. intros [url suffix] st2 st3 r'. apply download_file_frame.
Qed.

Lemma Processed_pbar size out_dir (overwrite : bool) st resolved st' :
  Processed path_exists fetch path_join str_of_exception size out_dir overwrite st resolved st' ->
  pbar st' = (pbar st + length resolved)%nat.
Proof.
  induction 1 as [st|st st1 st' c q rest Hc _ IH|st st1 st' c q ex rest Hc _ IH].
  - cbn. lia.
  - apply download_card_frame in Hc as [Hp _]. rewrite IH. cbn. lia.
  - apply download_card_frame in Hc as [Hp _]. rewrite IH. cbn. lia.
Qed.

(** C9. The download loop always runs to its end: whatever failure the
    image selection or a download raises for a card is caught and
    recorded as the card's name paired with the text of the exception,
    the progress bar advances, and the loop goes on with the next
    card. *)
Theorem download_all_never_aborts (size out_dir : str) (overwrite : bool)
    (resolved : list (Card * Z)) st :
  exists st',
    download_all path_exists fetch path_join str_of_exception size out_dir overwrite
      resolved st
      = (st', inr tt)
    /\ Processed path_exists fetch path_join str_of_exception size out_dir overwrite st resolved st'
    /\ pbar st' = (pbar st + length resolved)%nat.
Proof.
  assert (H : exists st',
    download_all path_exists fetch path_join str_of_exception size out_dir overwrite
      resolved st
      = (st', inr tt)
    /\ Processed path_exists fetch path_join str_of_exception size out_dir overwrite st resolved st').
  { revert st. unfold download_all.
    induction resolved as [|[card_json q] rest IH]; intros st; cbn [for_each].
    - exists st. split; [reflexivity | constructor].
    - unfold mbind, Eff_bind, download_turn, try_finally, try_except,
        record_error, errors_append, pbar_update, update.
      destruct (download_card path_exists fetch path_join size out_dir overwrite card_json q st)
        as [st1 [ex|[]]] eqn:Hc.
      + destruct (IH (add_progress 1
                        (add_error (default (L "Unknown") (card_name card_json),
                                    str_of_exception ex) st1)))
          as (st' & Hrun & Hproc).
        exists st'. split; [exact Hrun|].
        eapply Processed_failed; eassumption.
      + destruct (IH (add_progress 1 st1)) as (st' & Hrun & Hproc).
        exists st'. split; [exact Hrun|].
        eapply Processed_ok; eassumption. }
  destruct H as (st' & Hrun & Hproc). exists st'.
  split; [exact Hrun|]. split; [exact Hproc|].
  eapply Processed_pbar, Hproc.
Qed.

End Downloading.

(** ** The batch resolver *)

Section Resolving.

Context {World : Type}.
Variable post : list Identifier -> World -> World * (Exception + Response).

Implicit Types (st : State World).

Lemma for_each_missing (nfs : list Identifier) : forall st,
  for_each nfs missing_append st
  = ({| world := world st; resolved_cards := resolved_cards st;
        missing := missing st ++ nfs; errors := errors st; pbar := pbar st |}, inr tt).
Proof.
  induction nfs as [|nf nfs IH]; intros [w rc ms es pb]; cbn [for_each].
  - cbn. rewrite app_nil_r. reflexivity.
  - unfold mbind, Eff_bind, missing_append, update at 1. rewrite IH.
    cbn. rewrite <- app_assoc. reflexivity.
Qed.

Lemma for_each_resolved (pairs : list (Card * Entry)) : forall st,
  for_each pairs (fun '(card_json, entry) => resolved_append (card_json, qty entry)) st
  = ({| world := world st;
        resolved_cards := resolved_cards st ++ map (fun p => (fst p, qty (snd p))) pairs;
        missing := missing st; errors := errors st; pbar := pbar st |}, inr tt).
Proof.
  induction pairs as [|[c e] pairs IH]; intros [w rc ms es pb]; cbn [for_each].
  - cbn. rewrite app_nil_r. reflexivity.
  - unfold mbind, Eff_bind, resolved_append, update at 1. rewrite IH.
    cbn. rewrite <- app_assoc. reflexivity.
Qed.

(** One batch, in closed form: every identifier of [not_found] goes to
    the missing list, and the i-th card of [data] is stored with the
    quantity of the i-th entry of the batch. *)
Lemma resolve_batch_answered (identifiers : list Identifier) (aggregated : list Entry)
    (start : nat) st (w : World) (resp : Response) :
  post (batch identifiers start) (world st) = (w, inr resp) ->
  resolve_batch post identifiers aggregated start st
  = ({| world := w;
        resolved_cards :=
          resolved_cards st
          ++ map (fun p => (fst p, qty (snd p)))
               (zip (default [] (data resp)) (batch aggregated start));
        missing := missing st ++ default [] (not_found resp);
        errors := errors st; pbar := pbar st |}, inr tt).
Proof.
  intros Hpost. unfold resolve_batch, mbind, Eff_bind, call_post. rewrite Hpost.
  rewrite for_each_missing, for_each_resolved. reflexivity.
Qed.

End Resolving.

(** C1. A decklist whose first card the lookup service does not know:
    the unknown identifier is reported as missing and one card resolves,
    but the loop pairs the cards of [data] with the first entries of the
    batch, so the resolved card carries the quantity 4 of the missing
    entry instead of its own quantity 2. *)
Theorem resolve_shifts_quantities_after_not_found :
  aggregated_of false
    (parse_lines [L "4 Nonexistent Card"; L "2 Counterspell"])
  = Some [ {| qty := 4; name := L "Nonexistent Card"; set_code := None;
              collector_number := None |};
           {| qty := 2; name := L "Counterspell"; set_code := None;
              collector_number := None |} ]
  /\ lookup_api one_card_db
       [ {[ L "name" := L "Nonexistent Card" ]}; {[ L "name" := L "Counterspell" ]} ]
     = {| data := Some [counterspell];
          not_found := Some [ {[ L "name" := L "Nonexistent Card" ]} ] |}
  /\ exists st,
       main one_card_post no_file (fun _ _ => always_ok) (fun _ => always_ok)
         posix_join exception_text [L "4 Nonexistent Card"; L "2 Counterspell"]
         false false (L "png") (L "cards") tt
       = Done st
       /\ missing st = [ {[ L "name" := L "Nonexistent Card" ]} ]
       /\ resolved_cards st = [(counterspell, 4)].
Proof.
  split; [vm_compute; reflexivity|].
  split; [vm_compute; reflexivity|].
  eexists. split; [vm_compute; reflexivity|].
  split; vm_compute; reflexivity.
Qed.

(** ** The matching engine *)

Section Engine.

Implicit Types (p : ascii -> bool) (pre suf xs : str) (k : str -> str -> option answer).

(** Whatever a repetition returns comes from its continuation, called
    after a run of characters of the class of an admissible length. *)
Lemma rep_greedy_sound p k : forall suf lo hi pre r,
  rep_greedy p lo hi k pre suf = Some r ->
  exists xs suf',
    suf = xs ++ suf' /\ Forall (fun c => p c = true) xs
    /\ (lo <= length xs)%nat /\ within hi (length xs)
    /\ k (rev xs ++ pre) suf' = Some r.
Proof.
  assert (Hstop : forall suf lo hi pre r,
    match lo with O => k pre suf | S _ => None end = Some r ->
    exists xs suf',
      suf = xs ++ suf' /\ Forall (fun c => p c = true) xs
      /\ (lo <= length xs)%nat /\ within hi (length xs)
      /\ k (rev xs ++ pre) suf' = Some r).
  { intros suf lo hi pre r H. destruct lo; [|discriminate].
    exists [], suf. repeat split; [constructor | reflexivity | | exact H].
    destruct hi; cbn; lia. }
  induction suf as [|a suf IH]; intros lo hi pre r; cbn [rep_greedy].
  - apply Hstop.
  - destruct (p a) eqn:Hpa; cbn [andb]; [|apply Hstop].
    destruct (hi_open hi) eqn:Hopen; [|apply Hstop].
    destruct (rep_greedy p (Nat.pred lo) (Nat.pred <$> hi) k (a :: pre) suf)
      as [r'|] eqn:Hrec; [|apply Hstop].
    intros [= <-]. apply IH in Hrec as (xs & suf' & -> & Hxs & Hlo & Hhi & Hk).
    exists (a :: xs), suf'. repeat split.
    + constructor; assumption.
    + cbn [length]. lia.
    + destruct hi as [[|h]|]; cbn in *; try discriminate; lia.
    + cbn [rev]. rewrite <- app_assoc. exact Hk.
Qed.

(** A repetition that can take a whole run, and whose continuation
    succeeds after it, returns what the continuation returns there. *)
Lemma rep_greedy_max p k : forall xs lo hi pre suf r,
  Forall (fun c => p c = true) xs ->
  (lo <= length xs)%nat -> within hi (length xs) ->
  k (rev xs ++ pre) suf = Some r ->
  match suf with c :: _ => p c = false \/ hi = Some (length xs) | [] => True end ->
  rep_greedy p lo hi k pre (xs ++ suf) = Some r.
Proof.
  induction xs as [|a xs IH]; intros lo hi pre suf r Hxs Hlo Hhi Hk Hstop.
  - cbn [app]. assert (lo = O) as -> by (cbn in Hlo; lia). cbn [rev app] in Hk.
    destruct suf as [|c suf]; cbn [rep_greedy]; [exact Hk|].
    destruct Hstop as [-> | ->]; cbn [andb hi_open length]; [exact Hk|].
    rewrite andb_false_r. exact Hk.
  - apply Forall_cons in Hxs as [Ha Hxs]. cbn [app rep_greedy]. rewrite Ha.
    assert (hi_open hi = true) as ->
      by (destruct hi as [[|h]|]; cbn in *; [lia | reflexivity ..]).
    cbn [andb]. rewrite (IH (Nat.pred lo) (Nat.pred <$> hi) (a :: pre) suf r);
      [reflexivity | assumption | cbn [length] in Hlo; lia | | | ].
    + destruct hi as [h|]; cbn in *; lia.
    + cbn [rev] in Hk. rewrite <- app_assoc in Hk. exact Hk.
    + destruct suf; [exact I|]. destruct Hstop as [?| ->]; [left; assumption|].
      right. reflexivity.
Qed.

(** A repetition fails when its continuation fails wherever the
    repetition can stop: [Q] holds of the text ahead and is kept by
    stepping over a character of the class. *)
Lemma rep_greedy_none p k (Q : str -> Prop) :
  (forall a suf, Q (a :: suf) -> p a = true -> Q suf) ->
  (forall pre suf, Q suf -> k pre suf = None) ->
  forall suf lo hi pre, Q suf -> rep_greedy p lo hi k pre suf = None.
Proof.
  intros Hstep Hk. induction suf as [|a suf IH]; intros lo hi pre HQ; cbn [rep_greedy].
  - destruct lo; [apply Hk, HQ | reflexivity].
  - assert (Hs : match lo with O => k pre (a :: suf) | S _ => None end = None)
      by (destruct lo; [apply Hk, HQ | reflexivity]).
    destruct (p a) eqn:Hpa; cbn [andb]; [|exact Hs].
    destruct (hi_open hi); [|exact Hs].
    rewrite IH; [exact Hs | eapply Hstep; eassumption].
Qed.

(** Searching passes over the positions at which nothing matches. *)
Lemma search_from_skip (r : regex) : forall xs pre suf,
  (forall ys zs, xs = ys ++ zs -> zs <> [] ->
     match_at r (rev ys ++ pre) (zs ++ suf) = None) ->
  search_from r pre (xs ++ suf) = search_from r (rev xs ++ pre) suf.
Proof.
  induction xs as [|a xs IH]; intros pre suf H; [reflexivity|].
  cbn [app search_from].
  pose proof (H [] (a :: xs) eq_refl ltac:(discriminate)) as H0.
  cbn [rev app] in H0. rewrite H0.
  rewrite IH; [cbn [rev]; rewrite <- app_assoc; reflexivity|].
  intros ys zs -> Hzs.
  replace (rev ys ++ a :: pre) with (rev (a :: ys) ++ pre)
    by (cbn [rev]; rewrite <- app_assoc; reflexivity).
  apply H; [reflexivity | assumption].
Qed.

(** A substitution copies the positions at which nothing matches. *)
Lemma sub_from_skip (r : regex) (repl : str) : forall xs pre suf,
  (forall ys zs, xs = ys ++ zs -> zs <> [] ->
     match_at r (rev ys ++ pre) (zs ++ suf) = None) ->
  sub_from r repl O pre (xs ++ suf) = xs ++ sub_from r repl O (rev xs ++ pre) suf.
Proof.
  induction xs as [|a xs IH]; intros pre suf H; [reflexivity|].
  cbn [app sub_from].
  pose proof (H [] (a :: xs) eq_refl ltac:(discriminate)) as H0.
  cbn [rev app] in H0. rewrite H0.
  rewrite IH; [cbn [rev]; rewrite <- app_assoc; reflexivity|].
  intros ys zs -> Hzs.
  replace (rev ys ++ a :: pre) with (rev (a :: ys) ++ pre)
    by (cbn [rev]; rewrite <- app_assoc; reflexivity).
  apply H; [reflexivity | assumption].
Qed.

Lemma sub_from_nil (r : regex) (repl : str) pre :
  match_at r pre [] = None -> sub_from r repl O pre [] = [].
Proof. intros H. cbn [sub_from]. rewrite H. reflexivity. Qed.

End Engine.

(** ** The line parser *)

Section Slices.

Implicit Types (a b c s : str).

Lemma slice_middle a b c i j :
  i = length a -> j = (length a + length b)%nat -> slice (a ++ b ++ c) i j = b.
Proof.
  intros -> ->. unfold slice.
  rewrite drop_app_length.
  replace (length a + length b - length a)%nat with (length b) by lia.
  apply take_app_length.
Qed.

Lemma slice_prefix b c j : j = length b -> slice (b ++ c) 0 j = b.
Proof. intros ->. apply (slice_middle [] b c); reflexivity. Qed.

End Slices.

(** Lengths of the consumed text, as the engine computes them. *)
Ltac lengths :=
  repeat first [progress cbn [length] | rewrite length_app | rewrite length_rev]; lia.

Section Digits.

Lemma digit_value_range (c : ascii) : isdecimal c = true -> 0 <= digit_value c <= 9.
Proof.
  unfold isdecimal, in_range, digit_value. intros H.
  apply andb_true_iff in H as [H1 H2].
  apply N.leb_le in H1, H2. lia.
Qed.

Lemma int_fold_ge (ds : str) : forall acc,
  Forall (fun c => isdecimal c = true) ds -> 0 <= acc ->
  acc <= fold_left (fun acc c => 10 * acc + digit_value c) ds acc.
Proof.
  induction ds as [|d ds IH]; intros acc Hds Hacc; cbn [fold_left]; [lia|].
  apply Forall_cons in Hds as [Hd Hds]. apply digit_value_range in Hd.
  etransitivity; [|apply IH; [assumption | lia]]. lia.
Qed.

Lemma int_nonneg (ds : str) : Forall (fun c => isdecimal c = true) ds -> 0 <= int ds.
Proof. intros H. apply (int_fold_ge ds 0 H). lia. Qed.

End Digits.

(** What a match of the quantity pattern says about the text. *)
Lemma qty_match_sound (s : str) (mo : Match) :
  re_match qty_re s = Some mo ->
  exists ds ws x ws' rest tail,
    s = ds ++ ws ++ x ++ ws' ++ rest ++ tail
    /\ ds <> [] /\ Forall (fun c => isdecimal c = true) ds
    /\ Forall (fun c => isspace c = true) ws
    /\ Forall (fun c => chr_i "x" c = true) x /\ (length x <= 1)%nat
    /\ ws' <> [] /\ Forall (fun c => isspace c = true) ws'
    /\ group mo s 1 = ds /\ group mo s 2 = rest.
Proof.
  unfold re_match, match_at.
  destruct (m qty_re accept [] s []) as [[e cs]|] eqn:Hm; [|discriminate].
  intros [= <-].
  unfold qty_re, Seq, Plus, Star, Opt in Hm. cbn [fold_right m] in Hm.
  apply rep_greedy_sound in Hm as (ds & s1 & -> & Hds & Hlo & _ & Hm).
  apply rep_greedy_sound in Hm as (ws & s2 & -> & Hws & _ & _ & Hm).
  apply rep_greedy_sound in Hm as (x & s3 & -> & Hx & _ & Hxlen & Hm).
  apply rep_greedy_sound in Hm as (ws' & s4 & -> & Hws' & Hws'lo & _ & Hm).
  apply rep_greedy_sound in Hm as (rest & tail & -> & Hrest & _ & _ & Hm).
  destruct (at_end tail); [|discriminate]. injection Hm as <- <-.
  exists ds, ws, x, ws', rest, tail.
  split; [reflexivity|]. split; [destruct ds; [cbn in Hlo; lia | discriminate]|].
  split; [assumption|]. split; [assumption|]. split; [assumption|].
  split; [exact Hxlen|]. split; [destruct ws'; [cbn in Hws'lo; lia | discriminate]|].
  split; [assumption|]. unfold group. cbn [m_groups span_of Nat.eqb]. split.
  - apply slice_prefix. lengths.
  - replace (ds ++ ws ++ x ++ ws' ++ rest ++ tail)
      with ((ds ++ ws ++ x ++ ws') ++ rest ++ tail)
      by (rewrite <- !app_assoc; reflexivity).
    apply slice_middle; lengths.
Qed.

(** C5 (as amended). When the parser returns an entry, its name is not
    empty and its quantity is a natural number: it is 1 when the cleaned
    line has no leading quantity prefix, and it is zero only when the
    run of digits that the cleaned line starts with has the value
    zero. *)
Theorem parse_quantity_and_name (line : str) (e : Entry) :
  parse_deck_line line = Some e ->
  name e <> []
  /\ 0 <= qty e
  /\ exists s,
       clean_line line = Some s
       /\ (~ has_qty_prefix s -> qty e = 1)
       /\ (qty e = 0 ->
           exists ds tl,
             s = ds ++ tl /\ ds <> [] /\ Forall (fun c => isdecimal c = true) ds
             /\ match tl with c :: _ => isdecimal c = false | [] => True end
             /\ int ds = 0).
Proof.
  unfold parse_deck_line.
  destruct (clean_line line) as [s|]; [|discriminate].
  destruct (split_qty s) as [q rest] eqn:Hq.
  destruct (split_set rest) as [sc rest_wo_set].
  destruct (split_num rest_wo_set) as [cn nm].
  destruct (re_sub slash_re (L " // ") nm) as [|c nm']; [discriminate|].
  intros [= <-]. cbn [name qty].
  split; [discriminate|].
  unfold split_qty in Hq.
  destruct (re_match qty_re s) as [mo|] eqn:Hmo.
  - apply qty_match_sound in Hmo
      as (ds & ws & x & ws' & tl & tail & Hs & Hne & Hds & Hws & Hx & Hxl & Hne' & Hws'
          & Hg1 & _).
    injection Hq as <- _. rewrite Hg1.
    split; [apply int_nonneg, Hds|].
    exists s. split; [reflexivity|]. split.
    + intros Hno. exfalso. apply Hno.
      exists ds, ws, x, ws', (tl ++ tail). repeat split; assumption.
    + intros Hz. exists ds, (ws ++ x ++ ws' ++ tl ++ tail).
      split; [exact Hs|]. split; [exact Hne|]. split; [exact Hds|].
      split; [|exact Hz].
      assert (Hnd : forall b, isspace b = true \/ chr_i "x" b = true ->
                isdecimal b = false).
      { intros b [H|H]; revert H; destruct b as [[] [] [] [] [] [] [] []];
          vm_compute; intros; first [reflexivity | discriminate]. }
      destruct ws as [|b ws]; cbn [app].
      * destruct x as [|b x]; cbn [app].
        -- destruct ws' as [|b ws']; [congruence|]. cbn [app].
           apply Forall_cons in Hws' as [Hb _]. apply Hnd. left. exact Hb.
        -- apply Forall_cons in Hx as [Hb _]. apply Hnd. right. exact Hb.
      * apply Forall_cons in Hws as [Hb _]. apply Hnd. left. exact Hb.
  - injection Hq as <- _. split; [lia|].
    exists s. split; [reflexivity|]. split; [reflexivity | discriminate].
Qed.

Lemma parse_quantity_and_name_witness :
  name {| qty := 4; name := L "Lightning Bolt"; set_code := Some (L "lea");
          collector_number := Some (L "162") |} <> []
  /\ 0 <= 4
  /\ exists s,
       clean_line (L "4 Lightning Bolt (lea) 162") = Some s
       /\ (~ has_qty_prefix s -> 4 = 1)
       /\ (4 = 0 ->
           exists ds tl,
             s = ds ++ tl /\ ds <> [] /\ Forall (fun c => isdecimal c = true) ds
             /\ match tl with c :: _ => isdecimal c = false | [] => True end
             /\ int ds = 0).
Proof.
  apply (parse_quantity_and_name (L "4 Lightning Bolt (lea) 162")
           {| qty := 4; name := L "Lightning Bolt"; set_code := Some (L "lea");
              collector_number := Some (L "162") |}).
  vm_compute. reflexivity.
Defined.

(** C5, the claim as stated fails: a leading zero is read as the
    quantity, which is then not positive. *)
Lemma parse_quantity_zero :
  parse_deck_line (L "0 Forest")
  = Some {| qty := 0; name := L "Forest"; set_code := None; collector_number := None |}
  /\ ~ 0 < qty {| qty := 0; name := L "Forest"; set_code := None;
                  collector_number := None |}.
Proof. split; [vm_compute; reflexivity | cbn; lia]. Qed.

(** *** Characters and stripping *)

Ltac by_char c :=
  destruct c as [[] [] [] [] [] [] [] []]; vm_compute; intros;
  first [reflexivity | discriminate | congruence].

Lemma decimal_not_space (c : ascii) : isdecimal c = true -> isspace c = false.
Proof. by_char c. Qed.

Lemma letter_not_space (c : ascii) : is_letter_ascii c = true -> isspace c = false.
Proof. by_char c. Qed.

Lemma letter_not_decimal (c : ascii) : is_letter_ascii c = true -> isdecimal c = false.
Proof. by_char c. Qed.

Lemma decimal_word (c : ascii) : isdecimal c = true -> is_word c = true.
Proof. by_char c. Qed.

Lemma letter_word (c : ascii) : is_letter_ascii c = true -> is_word c = true.
Proof. by_char c. Qed.

Lemma space_not_word (c : ascii) : isspace c = true -> is_word c = false.
Proof. by_char c. Qed.

Lemma newline_space (c : ascii) : Ascii.eqb c "010" = true -> isspace c = true.
Proof. by_char c. Qed.

Section Stripping.

Implicit Types (s t ws : str).

Lemma dropwhile_blank ws t :
  Forall (fun c => isspace c = true) ws -> dropwhile isspace (ws ++ t) = dropwhile isspace t.
Proof.
  induction 1 as [|c ws Hc _ IH]; [reflexivity|].
  cbn [app dropwhile]. rewrite Hc. exact IH.
Qed.

Lemma lstrip_id s : no_lead s -> lstrip s = s.
Proof.
  unfold lstrip, no_lead. destruct s as [|c s]; [reflexivity|].
  intros H. cbn [dropwhile]. rewrite H. reflexivity.
Qed.

Lemma rstrip_id s : no_trail s -> rstrip s = s.
Proof.
  unfold rstrip, no_trail. intros H.
  change (dropwhile isspace (rev s)) with (lstrip (rev s)).
  rewrite lstrip_id by assumption. apply rev_involutive.
Qed.

Lemma strip_id s : no_lead s -> no_trail s -> strip s = s.
Proof. intros H1 H2. unfold strip. rewrite lstrip_id, rstrip_id; auto. Qed.

Lemma rstrip_blank s ws :
  Forall (fun c => isspace c = true) ws -> rstrip (s ++ ws) = rstrip s.
Proof.
  intros H. unfold rstrip. rewrite rev_app_distr, dropwhile_blank; [reflexivity|].
  apply Forall_rev, H.
Qed.

Lemma strip_blank_tail s ws :
  no_lead s -> no_trail s -> Forall (fun c => isspace c = true) ws ->
  strip (s ++ ws) = s.
Proof.
  intros H1 H2 Hws. unfold strip.
  destruct s as [|c s].
  - cbn [app]. unfold lstrip. rewrite <- (app_nil_r ws), dropwhile_blank by assumption.
    reflexivity.
  - rewrite lstrip_id by exact H1. rewrite rstrip_blank by assumption.
    apply rstrip_id, H2.
Qed.

Lemma no_lead_app s t : s <> [] -> no_lead s -> no_lead (s ++ t).
Proof. destruct s; [congruence|]. intros _ H. exact H. Qed.

Lemma no_trail_app s t : t <> [] -> no_trail t -> no_trail (s ++ t).
Proof.
  unfold no_trail. intros Ht H. rewrite rev_app_distr.
  apply no_lead_app; [|exact H].
  intros E. apply Ht. rewrite <- (rev_involutive t), E. reflexivity.
Qed.

Lemma no_trail_last s c : isspace c = false -> no_trail (s ++ [c]).
Proof. intros H. unfold no_trail. rewrite rev_app_distr. exact H. Qed.

End Stripping.

(** *** Passing over positions that cannot start a match *)

Lemma search_from_pass (r : regex) (ok : ascii -> bool) :
  (forall c pre suf, ok c = true -> match_at r pre (c :: suf) = None) ->
  forall xs pre suf,
    Forall (fun c => ok c = true) xs ->
    search_from r pre (xs ++ suf) = search_from r (rev xs ++ pre) suf.
Proof.
  intros Hok xs pre suf Hxs. apply search_from_skip.
  intros ys [|c zs] -> Hzs; [congruence|].
  apply Hok. apply Forall_app in Hxs as [_ Hxs]. apply Forall_cons in Hxs as [Hc _].
  exact Hc.
Qed.

Lemma sub_from_pass (r : regex) (repl : str) (ok : ascii -> bool) :
  (forall c pre suf, ok c = true -> match_at r pre (c :: suf) = None) ->
  forall xs pre suf,
    Forall (fun c => ok c = true) xs ->
    sub_from r repl O pre (xs ++ suf) = xs ++ sub_from r repl O (rev xs ++ pre) suf.
Proof.
  intros Hok xs pre suf Hxs. apply sub_from_skip.
  intros ys [|c zs] -> Hzs; [congruence|].
  apply Hok. apply Forall_app in Hxs as [_ Hxs]. apply Forall_cons in Hxs as [Hc _].
  exact Hc.
Qed.

(** *** The foil markers *)

Lemma plain_not_star (c : ascii) : plain_char c = true -> chr_i "*" c = false.
Proof. by_char c. Qed.

Lemma plain_not_paren (c : ascii) : plain_char c = true -> chr_i "(" c = false.
Proof. by_char c. Qed.

Lemma decimal_plain (c : ascii) : isdecimal c = true -> plain_char c = true.
Proof. by_char c. Qed.

Lemma alnum_plain (c : ascii) : is_alnum_ascii c = true -> plain_char c = true.
Proof. by_char c. Qed.

Lemma letter_plain (c : ascii) : is_letter_ascii c = true -> plain_char c = true.
Proof. by_char c. Qed.

Lemma alnum_not_close (c : ascii) : is_alnum_ascii c = true -> chr_i ")" c = false.
Proof. by_char c. Qed.

Lemma foil_pass (c : ascii) (pre suf : str) :
  plain_char c = true -> match_at foil_re pre (c :: suf) = None.
Proof.
  intros H. unfold match_at, foil_re, LitsI, Seq, LitI.
  cbn [L list_ascii_of_string map fold_right m].
  fold (chr_i "*" c). fold (chr_i "(" c).
  rewrite (plain_not_star c H), (plain_not_paren c H). reflexivity.
Qed.

(** A parenthesized set code is a foil marker only when it spells
    "foil". *)
Lemma foil_not_set (tok pre tail : str) :
  is_set_token tok -> lower tok <> L "foil" ->
  match_at foil_re pre ("("%char :: tok ++ ")"%char :: tail) = None.
Proof.
  intros [[Hlo Hhi] Hal] Hfoil.
  unfold match_at, foil_re, LitsI, Seq, LitI.
  cbn [L list_ascii_of_string map fold_right m].
  destruct tok as [|a [|b [|c [|d [|e [|f tok]]]]]]; cbn [length] in Hlo, Hhi; try lia;
    cbn [app].
  - change (lower_char "(" =? lower_char "*")%char with false. cbn match.
    change (lower_char "(" =? lower_char "(")%char with true. cbn match.
    destruct (lower_char a =? lower_char "F")%char; [|reflexivity].
    destruct (lower_char b =? lower_char "o")%char; reflexivity.
  - change (lower_char "(" =? lower_char "*")%char with false. cbn match.
    change (lower_char "(" =? lower_char "(")%char with true. cbn match.
    destruct (lower_char a =? lower_char "F")%char; [|reflexivity].
    destruct (lower_char b =? lower_char "o")%char; [|reflexivity].
    destruct (lower_char c =? lower_char "i")%char; reflexivity.
  - change (lower_char "(" =? lower_char "*")%char with false. cbn match.
    change (lower_char "(" =? lower_char "(")%char with true. cbn match.
    destruct (Ascii.eqb_spec (lower_char a) (lower_char "F")) as [Ea|]; [|reflexivity].
    destruct (Ascii.eqb_spec (lower_char b) (lower_char "o")) as [Eb|]; [|reflexivity].
    destruct (Ascii.eqb_spec (lower_char c) (lower_char "i")) as [Ec|]; [|reflexivity].
    destruct (Ascii.eqb_spec (lower_char d) (lower_char "l")) as [Ed|]; [|reflexivity].
    exfalso. apply Hfoil. unfold lower. cbn [map]. rewrite Ea, Eb, Ec, Ed. reflexivity.
  - change (lower_char "(" =? lower_char "*")%char with false. cbn match.
    change (lower_char "(" =? lower_char "(")%char with true. cbn match.
    destruct (lower_char a =? lower_char "F")%char; [|reflexivity].
    destruct (lower_char b =? lower_char "o")%char; [|reflexivity].
    destruct (lower_char c =? lower_char "i")%char; [|reflexivity].
    destruct (lower_char d =? lower_char "l")%char; [|reflexivity].
    fold (chr_i ")" e). rewrite alnum_not_close; [reflexivity|].
    apply Forall_forall with (x := e) in Hal; [exact Hal|].
    repeat (apply elem_of_cons; first [left; reflexivity | right]).
Qed.

(** *** One step of a repetition *)

Lemma rep_greedy_more p lo hi k (a : ascii) (pre suf : str) :
  p a = true -> hi_open hi = true ->
  rep_greedy p lo hi k pre (a :: suf)
  = match rep_greedy p (Nat.pred lo) (Nat.pred <$> hi) k (a :: pre) suf with
    | Some r => Some r
    | None => match lo with O => k pre (a :: suf) | S _ => None end
    end.
Proof. intros Ha Hh. cbn [rep_greedy]. rewrite Ha, Hh. reflexivity. Qed.

Lemma rep_greedy_stop p lo hi k (pre suf : str) :
  match suf with a :: _ => p a = false \/ hi_open hi = false | [] => True end ->
  rep_greedy p lo hi k pre suf = match lo with O => k pre suf | S _ => None end.
Proof.
  destruct suf as [|a suf]; [reflexivity|].
  intros [H|H]; cbn [rep_greedy]; rewrite H; [|rewrite andb_false_r]; reflexivity.
Qed.

(** *** The set code *)

Lemma plain_not_open (c : ascii) : plain_char c = true -> Ascii.eqb "(" c = false.
Proof. by_char c. Qed.

Lemma set_pass (c : ascii) (pre suf : str) :
  Ascii.eqb "(" c = false -> match_at set_re pre (c :: suf) = None.
Proof.
  intros H. unfold match_at, set_re, Seq, Lit. cbn [fold_right m].
  rewrite H. reflexivity.
Qed.

Lemma set_match (tok pre tail : str) :
  is_set_token tok ->
  exists e a b,
    match_at set_re pre ("("%char :: tok ++ ")"%char :: tail)
    = Some {| m_start := length pre; m_end := e; m_groups := [(1%nat, (a, b))] |}
    /\ e = (length pre + length tok + 2)%nat
    /\ a = (length pre + 1)%nat /\ b = (length pre + 1 + length tok)%nat.
Proof.
  intros [[Hlo Hhi] Hal]. unfold match_at, set_re, Seq, Lit. cbn [fold_right m].
  change ("(" =? "(")%char with true. cbn match.
  erewrite rep_greedy_max; [| exact Hal | exact Hlo | exact Hhi | | left; reflexivity].
  2:{ cbn beta. change (")" =? ")")%char with true. cbn match. unfold accept. reflexivity. }
  do 3 eexists. split; [reflexivity|]. repeat split; lengths.
Qed.

Lemma split_set_found (nm tok tail : str) :
  Forall (fun c => plain_char c = true) nm -> is_set_token tok ->
  split_set (nm ++ " "%char :: "("%char :: tok ++ ")"%char :: tail)
  = (Some (lower tok), strip (nm ++ " "%char :: tail)).
Proof.
  intros Hnm Htok. unfold split_set, re_search.
  replace (nm ++ " "%char :: "("%char :: tok ++ ")"%char :: tail)
    with ((nm ++ [" "%char]) ++ "("%char :: tok ++ ")"%char :: tail)
    by (rewrite <- app_assoc; reflexivity).
  rewrite (search_from_pass set_re (fun c => negb (Ascii.eqb "(" c)));
    [| intros c pre suf Hc; apply set_pass; destruct (Ascii.eqb "(" c); [discriminate | reflexivity]
     | apply Forall_app; split;
       [ eapply Forall_impl; [exact Hnm|]; intros c Hc; cbn beta;
         rewrite plain_not_open by exact Hc; reflexivity
       | repeat constructor ] ].
  destruct (set_match tok (rev (nm ++ [" "%char]) ++ []) tail Htok)
    as (e & a & b & Hm & -> & -> & ->).
  cbn [search_from]. rewrite Hm. unfold group. cbn [m_groups m_start m_end span_of Nat.eqb].
  f_equal.
  - f_equal. f_equal.
    replace ((nm ++ [" "%char]) ++ "("%char :: tok ++ ")"%char :: tail)
      with ((nm ++ [" "%char; "("%char]) ++ tok ++ ")"%char :: tail)
      by (rewrite <- !app_assoc; reflexivity).
    apply slice_middle; lengths.
  - f_equal.
    rewrite take_app_length' by lengths.
    replace ((nm ++ [" "%char]) ++ "("%char :: tok ++ ")"%char :: tail)
      with ((nm ++ " "%char :: "("%char :: tok ++ [")"%char]) ++ tail)
      by (rewrite <- !app_assoc; cbn [app]; rewrite <- !app_assoc; reflexivity).
    rewrite drop_app_length' by lengths.
    rewrite <- app_assoc. reflexivity.
Qed.

Lemma split_set_none (s : str) :
  Forall (fun c => plain_char c = true) s -> split_set s = (None, s).
Proof.
  intros Hs. unfold split_set, re_search.
  rewrite <- (app_nil_r s).
  rewrite (search_from_pass set_re (fun c => negb (Ascii.eqb "(" c)));
    [ reflexivity
    | intros c pre suf Hc; apply set_pass; destruct (Ascii.eqb "(" c); [discriminate | reflexivity]
    | eapply Forall_impl; [exact Hs|]; intros c Hc; cbn beta;
      rewrite plain_not_open by exact Hc; reflexivity ].
Qed.

Lemma search_from_here (r : regex) (pre suf : str) (mo : Match) :
  match_at r pre suf = Some mo -> search_from r pre suf = Some mo.
Proof. intros H. destruct suf; cbn [search_from]; rewrite H; reflexivity. Qed.

Lemma rep_greedy_all p k (xs : str) lo hi (pre : str) r :
  Forall (fun c => p c = true) xs ->
  (lo <= length xs)%nat -> within hi (length xs) ->
  k (rev xs ++ pre) [] = Some r ->
  rep_greedy p lo hi k pre xs = Some r.
Proof.
  intros H1 H2 H3 H4.
  pose proof (rep_greedy_max p k xs lo hi pre [] r H1 H2 H3 H4 I) as H.
  rewrite app_nil_r in H. exact H.
Qed.

(** *** The collector number *)

Lemma blocked_step (p : ascii -> bool) (a : ascii) (suf : str) :
  (forall c, p c = true -> isspace c = false) ->
  blocked (a :: suf) -> p a = true -> blocked suf.
Proof.
  intros Hp (u & c & v & E & Hc & Hv) Ha.
  destruct u as [|a' u]; cbn [app] in E; injection E as -> ->.
  - apply Hp in Ha. congruence.
  - exists u, c, v. repeat split; assumption.
Qed.

Lemma blocked_not_blank (suf : str) :
  blocked suf -> Exists (fun d => isspace d = false) suf.
Proof.
  intros (u & c & v & -> & _ & Hv).
  apply Exists_app. right. apply Exists_cons. right. exact Hv.
Qed.

Lemma blank_run_not_end (k : str -> str -> option answer) : forall suf pre,
  Exists (fun d => isspace d = false) suf ->
  rep_greedy isspace 0 None (fun pre' suf' => if at_end suf' then k pre' suf' else None)
    pre suf = None.
Proof.
  intros suf0 pre0 H0.
  apply (rep_greedy_none isspace _ (fun suf => Exists (fun d => isspace d = false) suf));
    [ | | exact H0].
  - intros a suf H Ha. apply Exists_cons in H as [H|H]; [congruence | exact H].
  - intros pre suf H. destruct suf as [|c [|d suf]]; cbn [at_end].
    + inversion H.
    + apply Exists_cons in H as [H|H]; [|inversion H].
      destruct (Ascii.eqb c "010") eqn:E; [|reflexivity].
      apply newline_space in E. congruence.
    + reflexivity.
Qed.

Lemma num_blocked (pre suf : str) : blocked suf -> match_at num_re pre suf = None.
Proof.
  intros Hb. unfold match_at, num_re, Seq, Plus, Star, Opt. cbn [fold_right m].
  destruct (at_boundary pre suf); [|reflexivity].
  rewrite (rep_greedy_none isdecimal _ blocked); [reflexivity | | | exact Hb].
  - intros a s H Ha. eapply blocked_step; [apply decimal_not_space | exact H | exact Ha].
  - intros pre1 suf1 Hb1.
    apply (rep_greedy_none is_letter_ascii _ blocked); [ | | exact Hb1].
    + intros a s H Ha. eapply blocked_step; [apply letter_not_space | exact H | exact Ha].
    + intros pre2 suf2 Hb2. destruct (at_boundary pre2 suf2); [|reflexivity].
      apply (blank_run_not_end
               (fun pre' suf' => accept pre' suf' [(1%nat, (length pre, length pre2))])).
      apply blocked_not_blank, Hb2.
Qed.

Lemma num_pass (xs : str) (c : ascii) (num pre : str) :
  isspace c = true -> Exists (fun d => isspace d = false) num ->
  search_from num_re pre (xs ++ c :: num) = search_from num_re (c :: rev xs ++ pre) num.
Proof.
  intros Hc Hnum.
  replace (xs ++ c :: num) with ((xs ++ [c]) ++ num) by (rewrite <- app_assoc; reflexivity).
  rewrite search_from_skip.
  - rewrite rev_app_distr. reflexivity.
  - intros ys zs E Hzs. apply num_blocked.
    destruct (exists_last Hzs) as (zs' & z & ->).
    rewrite app_assoc in E. apply app_inj_tail in E as [_ <-].
    exists zs', c, num. rewrite <- app_assoc. repeat split; assumption.
Qed.

Lemma collector_number_not_blank (num : str) :
  is_collector_number num -> Exists (fun d => isspace d = false) num.
Proof.
  intros (ds & l & -> & Hne & Hds & _). destruct ds as [|d ds]; [congruence|].
  apply Exists_cons. left. apply decimal_not_space. apply Forall_cons in Hds as [Hd _].
  exact Hd.
Qed.

Lemma num_match (num pre : str) :
  is_collector_number num -> word_before pre = false ->
  exists e a b,
    match_at num_re pre num
    = Some {| m_start := length pre; m_end := e; m_groups := [(1%nat, (a, b))] |}
    /\ a = length pre /\ b = (length pre + length num)%nat.
Proof.
  intros (ds & l & -> & Hne & Hds & Hl) Hpre.
  unfold match_at, num_re, Seq, Plus, Star, Opt. cbn [fold_right m].
  assert (Hb : at_boundary pre (ds ++ l) = true).
  { unfold at_boundary. rewrite Hpre. destruct ds as [|d ds]; [congruence|].
    cbn [app word_before]. apply Forall_cons in Hds as [Hd _].
    rewrite decimal_word by exact Hd. reflexivity. }
  rewrite Hb.
  assert (Hlast : forall x, word_before (rev l ++ rev ds ++ x) = true).
  { intros x. destruct Hl as [-> | (c & -> & Hc)].
    - cbn [rev app]. destruct (exists_last Hne) as (ds' & d & ->).
      rewrite rev_app_distr. cbn [rev app word_before].
      apply decimal_word. apply Forall_app in Hds as [_ Hd].
      apply Forall_cons in Hd as [Hd _]. exact Hd.
    - cbn [rev app word_before]. apply letter_word, Hc. }
  erewrite rep_greedy_max; [ | exact Hds | destruct ds; [congruence | cbn; lia] | exact I | | ].
  3:{ destruct Hl as [-> | (c & -> & Hc)]; [exact I|]. left. apply letter_not_decimal, Hc. }
  2:{ cbn beta.
      erewrite rep_greedy_all; [ reflexivity | | lia | | ].
      - destruct Hl as [-> | (c & -> & Hc)]; repeat constructor. exact Hc.
      - destruct Hl as [-> | (c & -> & Hc)]; cbn; lia.
      - cbn beta. unfold at_boundary. rewrite Hlast. cbn [word_before xorb].
        cbn [rep_greedy at_end]. unfold accept. reflexivity. }
  do 3 eexists. split; [reflexivity|]. split; lengths.
Qed.

Lemma split_num_found (nm ws num : str) :
  no_lead nm -> no_trail nm -> ws <> [] -> Forall (fun c => isspace c = true) ws ->
  is_collector_number num ->
  split_num (nm ++ ws ++ num) = (Some num, nm).
Proof.
  intros Hl Ht Hne Hws Hnum. unfold split_num, re_search.
  destruct (exists_last Hne) as (ws' & c & ->).
  apply Forall_app in Hws as [Hws' Hc]. apply Forall_cons in Hc as [Hc _].
  replace (nm ++ (ws' ++ [c]) ++ num) with ((nm ++ ws') ++ c :: num)
    by (rewrite <- !app_assoc; reflexivity).
  rewrite num_pass; [| exact Hc | apply collector_number_not_blank, Hnum].
  destruct (num_match num (c :: rev (nm ++ ws') ++ []) Hnum) as (e & a & b & Hm & -> & ->).
  { cbn [word_before]. apply space_not_word, Hc. }
  rewrite (search_from_here _ _ _ _ Hm).
  unfold group. cbn [m_groups m_start span_of Nat.eqb]. f_equal.
  - f_equal.
    replace ((nm ++ ws') ++ c :: num) with ((nm ++ ws' ++ [c]) ++ num ++ [])
      by (rewrite app_nil_r, <- !app_assoc; reflexivity).
    apply slice_middle; lengths.
  - replace ((nm ++ ws') ++ c :: num) with ((nm ++ ws' ++ [c]) ++ num)
      by (rewrite <- !app_assoc; reflexivity).
    rewrite take_app_length' by lengths.
    apply strip_blank_tail; [assumption | assumption |].
    apply Forall_app. split; [assumption | repeat constructor; assumption].
Qed.

(** *** The quantity prefix *)

(** The match of the quantity pattern on digits, an x, one blank and the
    rest of the line. *)
Lemma qty_match_x (ds rest : str) :
  ds <> [] -> Forall (fun c => isdecimal c = true) ds ->
  no_lead rest -> Forall (fun c => dot c = true) rest ->
  exists e n a b,
    m qty_re accept [] (ds ++ "x"%char :: " "%char :: rest) []
    = Some (e, [(2%nat, (a, b)); (1%nat, (O, n))])
    /\ n = length ds /\ a = (length ds + 2)%nat
    /\ b = (length ds + 2 + length rest)%nat.
Proof.
  intros Hne Hds Hlead Hdot.
  unfold qty_re, Seq, Plus, Star, Opt. cbn [fold_right m].
  erewrite rep_greedy_max;
    [ | exact Hds | destruct ds; [congruence | cbn; lia] | exact I | | left; reflexivity ].
  2:{ cbn beta.
      rewrite rep_greedy_stop by (left; reflexivity).
      rewrite rep_greedy_more by reflexivity.
      rewrite rep_greedy_stop by (right; reflexivity).
      rewrite rep_greedy_more by reflexivity.
      rewrite rep_greedy_stop by (destruct rest; [exact I | left; exact Hlead]).
      cbn [Nat.pred].
      erewrite rep_greedy_all; [reflexivity | exact Hdot | lia | exact I | ].
      cbn [at_end]. unfold accept. reflexivity. }
  do 4 eexists. split; [reflexivity|]. repeat split; lengths.
Qed.

Lemma split_qty_x (ds rest : str) :
  ds <> [] -> Forall (fun c => isdecimal c = true) ds ->
  no_lead rest -> Forall (fun c => dot c = true) rest ->
  split_qty (ds ++ "x"%char :: " "%char :: rest) = (int ds, strip rest).
Proof.
  intros Hne Hds Hlead Hdot. unfold split_qty, re_match, match_at.
  destruct (qty_match_x ds rest Hne Hds Hlead Hdot) as (e & n & a & b & Hm & -> & -> & ->).
  rewrite Hm. unfold group. cbn [m_groups span_of Nat.eqb]. f_equal.
  - f_equal. apply slice_prefix. reflexivity.
  - f_equal.
    replace (ds ++ "x"%char :: " "%char :: rest)
      with ((ds ++ ["x"%char; " "%char]) ++ rest ++ [])
      by (rewrite app_nil_r, <- app_assoc; reflexivity).
    apply slice_middle; lengths.
Qed.

(** *** Lines that the cleaning step leaves as they are *)

Lemma decimal_not_marker (d : ascii) (rest : str) :
  isdecimal d = true -> startswith_any (d :: rest) section_markers = false.
Proof. by_char d. Qed.

Lemma plain_dot (c : ascii) : plain_char c = true -> dot c = true.
Proof. by_char c. Qed.

Lemma Forall_plain_dot (s : str) :
  Forall (fun c => plain_char c = true) s -> Forall (fun c => dot c = true) s.
Proof. intros H. eapply Forall_impl; [exact H | exact plain_dot]. Qed.

Lemma set_token_plain (tok : str) :
  is_set_token tok -> Forall (fun c => plain_char c = true) tok.
Proof. intros [_ H]. eapply Forall_impl; [exact H | exact alnum_plain]. Qed.

Lemma collector_number_plain (num : str) :
  is_collector_number num -> Forall (fun c => plain_char c = true) num.
Proof.
  intros (ds & l & -> & _ & Hds & Hl). apply Forall_app. split.
  - eapply Forall_impl; [exact Hds | exact decimal_plain].
  - destruct Hl as [-> | (c & -> & Hc)]; repeat constructor. apply letter_plain, Hc.
Qed.

Lemma collector_number_no_trail (num : str) (s : str) :
  is_collector_number num -> no_trail (s ++ num).
Proof.
  intros (ds & l & -> & Hne & Hds & Hl).
  destruct Hl as [-> | (c & -> & Hc)].
  - rewrite app_nil_r. destruct (exists_last Hne) as (ds' & d & ->).
    rewrite app_assoc. apply no_trail_last, decimal_not_space.
    apply Forall_app in Hds as [_ Hd]. apply Forall_cons in Hd as [Hd _]. exact Hd.
  - rewrite !app_assoc. apply no_trail_last, letter_not_space, Hc.
Qed.

Lemma foil_sub_plain (s pre : str) :
  Forall (fun c => plain_char c = true) s -> sub_from foil_re [] O pre s = s.
Proof.
  intros Hs. rewrite <- (app_nil_r s) at 1.
  rewrite (sub_from_pass foil_re [] plain_char); [ | exact foil_pass | exact Hs].
  rewrite sub_from_nil by reflexivity. apply app_nil_r.
Qed.

Lemma foil_sub_set (a tok b : str) :
  Forall (fun c => plain_char c = true) a ->
  is_set_token tok -> lower tok <> L "foil" ->
  Forall (fun c => plain_char c = true) b ->
  re_sub foil_re [] (a ++ "("%char :: tok ++ ")"%char :: b)
  = a ++ "("%char :: tok ++ ")"%char :: b.
Proof.
  intros Ha Htok Hfoil Hb. unfold re_sub.
  rewrite (sub_from_pass foil_re [] plain_char); [ | exact foil_pass | exact Ha].
  f_equal. cbn [sub_from]. rewrite foil_not_set by assumption.
  f_equal. apply foil_sub_plain.
  apply Forall_app. split; [apply set_token_plain, Htok|].
  constructor; [reflexivity | exact Hb].
Qed.

Lemma clean_line_id (d : ascii) (s : str) :
  isdecimal d = true -> no_trail (d :: s) ->
  re_sub foil_re [] (d :: s) = d :: s ->
  clean_line (d :: s) = Some (d :: s).
Proof.
  intros Hd Ht Hfoil. unfold clean_line.
  assert (Hstrip : strip (d :: s) = d :: s)
    by (apply strip_id; [apply decimal_not_space, Hd | exact Ht]).
  rewrite Hstrip, decimal_not_marker by exact Hd.
  rewrite Hfoil, Hstrip. reflexivity.
Qed.

(** *** Putting the steps together *)

Lemma app_nonnil_r (s t : str) : t <> [] -> s ++ t <> [].
Proof. destruct s; [auto | discriminate]. Qed.

Lemma no_trail_cons (c : ascii) (t : str) : t <> [] -> no_trail t -> no_trail (c :: t).
Proof. intros H1 H2. apply (no_trail_app [c] t H1 H2). Qed.

Lemma collector_number_nonnil (num : str) : is_collector_number num -> num <> [].
Proof. intros (ds & l & -> & Hne & _). destruct ds; [congruence | discriminate]. Qed.

Lemma collector_number_trail (num : str) : is_collector_number num -> no_trail num.
Proof. intros H. apply (collector_number_no_trail num [] H). Qed.

(** Equal lists up to the nesting of appends. *)
Ltac list_eq := repeat first [rewrite <- app_assoc | progress cbn [app]]; reflexivity.

Ltac nonnil :=
  first [ discriminate | assumption | apply app_nonnil_r; nonnil ].

Ltac trail :=
  repeat first [ assumption
               | apply no_trail_cons; [nonnil|]
               | apply no_trail_app; [nonnil|] ].

Ltac plain :=
  repeat first [ assumption | apply Forall_nil_2 | reflexivity
               | apply Forall_app_2 | apply Forall_cons_2 ].

(** C2 (as amended). A line made of a run of digits, the letter x, a
    blank, a plain name, a blank, a parenthesized set code of 2 to 5
    alphanumerics that does not spell "foil", a blank and a collector
    number parses to exactly the value of the digits, the name, the set
    code in lower case and the collector number.  The set code is taken
    out before the collector number is looked for: "Name (SET) 123" gives
    the name "Name", the set "set" and the number "123". *)
Theorem parse_qty_name_set_num (ds nm tok num : str) :
  ds <> [] -> Forall (fun c => isdecimal c = true) ds ->
  plain_name nm ->
  is_set_token tok -> lower tok <> L "foil" ->
  is_collector_number num ->
  parse_deck_line (ds ++ L "x " ++ nm ++ L " (" ++ tok ++ L ") " ++ num)
  = Some {| qty := int ds; name := nm; set_code := Some (lower tok);
            collector_number := Some num |}
  /\ parse_deck_line (L "Name (SET) 123")
     = Some {| qty := 1; name := L "Name"; set_code := Some (L "set");
               collector_number := Some (L "123") |}.
Proof.
  intros Hne Hds (Hnm & Hlead & Htrail & Hplain & Hslash) Htok Hfoil Hnum.
  split; [|vm_compute; reflexivity].
  change (L "x ") with ["x"%char; " "%char].
  change (L " (") with [" "%char; "("%char].
  change (L ") ") with [")"%char; " "%char].
  cbn [app].
  pose proof (collector_number_plain num Hnum) as Hnump.
  pose proof (set_token_plain tok Htok) as Htokp.
  pose proof (collector_number_nonnil num Hnum) as Hnumne.
  pose proof (collector_number_trail num Hnum) as Hnumt.
  assert (Hdsp : Forall (fun c => plain_char c = true) ds)
    by (eapply Forall_impl; [exact Hds | exact decimal_plain]).
  set (rest := nm ++ " "%char :: "("%char :: tok ++ ")"%char :: " "%char :: num).
  assert (Hrest_lead : no_lead rest) by (apply no_lead_app; assumption).
  assert (Hrest_trail : no_trail rest) by (unfold rest; trail).
  assert (Hrest_plain : Forall (fun c => plain_char c = true)
                          (nm ++ [" "%char])) by plain.
  unfold parse_deck_line.
  assert (Hclean : clean_line (ds ++ "x"%char :: " "%char :: rest)
                   = Some (ds ++ "x"%char :: " "%char :: rest)).
  { destruct ds as [|d ds']; [congruence|]. cbn [app].
    apply clean_line_id.
    - apply Forall_cons in Hds as [Hd _]. exact Hd.
    - trail.
    - replace (d :: ds' ++ "x"%char :: " "%char :: rest)
        with (((d :: ds') ++ "x"%char :: " "%char :: nm ++ [" "%char])
              ++ "("%char :: tok ++ ")"%char :: " "%char :: num)
        by (unfold rest; list_eq).
      apply foil_sub_set; [plain | assumption | assumption | plain]. }
  rewrite Hclean.
  rewrite split_qty_x; [ | assumption | assumption | assumption | ].
  2:{ pose proof (Forall_plain_dot nm Hplain).
      pose proof (Forall_plain_dot tok Htokp).
      pose proof (Forall_plain_dot num Hnump).
      unfold rest. plain. }
  rewrite strip_id by assumption.
  unfold rest. rewrite split_set_found by assumption.
  rewrite strip_id; [ | apply no_lead_app; assumption | trail ].
  change (nm ++ " "%char :: " "%char :: num)
    with (nm ++ [" "%char; " "%char] ++ num).
  rewrite (split_num_found nm [" "%char; " "%char] num);
    [ | assumption | assumption | discriminate | repeat constructor | assumption ].
  rewrite Hslash. destruct nm; [congruence | reflexivity].
Qed.

Lemma parse_qty_name_set_num_witness :
  parse_deck_line (L "4" ++ L "x " ++ L "Lightning Bolt" ++ L " (" ++ L "LEA" ++ L ") "
                     ++ L "162")
  = Some {| qty := int (L "4"); name := L "Lightning Bolt";
            set_code := Some (lower (L "LEA")); collector_number := Some (L "162") |}
  /\ parse_deck_line (L "Name (SET) 123")
     = Some {| qty := 1; name := L "Name"; set_code := Some (L "set");
               collector_number := Some (L "123") |}.
Proof.
  apply parse_qty_name_set_num.
  - discriminate.
  - repeat constructor.
  - repeat split; try reflexivity; [discriminate | repeat constructor].
  - split; [cbn; lia | repeat constructor].
  - vm_compute. discriminate.
  - exists (L "162"), []. repeat split; [discriminate | repeat constructor | left; reflexivity].
Defined.

(** C2, the claim as stated fails: the set code "Foil" is removed as a
    foil marker before the set code is looked for. *)
Lemma parse_set_code_foil :
  is_set_token (L "Foil")
  /\ parse_deck_line (L "4x Name (Foil) 123")
     = Some {| qty := 4; name := L "Name"; set_code := None;
               collector_number := Some (L "123") |}
  /\ parse_deck_line (L "4x Name (Foil) 123")
     <> Some {| qty := 4; name := L "Name"; set_code := Some (lower (L "Foil"));
                collector_number := Some (L "123") |}.
Proof.
  split; [split; [cbn; lia | repeat constructor]|].
  split; [vm_compute; reflexivity | vm_compute; discriminate].
Qed.

(** *** The quantity prefix without an x *)

(** The first attempt of the engine has failed: go on with the next. *)
Ltac first_attempt_fails :=
  match goal with
  | |- match ?X with Some _ => _ | None => _ end = _ =>
      let H := fresh "Hfail" in
      assert (H : X = None); [ | rewrite H; clear H ]
  end.

(** The match of the quantity pattern on digits, one blank and a rest
    that does not start with a separate x: the engine first lets the
    optional blank run take the blank, fails, and comes back to give the
    blank to the mandatory blank run. *)
Lemma qty_match_blank (ds rest : str) :
  ds <> [] -> Forall (fun c => isdecimal c = true) ds ->
  rest <> [] -> no_lead rest -> x_led rest = false ->
  Forall (fun c => dot c = true) rest ->
  exists e n a b,
    m qty_re accept [] (ds ++ " "%char :: rest) []
    = Some (e, [(2%nat, (a, b)); (1%nat, (O, n))])
    /\ n = length ds /\ a = (length ds + 1)%nat
    /\ b = (length ds + 1 + length rest)%nat.
Proof.
  intros Hne Hds Hrne Hlead Hx Hdot.
  unfold qty_re, Seq, Plus, Star, Opt. cbn [fold_right m].
  erewrite rep_greedy_max;
    [ | exact Hds | destruct ds; [congruence | cbn; lia] | exact I | | left; reflexivity ].
  2:{ cbn beta.
      destruct rest as [|c t]; [congruence|]. cbn [no_lead] in Hlead.
      rewrite rep_greedy_more by reflexivity.
      rewrite rep_greedy_stop by (left; exact Hlead).
      cbn [Nat.pred].
      first_attempt_fails.
      { destruct (chr_i "x" c) eqn:Hxc.
        - cbn [x_led] in Hx. rewrite Hxc in Hx. cbn [andb] in Hx.
          destruct t as [|c2 t']; [discriminate|].
          rewrite rep_greedy_more by (exact Hxc || reflexivity).
          rewrite rep_greedy_stop by (right; reflexivity).
          rewrite rep_greedy_stop by (left; exact Hx).
          rewrite rep_greedy_stop by (left; exact Hlead).
          reflexivity.
        - rewrite rep_greedy_stop by (left; exact Hxc).
          rewrite rep_greedy_stop by (left; exact Hlead).
          reflexivity. }
      rewrite rep_greedy_stop by (left; reflexivity).
      rewrite rep_greedy_more by reflexivity.
      rewrite rep_greedy_stop by (left; exact Hlead).
      cbn [Nat.pred].
      erewrite rep_greedy_all; [reflexivity | exact Hdot | lia | exact I | ].
      cbn [at_end]. unfold accept. reflexivity. }
  do 4 eexists. split; [reflexivity|]. repeat split; lengths.
Qed.

Lemma split_qty_blank (ds rest : str) :
  ds <> [] -> Forall (fun c => isdecimal c = true) ds ->
  rest <> [] -> no_lead rest -> x_led rest = false ->
  Forall (fun c => dot c = true) rest ->
  split_qty (ds ++ " "%char :: rest) = (int ds, strip rest).
Proof.
  intros Hne Hds Hrne Hlead Hx Hdot. unfold split_qty, re_match, match_at.
  destruct (qty_match_blank ds rest Hne Hds Hrne Hlead Hx Hdot)
    as (e & n & a & b & Hm & -> & -> & ->).
  rewrite Hm. unfold group. cbn [m_groups span_of Nat.eqb]. f_equal.
  - f_equal. apply slice_prefix. reflexivity.
  - f_equal.
    replace (ds ++ " "%char :: rest) with ((ds ++ [" "%char]) ++ rest ++ [])
      by (rewrite app_nil_r, <- app_assoc; reflexivity).
    apply slice_middle; lengths.
Qed.

Lemma x_led_app (nm t : str) : x_led nm = false -> x_led (nm ++ " "%char :: t) = false.
Proof.
  destruct nm as [|c [|c2 nm]]; cbn [x_led app]; [reflexivity | | auto].
  rewrite andb_true_r. intros ->. reflexivity.
Qed.

(** *** Reading back the canonical text *)

(** The parser on a quantity, a blank and a rest, given what each later
    step makes of the rest. *)
Lemma parse_after_quantity (ds rest rest_wo_set nm : str) (sc cn : option str) :
  ds <> [] -> Forall (fun c => isdecimal c = true) ds ->
  rest <> [] -> no_lead rest -> no_trail rest -> x_led rest = false ->
  Forall (fun c => dot c = true) rest ->
  re_sub foil_re [] (ds ++ " "%char :: rest) = ds ++ " "%char :: rest ->
  split_set rest = (sc, rest_wo_set) ->
  split_num rest_wo_set = (cn, nm) ->
  re_sub slash_re (L " // ") nm = nm -> nm <> [] ->
  parse_deck_line (ds ++ " "%char :: rest)
  = Some {| qty := int ds; name := nm; set_code := sc; collector_number := cn |}.
Proof.
  intros Hne Hds Hrne Hlead Htrail Hx Hdot Hfoil Hset Hnum Hslash Hnm.
  unfold parse_deck_line.
  assert (Hclean : clean_line (ds ++ " "%char :: rest) = Some (ds ++ " "%char :: rest)).
  { destruct ds as [|d ds']; [congruence|]. cbn [app] in *.
    apply clean_line_id; [ | | exact Hfoil].
    - apply Forall_cons in Hds as [Hd _]. exact Hd.
    - trail. }
  rewrite Hclean, split_qty_blank by assumption.
  rewrite strip_id by assumption.
  rewrite Hset, Hnum, Hslash. destruct nm; [congruence | reflexivity].
Qed.

(** C4 (as amended). Writing an entry in normal form as its canonical
    text, the quantity, the name, then the set code in parentheses and
    the collector number when present, and parsing that text gives the
    entry back. *)
Theorem serialize_parse_round_trip (e : Entry) :
  normal_entry e -> parse_deck_line (serialize e) = Some e.
Proof.
  destruct e as [q nm sc cn]. unfold normal_entry, serialize. cbn [qty name set_code collector_number].
  intros (Hq & (Hnm & Hlead & Htrail & Hplain & Hslash) & Hx & Hsc & Hcn & Hnonum).
  pose proof (str_of_int_nonempty q) as Hds_ne.
  pose proof (str_of_int_digits q Hq) as Hds.
  pose proof (int_str_of_int q Hq) as Hint.
  set (ds := str_of_int q) in *.
  assert (Hdsp : Forall (fun c => plain_char c = true) ds)
    by (eapply Forall_impl; [exact Hds | exact decimal_plain]).
  pose proof (Forall_plain_dot nm Hplain) as Hnmdot.
  change (L " ") with [" "%char]. change (L " (") with [" "%char; "("%char].
  change (L ")") with [")"%char].
  destruct sc as [s|], cn as [num|]; cbn [app]; rewrite ?app_nil_r;
    repeat first [rewrite <- app_assoc | progress cbn [app]].
  - destruct (Hsc s eq_refl) as (Htok & Hlow & Hfoil).
    pose proof (Hcn num eq_refl) as Hnum.
    pose proof (collector_number_plain num Hnum) as Hnump.
    pose proof (set_token_plain s Htok) as Htokp.
    pose proof (collector_number_nonnil num Hnum) as Hnumne.
    pose proof (collector_number_trail num Hnum) as Hnumt.
    pose proof (Forall_plain_dot s Htokp). pose proof (Forall_plain_dot num Hnump).
    etransitivity; [|rewrite <- Hint, <- Hlow at 1; reflexivity].
    apply (parse_after_quantity ds _ (nm ++ [" "%char; " "%char] ++ num));
      try assumption.
    + nonnil.
    + apply no_lead_app; assumption.
    + trail.
    + apply x_led_app, Hx.
    + plain.
    + replace (ds ++ " "%char :: nm ++ " "%char :: "("%char :: s ++ ")"%char :: " "%char :: num)
        with ((ds ++ " "%char :: nm ++ [" "%char])
              ++ "("%char :: s ++ ")"%char :: " "%char :: num) by list_eq.
      apply foil_sub_set; [plain | assumption | | plain].
      rewrite Hlow. exact Hfoil.
    + rewrite split_set_found by assumption.
      rewrite strip_id; [reflexivity | apply no_lead_app; assumption | trail].
    + apply split_num_found; [assumption | assumption | discriminate
                             | repeat constructor | assumption].
  - destruct (Hsc s eq_refl) as (Htok & Hlow & Hfoil).
    pose proof (set_token_plain s Htok) as Htokp.
    pose proof (Forall_plain_dot s Htokp).
    etransitivity; [|rewrite <- Hint, <- Hlow at 1; reflexivity].
    apply (parse_after_quantity ds _ nm); try assumption.
    + nonnil.
    + apply no_lead_app; assumption.
    + replace (nm ++ " "%char :: "("%char :: s ++ [")"%char])
        with ((nm ++ " "%char :: "("%char :: s) ++ [")"%char]) by list_eq.
      apply no_trail_last. reflexivity.
    + apply x_led_app, Hx.
    + plain.
    + replace (ds ++ " "%char :: nm ++ " "%char :: "("%char :: s ++ [")"%char])
        with ((ds ++ " "%char :: nm ++ [" "%char]) ++ "("%char :: s ++ ")"%char :: [])
        by list_eq.
      apply foil_sub_set; [plain | assumption | | plain].
      rewrite Hlow. exact Hfoil.
    + rewrite split_set_found by assumption.
      rewrite (strip_blank_tail nm [" "%char]);
        [reflexivity | assumption | assumption | repeat constructor].
    + unfold split_num. rewrite (Hnonum eq_refl), strip_id by assumption. reflexivity.
  - pose proof (Hcn num eq_refl) as Hnum.
    pose proof (collector_number_plain num Hnum) as Hnump.
    pose proof (collector_number_nonnil num Hnum) as Hnumne.
    pose proof (collector_number_trail num Hnum) as Hnumt.
    pose proof (Forall_plain_dot num Hnump).
    etransitivity; [|rewrite <- Hint at 1; reflexivity].
    apply (parse_after_quantity ds _ (nm ++ " "%char :: num)); try assumption.
    + nonnil.
    + apply no_lead_app; assumption.
    + trail.
    + apply x_led_app, Hx.
    + plain.
    + unfold re_sub. apply foil_sub_plain. plain.
    + apply split_set_none. plain.
    + apply (split_num_found nm [" "%char] num);
        [assumption | assumption | discriminate | repeat constructor | assumption].
  - etransitivity; [|rewrite <- Hint at 1; reflexivity].
    apply (parse_after_quantity ds _ nm); try assumption.
    + unfold re_sub. apply foil_sub_plain. plain.
    + apply split_set_none. assumption.
    + unfold split_num. rewrite (Hnonum eq_refl), strip_id by assumption. reflexivity.
Qed.

Lemma serialize_parse_round_trip_witness :
  parse_deck_line
    (serialize {| qty := 4; name := L "Fire // Ice"; set_code := Some (L "apc");
                  collector_number := Some (L "128") |})
  = Some {| qty := 4; name := L "Fire // Ice"; set_code := Some (L "apc");
            collector_number := Some (L "128") |}.
Proof.
  apply serialize_parse_round_trip.
  split; [cbn; lia|]. split.
  { repeat split; try reflexivity; [discriminate | repeat constructor]. }
  split; [reflexivity|]. split.
  { intros s [= <-]. split; [split; [cbn; lia | repeat constructor]|].
    split; [reflexivity | vm_compute; discriminate]. }
  split; [|discriminate].
  intros num [= <-]. exists (L "128"), [].
  repeat split; [discriminate | repeat constructor | left; reflexivity].
Defined.

(** C4, the claim as stated fails: the parser returns an entry whose
    name starts with a separate X, and in the canonical text of that
    entry the X reads as the x of the quantity prefix. *)
Lemma round_trip_loses_leading_x :
  parse_deck_line (L "X marks the spot")
  = Some {| qty := 1; name := L "X marks the spot"; set_code := None;
            collector_number := None |}
  /\ serialize {| qty := 1; name := L "X marks the spot"; set_code := None;
                  collector_number := None |}
     = L "1 X marks the spot"
  /\ parse_deck_line (L "1 X marks the spot")
     = Some {| qty := 1; name := L "marks the spot"; set_code := None;
               collector_number := None |}
  /\ parse_deck_line
       (serialize {| qty := 1; name := L "X marks the spot"; set_code := None;
                     collector_number := None |})
     <> Some {| qty := 1; name := L "X marks the spot"; set_code := None;
                collector_number := None |}.
Proof.
  split; [vm_compute; reflexivity|]. split; [vm_compute; reflexivity|].
  split; [vm_compute; reflexivity | vm_compute; discriminate].
Qed.

(** *** The fields of a parsed entry *)

Lemma search_from_sound (r : regex) : forall suf pre mo,
  search_from r pre suf = Some mo ->
  exists ys zs, suf = ys ++ zs /\ match_at r (rev ys ++ pre) zs = Some mo.
Proof.
  induction suf as [|a suf IH]; intros pre mo; cbn [search_from].
  - destruct (match_at r pre []) eqn:E; [|discriminate].
    intros [= <-]. exists [], []. split; [reflexivity | exact E].
  - destruct (match_at r pre (a :: suf)) eqn:E.
    + intros [= <-]. exists [], (a :: suf). split; [reflexivity | exact E].
    + intros H. apply IH in H as (ys & zs & -> & Hm).
      exists (a :: ys), zs. split; [reflexivity|].
      cbn [rev]. rewrite <- app_assoc. exact Hm.
Qed.

Lemma set_match_sound (ys zs : str) (mo : Match) :
  match_at set_re (rev ys ++ []) zs = Some mo ->
  exists tok, is_set_token tok /\ group mo (ys ++ zs) 1 = tok.
Proof.
  unfold match_at, set_re, Seq, Lit.
  destruct (m _ accept (rev ys ++ []) zs []) as [[e cs]|] eqn:Hm; [|discriminate].
  intros [= <-]. cbn [fold_right m] in Hm.
  destruct zs as [|c zs]; [discriminate|].
  destruct (Ascii.eqb_spec "(" c) as [<-|]; [|discriminate].
  apply rep_greedy_sound in Hm as (tok & tail & -> & Htok & Hlo & Hhi & Hm).
  destruct tail as [|c tail]; [discriminate|].
  destruct (Ascii.eqb ")" c); [|discriminate].
  injection Hm as <- <-.
  exists tok. split; [split; [split; [exact Hlo | exact Hhi] | exact Htok]|].
  unfold group. cbn [m_groups span_of Nat.eqb].
  replace (ys ++ "("%char :: tok ++ c :: tail)
    with ((ys ++ ["("%char]) ++ tok ++ c :: tail) by list_eq.
  apply slice_middle; lengths.
Qed.

Lemma num_match_sound (ys zs : str) (mo : Match) :
  match_at num_re (rev ys ++ []) zs = Some mo ->
  is_collector_number (group mo (ys ++ zs) 1).
Proof.
  unfold match_at, num_re, Seq, Plus, Star, Opt.
  destruct (m _ accept (rev ys ++ []) zs []) as [[e cs]|] eqn:Hm; [|discriminate].
  intros [= <-]. cbn [fold_right m] in Hm.
  destruct (at_boundary (rev ys ++ []) zs); [|discriminate].
  apply rep_greedy_sound in Hm as (ds & s1 & -> & Hds & Hlo & _ & Hm).
  apply rep_greedy_sound in Hm as (l & s2 & -> & Hl & _ & Hhi & Hm).
  destruct (at_boundary _ s2); [|discriminate].
  apply rep_greedy_sound in Hm as (ws & s3 & -> & _ & _ & _ & Hm).
  destruct (at_end s3); [|discriminate]. injection Hm as <- <-.
  unfold group. cbn [m_groups span_of Nat.eqb].
  replace (ys ++ ds ++ l ++ ws ++ s3) with (ys ++ (ds ++ l) ++ ws ++ s3) by list_eq.
  rewrite slice_middle by lengths.
  exists ds, l. split; [reflexivity|]. split; [destruct ds; [cbn in Hlo; lia | discriminate]|].
  split; [exact Hds|].
  destruct l as [|c [|c' l]]; [left; reflexivity | right | cbn in Hhi; lia].
  exists c. split; [reflexivity|]. apply Forall_cons in Hl as [Hc _]. exact Hc.
Qed.

(** The set code of a parsed entry is a set token in lower case, and its
    collector number is a run of digits with at most one letter. *)
Lemma parse_fields (line : str) (e : Entry) :
  parse_deck_line line = Some e ->
  (forall s, set_code e = Some s -> exists tok, is_set_token tok /\ s = lower tok)
  /\ (forall num, collector_number e = Some num -> is_collector_number num).
Proof.
  unfold parse_deck_line.
  destruct (clean_line line) as [s|]; [|discriminate].
  destruct (split_qty s) as [q rest].
  destruct (split_set rest) as [sc rest_wo_set] eqn:Hset.
  destruct (split_num rest_wo_set) as [cn nm] eqn:Hnum.
  destruct (re_sub slash_re (L " // ") nm) as [|c nm']; [discriminate|].
  intros [= <-]. cbn [set_code collector_number]. split.
  - intros tok0 ->. unfold split_set, re_search in Hset.
    destruct (search_from set_re [] rest) as [mo|] eqn:Hs; [|discriminate].
    apply search_from_sound in Hs as (ys & zs & -> & Hm).
    apply set_match_sound in Hm as (tok & Htok & Hg).
    injection Hset as <- _. exists tok. split; [exact Htok | rewrite Hg; reflexivity].
  - intros num ->. unfold split_num, re_search in Hnum.
    destruct (search_from num_re [] rest_wo_set) as [mo|] eqn:Hs; [|discriminate].
    apply search_from_sound in Hs as (ys & zs & -> & Hm).
    apply num_match_sound in Hm. injection Hnum as <- _. exact Hm.
Qed.

Lemma parse_fields_nonempty (line : str) (e : Entry) :
  parse_deck_line line = Some e -> fields_nonempty e.
Proof.
  intros H. apply parse_fields in H as [Hs Hn]. split.
  - intros E. destruct (Hs _ E) as (tok & [[Hlo _] _] & Heq).
    destruct tok; [cbn in Hlo; lia | discriminate].
  - intros E. apply Hn, collector_number_nonnil in E. congruence.
Qed.

(** Every aggregated entry of a parsed decklist has the fields of one of
    the parsed entries, so its present fields are not empty. *)
Lemma aggregated_fields_nonempty (unique : bool) (lines : list str) (aggregated : list Entry) :
  aggregated_of unique (parse_lines lines) = Some aggregated ->
  Forall fields_nonempty aggregated.
Proof.
  unfold aggregated_of, aggregate. intros Hagg.
  apply mapM_Some in Hagg.
  assert (Hg : Forall (fun kv => Forall fields_nonempty (snd kv))
                 (group_by_identifier (parse_lines lines))).
  { destruct (group_by_identifier_spec (parse_lines lines)) as [Hnd Hg].
    apply Forall_forall. intros [k items] Hin. cbn [snd].
    apply (assoc_elem_of _ _ _ Hnd) in Hin. rewrite Hg in Hin.
    assert (items = with_key k (parse_lines lines)) as ->
      by (destruct (with_key k (parse_lines lines)); congruence).
    apply Forall_forall. intros e He. unfold with_key in He.
    apply list_elem_of_filter in He as [_ He].
    unfold parse_lines in He. apply list_elem_of_omap in He as (line & _ & Hp).
    eapply parse_fields_nonempty, Hp. }
  induction Hagg as [|[k items] e g a Hex _ IH]; [constructor|].
  apply Forall_cons in Hg as [Hitems Hg]. constructor; [|apply IH, Hg].
  cbn [snd] in *. apply key_exemplar in Hex as (first & rest & -> & _ & _ & _ & Hs & Hc).
  apply Forall_cons in Hitems as [[H1 H2] _]. split; congruence.
Qed.

(** * Further properties of the code *)

(** ** [sanitize_filename] *)

Section Substitution.

Implicit Types (r : regex) (repl pre suf : str).

(** What a substitution writes is text of the subject or of the
    replacement. *)
Lemma sub_from_chars r repl (Q : ascii -> Prop) :
  Forall Q repl ->
  forall suf skip pre, Forall Q suf -> Forall Q (sub_from r repl skip pre suf).
Proof.
  intros Hrepl. induction suf as [|a suf IH]; intros skip pre Hsuf.
  - destruct skip; cbn [sub_from]; [|constructor].
    destruct (match_at r pre []); [rewrite app_nil_r; exact Hrepl | constructor].
  - apply Forall_cons in Hsuf as [Ha Hsuf].
    destruct skip; cbn [sub_from]; [|apply IH, Hsuf].
    destruct (match_at r pre (a :: suf)) as [mo|].
    + apply Forall_app_2; [exact Hrepl|].
      destruct (m_end mo - m_start mo)%nat; [constructor; [exact Ha|] |]; apply IH, Hsuf.
    + constructor; [exact Ha | apply IH, Hsuf].
Qed.

Lemma match_at_class (p : ascii -> bool) pre (a : ascii) suf :
  match_at (Class p) pre (a :: suf)
  = if p a then Some {| m_start := length pre; m_end := S (length pre); m_groups := [] |}
    else None.
Proof. unfold match_at. cbn [m]. destruct (p a); reflexivity. Qed.

(** Deleting a class of characters leaves none of them. *)
Lemma sub_class_removed (p : ascii -> bool) : forall suf pre,
  Forall (fun c => p c = false) (sub_from (Class p) [] O pre suf).
Proof.
  induction suf as [|a suf IH]; intros pre; cbn [sub_from].
  - cbn. constructor.
  - rewrite match_at_class. destruct (p a) eqn:Hpa.
    + cbn [m_end m_start app].
      replace (S (length pre) - length pre)%nat with 1%nat by lia. apply IH.
    + constructor; [exact Hpa | apply IH].
Qed.


(** A text splits into its leading whitespace and the rest. *)
Lemma blank_span (s : str) :
  exists ws rest, s = ws ++ rest /\ Forall (fun c => isspace c = true) ws /\ no_lead rest.
Proof.
  induction s as [|a s (ws & rest & -> & Hws & Hrest)].
  - exists [], []. repeat split. constructor.
  - destruct (isspace a) eqn:Ha.
    + exists (a :: ws), rest. repeat split; [constructor; assumption | assumption].
    + exists [], (a :: ws ++ rest). repeat split; [constructor | exact Ha].
Qed.

Lemma match_at_blank_run (ws rest pre : str) :
  ws <> [] -> Forall (fun c => isspace c = true) ws -> no_lead rest ->
  match_at (Plus isspace) pre (ws ++ rest)
  = Some {| m_start := length pre; m_end := (length pre + length ws)%nat;
            m_groups := [] |}.
Proof.
  intros Hne Hws Hrest. unfold match_at, Plus. cbn [m].
  erewrite rep_greedy_max;
    [ | exact Hws | destruct ws; [congruence | cbn; lia] | exact I
      | unfold accept; reflexivity
      | destruct rest; [exact I | left; exact Hrest] ].
  f_equal. f_equal. lengths.
Qed.

Lemma match_at_blank_none (pre suf : str) :
  no_lead suf -> match_at (Plus isspace) pre suf = None.
Proof.
  intros H. unfold match_at, Plus. cbn [m].
  rewrite rep_greedy_stop; [reflexivity|].
  destruct suf; [exact I | left; exact H].
Qed.

(** Collapsing whitespace: after the characters still to be passed over
    comes text that does not start with whitespace. *)
Lemma collapse_single_spaced : forall suf skip pre,
  (skip = O \/ exists xs rest, suf = xs ++ rest /\ length xs = skip /\ no_lead rest) ->
  single_spaced (sub_from (Plus isspace) (L " ") skip pre suf)
  /\ ((skip <> O \/ no_lead suf) -> no_lead (sub_from (Plus isspace) (L " ") skip pre suf)).
Proof.
  induction suf as [|a suf IH]; intros skip pre G.
  - destruct skip; cbn [sub_from]; [|split; [exact I | intros _; exact I]].
    rewrite match_at_blank_none by exact I. split; [exact I | intros _; exact I].
  - destruct skip as [|n]; cbn [sub_from].
    + destruct (isspace a) eqn:Ha.
      * destruct (blank_span suf) as (ws & rest & -> & Hws & Hrest).
        change (a :: ws ++ rest) with ((a :: ws) ++ rest).
        rewrite match_at_blank_run;
          [ | discriminate | constructor; assumption | exact Hrest ].
        cbn [m_end m_start app length].
        replace (length pre + S (length ws) - length pre)%nat with (S (length ws)) by lia.
        destruct (IH (length ws) (a :: pre)) as [Hs Hl].
        { destruct ws as [|w ws]; [left; reflexivity|]. right.
          exists (w :: ws), rest. repeat split. exact Hrest. }
        change (L " ") with [" "%char]. cbn [app]. split.
        -- split; [|exact Hs]. intros _. split; [reflexivity|].
           apply Hl. destruct ws as [|w ws]; [right; exact Hrest | left; discriminate].
        -- intros [H|H]; [congruence | cbn [no_lead] in H; congruence].
      * rewrite match_at_blank_none by exact Ha.
        destruct (IH O (a :: pre)) as [Hs _]; [left; reflexivity|].
        split; [split; [intros H; congruence | exact Hs] | intros _; exact Ha].
    + destruct G as [G|(xs & rest & E & Hlen & Hrest)]; [discriminate|].
      destruct xs as [|x xs]; [discriminate|]. injection E as <- ->.
      injection Hlen as Hlen.
      destruct (IH n (a :: pre)) as [Hs Hl].
      { destruct xs as [|x xs]; [left; cbn in Hlen; congruence|].
        right. exists (x :: xs), rest. repeat split; assumption. }
      split; [exact Hs|]. intros _. apply Hl.
      destruct xs as [|x xs]; [right; exact Hrest | left; cbn in Hlen; lia].
Qed.


End Substitution.

Lemma unsafe_blank_safe (c : ascii) :
  unsafe_char c = false -> (isspace c = true -> c = " "%char) -> safe_char c = true.
Proof.
  unfold unsafe_char, safe_char. intros H Hsp.
  apply negb_false_iff in H.
  destruct (is_word c); [reflexivity|].
  destruct (isspace c) eqn:E.
  - rewrite (Hsp eq_refl). reflexivity.
  - cbn [orb] in H |- *. rewrite H. apply orb_true_r.
Qed.


Lemma single_spaced_at (s : str) :
  single_spaced s ->
  forall u a v, s = u ++ a :: v -> isspace a = true -> a = " "%char /\ no_lead v.
Proof.
  induction s as [|b s IH]; intros Hs u a v E Ha.
  - destruct u; discriminate.
  - destruct Hs as [Hb Hs]. destruct u as [|b' u]; injection E as -> ->.
    + apply Hb, Ha.
    + eapply IH; [exact Hs | reflexivity | exact Ha].
Qed.

(** X1. Every character of a sanitized name is a word character, a plain
    space or one of the whitelisted punctuation marks; in particular a
    sanitized name holds no path separator. *)
Theorem sanitize_filename_safe (name : str) :
  Forall (fun c => safe_char c = true) (sanitize_filename name)
  /\ ~ In "/"%char (sanitize_filename name)
  /\ ~ In "\"%char (sanitize_filename name).
Proof.
  assert (H : Forall (fun c => safe_char c = true) (sanitize_filename name)).
  { unfold sanitize_filename, re_sub.
    set (t := sub_from (Class unsafe_char) [] O [] (strip name)).
    assert (Ht : Forall (fun c => unsafe_char c = false) t) by apply sub_class_removed.
    destruct (collapse_single_spaced t O []) as [Hs _]; [left; reflexivity|].
    assert (Hc : Forall (fun c => unsafe_char c = false)
                   (sub_from (Plus isspace) (L " ") O [] t)).
    { apply sub_from_chars; [repeat constructor | exact Ht]. }
    apply Forall_forall. intros c Hin.
    apply unsafe_blank_safe.
    - rewrite Forall_forall in Hc. apply Hc, Hin.
    - intros Hsp. apply list_elem_of_split in Hin as (u & v & E).
      apply (single_spaced_at _ Hs u c v E Hsp). }
  split; [exact H|].
  rewrite Forall_forall in H.
  split; intros Hin; apply list_elem_of_In in Hin; apply H in Hin; discriminate.
Qed.

(** X2. In a sanitized name every whitespace character is a plain space
    and no two whitespace characters are adjacent. *)
Theorem sanitize_filename_single_spaces (name u v : str) (a : ascii) :
  sanitize_filename name = u ++ a :: v -> isspace a = true ->
  a = " "%char /\ match v with b :: _ => isspace b = false | [] => True end.
Proof.
  intros E Ha.
  destruct (collapse_single_spaced
              (re_sub (Class unsafe_char) [] (strip name)) O []) as [Hs _];
    [left; reflexivity|].
  exact (single_spaced_at _ Hs u a v E Ha).
Qed.

Lemma sanitize_filename_single_spaces_witness :
  " "%char = " "%char
  /\ match L "Ice" with b :: _ => isspace b = false | [] => True end.
Proof.
  apply (sanitize_filename_single_spaces (L "  Fire:   Ice? ") (L "Fire") (L "Ice") " "%char).
  - vm_compute. reflexivity.
  - reflexivity.
Defined.



(** ** [parse_deck_line]: skipped lines, defaults and foil markers *)

Section Skipping.

Implicit Types (s t ws : str).

Lemma dropwhile_keep ws t :
  no_lead t -> dropwhile isspace (ws ++ t) = dropwhile isspace ws ++ t.
Proof.
  intros Ht. induction ws as [|c ws IH]; cbn [app dropwhile].
  - destruct t as [|c t]; [reflexivity|]. cbn [dropwhile]. cbn [no_lead] in Ht.
    rewrite Ht. reflexivity.
  - destruct (isspace c); [exact IH | reflexivity].
Qed.

Lemma rstrip_keep s t : no_trail s -> rstrip (s ++ t) = s ++ rstrip t.
Proof.
  intros Hs. unfold rstrip. rewrite rev_app_distr, dropwhile_keep by exact Hs.
  rewrite rev_app_distr, rev_involutive. reflexivity.
Qed.

Lemma strip_blank s : Forall (fun c => isspace c = true) s -> strip s = [].
Proof.
  intros Hs. unfold strip, lstrip.
  rewrite <- (app_nil_r s), dropwhile_blank by exact Hs. reflexivity.
Qed.

Lemma strip_marker ws s t :
  Forall (fun c => isspace c = true) ws -> s <> [] -> no_lead s -> no_trail s ->
  strip (ws ++ s ++ t) = s ++ rstrip t.
Proof.
  intros Hws Hne Hl Ht. unfold strip, lstrip. rewrite dropwhile_blank by exact Hws.
  change (dropwhile isspace (s ++ t)) with (lstrip (s ++ t)).
  rewrite lstrip_id by (apply no_lead_app; assumption).
  apply rstrip_keep, Ht.
Qed.

Lemma startswith_app s t : startswith (s ++ t) s = true.
Proof.
  induction s as [|c s IH]; [destruct t; reflexivity|].
  cbn [app startswith]. rewrite Ascii.eqb_refl. exact IH.
Qed.

Lemma markers_trimmed :
  Forall (fun mk => mk <> [] /\ no_lead mk /\ no_trail mk) section_markers.
Proof. repeat constructor; discriminate. Qed.

Lemma parse_blank s : Forall (fun c => isspace c = true) s -> parse_deck_line s = None.
Proof.
  intros Hs. unfold parse_deck_line, clean_line. rewrite strip_blank by exact Hs.
  reflexivity.
Qed.

Lemma parse_marker ws marker rest :
  Forall (fun c => isspace c = true) ws -> In marker section_markers ->
  parse_deck_line (ws ++ marker ++ rest) = None.
Proof.
  intros Hws Hin. unfold parse_deck_line, clean_line.
  pose proof markers_trimmed as Hm. rewrite Forall_forall in Hm.
  destruct (Hm marker) as (Hne & Hl & Ht); [apply list_elem_of_In, Hin|].
  rewrite strip_marker by assumption.
  destruct (marker ++ rstrip rest) eqn:E; [reflexivity|]. rewrite <- E.
  assert (Hany : startswith_any (marker ++ rstrip rest) section_markers = true).
  { unfold startswith_any. apply existsb_exists. exists marker.
    split; [exact Hin | apply startswith_app]. }
  rewrite Hany. reflexivity.
Qed.

End Skipping.

(** X4. A line of whitespace only is skipped, and so is every line
    that, after its leading whitespace, starts with a comment marker or
    with one of the section words, whatever follows: a card whose name
    begins with such a word is dropped when the line has no quantity. *)
Theorem parse_deck_line_skips (ws rest : str) :
  Forall (fun c => isspace c = true) ws ->
  parse_deck_line ws = None
  /\ forall marker, In marker section_markers ->
       parse_deck_line (ws ++ marker ++ rest) = None.
Proof.
  intros Hws. split; [apply parse_blank, Hws|].
  intros marker Hin. apply parse_marker; assumption.
Qed.

Lemma parse_deck_line_skips_witness :
  parse_deck_line (L "  ") = None
  /\ forall marker, In marker section_markers ->
       parse_deck_line (L "  " ++ marker ++ L "'s Sphere") = None.
Proof. apply parse_deck_line_skips. repeat constructor. Defined.

Lemma lower_alnum (c : ascii) :
  is_alnum_ascii c = true -> is_lower_ascii (lower_char c) || isdecimal (lower_char c) = true.
Proof. by_char c. Qed.

(** X5. The fields of every parsed entry have their shape: a set code is
    2 to 5 lower-case ASCII letters or digits, a collector number is a
    run of decimal digits with at most one more character after it, a
    letter: a word character that is neither a decimal digit nor the
    underscore. *)
Theorem parse_fields_shape (line : str) (e : Entry) :
  parse_deck_line line = Some e ->
  (forall s, set_code e = Some s ->
     (2 <= length s <= 5)%nat
     /\ Forall (fun c => is_lower_ascii c || isdecimal c = true) s)
  /\ (forall num, collector_number e = Some num ->
        exists ds l,
          num = ds ++ l /\ ds <> [] /\ Forall (fun c => isdecimal c = true) ds
          /\ (length l <= 1)%nat
          /\ Forall (fun c => is_word c = true /\ isdecimal c = false
                              /\ c <> "_"%char) l).
Proof.
  intros H. apply parse_fields in H as [Hs Hn]. split.
  2:{ intros num E. destruct (Hn num E) as (ds & l & -> & Hne & Hds & Hl).
      exists ds, l. split; [reflexivity|]. split; [exact Hne|]. split; [exact Hds|].
      destruct Hl as [->|(c & -> & Hc)]; [split; [cbn; lia | constructor]|].
      split; [cbn; lia|]. constructor; [|constructor].
      split; [apply letter_word, Hc|]. split; [apply letter_not_decimal, Hc|].
      intros ->. discriminate. }
  intros s E. destruct (Hs s E) as (tok & [Hlen Hal] & ->). split.
  - unfold lower. rewrite length_map. exact Hlen.
  - unfold lower. apply Forall_map. eapply Forall_impl; [exact Hal | exact lower_alnum].
Qed.

Lemma parse_fields_shape_witness :
  (forall s, Some (L "lea") = Some s ->
     (2 <= length s <= 5)%nat
     /\ Forall (fun c => is_lower_ascii c || isdecimal c = true) s)
  /\ (forall num, Some (L "162") = Some num ->
        exists ds l,
          num = ds ++ l /\ ds <> [] /\ Forall (fun c => isdecimal c = true) ds
          /\ (length l <= 1)%nat
          /\ Forall (fun c => is_word c = true /\ isdecimal c = false
                              /\ c <> "_"%char) l).
Proof.
  apply (parse_fields_shape (L "4 Lightning Bolt (LEA) 162")
           {| qty := 4; name := L "Lightning Bolt"; set_code := Some (L "lea");
              collector_number := Some (L "162") |}).
  vm_compute. reflexivity.
Defined.

Section WithoutSetAndNumber.

Implicit Types (nm ds : str).

Lemma num_pass_nondigit (c : ascii) (pre suf : str) :
  isdecimal c = false -> match_at num_re pre (c :: suf) = None.
Proof.
  intros Hc. unfold match_at, num_re, Seq, Plus, Star, Opt. cbn [fold_right m].
  destruct (at_boundary pre (c :: suf)); [|reflexivity].
  rewrite rep_greedy_stop by (left; exact Hc). reflexivity.
Qed.

(** A text without digits holds no collector number. *)
Lemma num_search_no_digit (s : str) :
  Forall (fun c => isdecimal c = false) s -> re_search num_re s = None.
Proof.
  intros Hs. unfold re_search. rewrite <- (app_nil_r s).
  rewrite (search_from_pass num_re (fun c => negb (isdecimal c))).
  - cbn [search_from]. unfold match_at, num_re, Seq, Plus, Star, Opt.
    cbn [fold_right m]. destruct (at_boundary _ []); reflexivity.
  - intros c pre suf Hc. apply num_pass_nondigit.
    destruct (isdecimal c); [discriminate | reflexivity].
  - eapply Forall_impl; [exact Hs|]. intros c Hc. cbn beta. rewrite Hc. reflexivity.
Qed.

Lemma qty_match_nondigit (c : ascii) (s : str) :
  isdecimal c = false -> re_match qty_re (c :: s) = None.
Proof.
  intros Hc. unfold re_match, match_at, qty_re, Seq, Plus, Star, Opt.
  cbn [fold_right m]. rewrite rep_greedy_stop by (left; exact Hc). reflexivity.
Qed.

Lemma split_num_no_digit nm :
  no_lead nm -> no_trail nm -> Forall (fun c => isdecimal c = false) nm ->
  split_num nm = (None, nm).
Proof.
  intros Hl Ht Hd. unfold split_num. rewrite num_search_no_digit by exact Hd.
  rewrite strip_id by assumption. reflexivity.
Qed.

End WithoutSetAndNumber.

(** X6. A line that is just a plain name without digits, and that does
    not start with a comment marker or a section word, parses to that
    name with the default quantity 1, no set code and no collector
    number. *)
Theorem parse_name_only (nm : str) :
  plain_name nm -> Forall (fun c => isdecimal c = false) nm ->
  startswith_any nm section_markers = false ->
  parse_deck_line nm
  = Some {| qty := 1; name := nm; set_code := None; collector_number := None |}.
Proof.
  intros (Hne & Hl & Ht & Hplain & Hslash) Hd Hmark.
  unfold parse_deck_line.
  assert (Hclean : clean_line nm = Some nm).
  { unfold clean_line. rewrite strip_id by assumption.
    destruct nm as [|c nm']; [congruence|].
    rewrite Hmark. unfold re_sub. rewrite foil_sub_plain by exact Hplain.
    rewrite strip_id by assumption. reflexivity. }
  assert (Hqty : split_qty nm = (1, nm)).
  { unfold split_qty. destruct nm as [|c nm']; [congruence|].
    rewrite qty_match_nondigit; [reflexivity|].
    apply Forall_cons in Hd as [Hc _]. exact Hc. }
  rewrite Hclean, Hqty, split_set_none by exact Hplain.
  rewrite split_num_no_digit by assumption.
  rewrite Hslash. destruct nm; [congruence | reflexivity].
Qed.

Lemma parse_name_only_witness :
  parse_deck_line (L "Fire // Ice")
  = Some {| qty := 1; name := L "Fire // Ice"; set_code := None;
            collector_number := None |}.
Proof.
  apply parse_name_only.
  - repeat split; try reflexivity; [discriminate | repeat constructor].
  - repeat constructor.
  - reflexivity.
Defined.

(** X7. "N name" and "Nx name": for a run of digits and a plain name
    without digits the parser returns the value of the digits and the
    name, with no set code and no collector number; without the x the
    name must not itself start with a separate x. *)
Theorem parse_qty_name (ds nm : str) :
  ds <> [] -> Forall (fun c => isdecimal c = true) ds ->
  plain_name nm -> Forall (fun c => isdecimal c = false) nm ->
  (x_led nm = false ->
   parse_deck_line (ds ++ L " " ++ nm)
   = Some {| qty := int ds; name := nm; set_code := None; collector_number := None |})
  /\ parse_deck_line (ds ++ L "x " ++ nm)
     = Some {| qty := int ds; name := nm; set_code := None; collector_number := None |}.
Proof.
  intros Hne Hds (Hnm & Hl & Ht & Hplain & Hslash) Hd.
  assert (Hdsp : Forall (fun c => plain_char c = true) ds)
    by (eapply Forall_impl; [exact Hds | exact decimal_plain]).
  pose proof (Forall_plain_dot nm Hplain) as Hdot.
  split.
  - intros Hx. change (L " ") with [" "%char]. cbn [app].
    apply (parse_after_quantity ds nm nm nm); try assumption.
    + unfold re_sub. apply foil_sub_plain. plain.
    + apply split_set_none, Hplain.
    + apply split_num_no_digit; assumption.
  - change (L "x ") with ["x"%char; " "%char]. cbn [app].
    unfold parse_deck_line.
    assert (Hclean : clean_line (ds ++ "x"%char :: " "%char :: nm)
                     = Some (ds ++ "x"%char :: " "%char :: nm)).
    { destruct ds as [|d ds']; [congruence|]. cbn [app].
      apply clean_line_id.
      - apply Forall_cons in Hds as [H _]. exact H.
      - trail.
      - unfold re_sub. apply foil_sub_plain.
        change (d :: ds' ++ "x"%char :: " "%char :: nm)
          with ((d :: ds') ++ "x"%char :: " "%char :: nm). plain. }
    rewrite Hclean, split_qty_x by assumption.
    rewrite strip_id by assumption.
    rewrite split_set_none by exact Hplain.
    rewrite split_num_no_digit by assumption.
    rewrite Hslash. destruct nm; [congruence | reflexivity].
Qed.

Lemma parse_qty_name_witness :
  (x_led (L "Lightning Bolt") = false ->
   parse_deck_line (L "04" ++ L " " ++ L "Lightning Bolt")
   = Some {| qty := int (L "04"); name := L "Lightning Bolt"; set_code := None;
             collector_number := None |})
  /\ parse_deck_line (L "04" ++ L "x " ++ L "Lightning Bolt")
     = Some {| qty := int (L "04"); name := L "Lightning Bolt"; set_code := None;
               collector_number := None |}.
Proof.
  apply parse_qty_name.
  - discriminate.
  - repeat constructor.
  - repeat split; try reflexivity; [discriminate | repeat constructor].
  - repeat constructor.
Defined.

Section FoilMarkers.

Lemma sub_from_skipped (r : regex) (repl : str) : forall xs pre suf,
  sub_from r repl (length xs) pre (xs ++ suf) = sub_from r repl O (rev xs ++ pre) suf.
Proof.
  induction xs as [|a xs IH]; intros pre suf; [reflexivity|].
  cbn [length app sub_from rev]. rewrite IH, <- app_assoc. reflexivity.
Qed.

(** A foil marker is matched whole, and nothing else at its place. *)
Lemma foil_match (mk pre suf : str) :
  is_foil_marker mk ->
  exists e cs,
    match_at foil_re pre (mk ++ suf)
    = Some {| m_start := length pre; m_end := e; m_groups := cs |}
    /\ (e - length pre = length mk)%nat /\ mk <> [].
Proof.
  intros [H|H]; unfold match_at, foil_re, LitsI, Seq, LitI;
    cbn [L list_ascii_of_string map fold_right m].
  - destruct mk as [|a [|b [|c [|d mk]]]]; try discriminate.
    injection H as Ha Hb Hc. cbn [app]. rewrite Ha, Hb, Hc.
    change (Ascii.eqb "*" (lower_char "*")) with true.
    change (Ascii.eqb "f" (lower_char "F")) with true. cbn match.
    unfold accept. do 2 eexists. split; [reflexivity|]. split; [lengths | discriminate].
  - destruct mk as [|a [|b [|c [|d [|e [|f [|g mk]]]]]]]; try discriminate.
    injection H as Ha Hb Hc Hd He Hf. cbn [app]. rewrite Ha, Hb, Hc, Hd, He, Hf.
    change (Ascii.eqb "(" (lower_char "*")) with false.
    change (Ascii.eqb "(" (lower_char "(")) with true.
    change (Ascii.eqb "f" (lower_char "F")) with true.
    change (Ascii.eqb "o" (lower_char "o")) with true.
    change (Ascii.eqb "i" (lower_char "i")) with true.
    change (Ascii.eqb "l" (lower_char "l")) with true.
    change (Ascii.eqb ")" (lower_char ")")) with true. cbn match.
    unfold accept. do 2 eexists. split; [reflexivity|]. split; [lengths | discriminate].
Qed.

Lemma foil_marker_trail (mk s : str) : is_foil_marker mk -> no_trail (s ++ mk).
Proof.
  intros [H|H].
  - destruct mk as [|a [|b [|c [|d mk]]]]; try discriminate.
    injection H as _ _ Hc.
    replace (s ++ [a; b; c]) with ((s ++ [a; b]) ++ [c]) by list_eq.
    apply no_trail_last. revert Hc. clear. by_char c.
  - destruct mk as [|a [|b [|c [|d [|e [|f [|g mk]]]]]]]; try discriminate.
    injection H as _ _ _ _ _ Hf.
    replace (s ++ [a; b; c; d; e; f]) with ((s ++ [a; b; c; d; e]) ++ [f]) by list_eq.
    apply no_trail_last. revert Hf. clear. by_char f.
Qed.

(** The cleaning step takes a trailing foil marker, and the blank before
    it, off a line. *)
Lemma clean_line_foil (d : ascii) (s mk : str) :
  isdecimal d = true -> Forall (fun c => plain_char c = true) s ->
  no_trail (d :: s) -> is_foil_marker mk ->
  clean_line (d :: s ++ " "%char :: mk) = clean_line (d :: s).
Proof.
  intros Hd Hs Ht Hmk.
  rewrite (clean_line_id d s Hd Ht)
    by (unfold re_sub; apply foil_sub_plain; constructor;
        [apply decimal_plain, Hd | exact Hs]).
  unfold clean_line.
  assert (Hstrip : strip (d :: s ++ " "%char :: mk) = d :: s ++ " "%char :: mk).
  { apply strip_id; [apply decimal_not_space, Hd|].
    replace (d :: s ++ " "%char :: mk) with ((d :: s ++ [" "%char]) ++ mk) by list_eq.
    apply foil_marker_trail, Hmk. }
  rewrite Hstrip, decimal_not_marker by exact Hd.
  f_equal. unfold re_sub.
  replace (d :: s ++ " "%char :: mk) with ((d :: s ++ [" "%char]) ++ mk ++ [])
    by (rewrite app_nil_r; list_eq).
  rewrite (sub_from_pass foil_re [] plain_char);
    [ | exact foil_pass
      | change (d :: s ++ [" "%char]) with ((d :: s) ++ [" "%char]);
        apply Forall_app_2; [constructor; [apply decimal_plain, Hd | exact Hs]
                            | repeat constructor ] ].
  destruct (foil_match mk (rev (d :: s ++ [" "%char]) ++ []) [] Hmk)
    as (e & cs & Hm & Hlen & Hne).
  destruct mk as [|a mk']; [congruence|].
  cbn [app sub_from]. cbn [app] in Hm. rewrite Hm. cbn [m_end m_start].
  rewrite Hlen. cbn [length app].
  rewrite sub_from_skipped, sub_from_nil by reflexivity.
  rewrite app_nil_r. change (d :: s ++ [" "%char]) with ((d :: s) ++ [" "%char]).
  apply strip_blank_tail; [apply decimal_not_space, Hd | exact Ht | repeat constructor].
Qed.

End FoilMarkers.

(** X8. A foil marker at the end of a line, in any letter case, changes
    nothing: a line that starts with a digit, is made of plain
    characters and does not end in whitespace parses the same with and
    without the marker after it. *)
Theorem parse_ignores_foil_marker (d : ascii) (s mk : str) :
  isdecimal d = true -> Forall (fun c => plain_char c = true) s ->
  no_trail (d :: s) -> is_foil_marker mk ->
  parse_deck_line (d :: s ++ L " " ++ mk) = parse_deck_line (d :: s).
Proof.
  intros Hd Hs Ht Hmk. unfold parse_deck_line.
  change (L " ") with [" "%char]. cbn [app].
  rewrite clean_line_foil by assumption. reflexivity.
Qed.

Lemma parse_ignores_foil_marker_witness :
  parse_deck_line ("4"%char :: L " Lightning Bolt" ++ L " " ++ L "(FOIL)")
  = parse_deck_line ("4"%char :: L " Lightning Bolt").
Proof.
  apply parse_ignores_foil_marker.
  - reflexivity.
  - repeat constructor.
  - reflexivity.
  - right. reflexivity.
Defined.

(** ** Identity keys, grouping and aggregation *)

Section Keys.

Lemma app_pivot_unique (x : ascii) : forall (a a' b b' : str),
  ~ In x a -> ~ In x a' -> a ++ x :: b = a' ++ x :: b' -> a = a' /\ b = b'.
Proof.
  induction a as [|c a IH]; intros [|c' a'] b b' Ha Ha' E; cbn [app] in E.
  - injection E as ->. split; reflexivity.
  - injection E as <- _. exfalso. apply Ha'. left. reflexivity.
  - injection E as -> _. exfalso. apply Ha. left. reflexivity.
  - injection E as -> E.
    destruct (IH a' b b') as [-> ->]; [ | | exact E | split; reflexivity].
    + intros H. apply Ha. right. exact H.
    + intros H. apply Ha'. right. exact H.
Qed.

Lemma lower_alnum_not_hash (c : ascii) :
  is_alnum_ascii c = true -> lower_char c <> "#"%char.
Proof. by_char c. Qed.

Lemma set_code_no_hash (tok : str) : is_set_token tok -> ~ In "#"%char (lower tok).
Proof.
  intros [_ Hal] Hin. unfold lower in Hin. apply in_map_iff in Hin as (c & Hc & Hin).
  rewrite Forall_forall in Hal. apply (lower_alnum_not_hash c); [|exact Hc].
  apply Hal, list_elem_of_In, Hin.
Qed.

(** Two parsed entries with one identity key, one of them with a set
    code and a collector number, agree on both. *)
Lemma printing_key_fields (line1 line2 : str) (e1 e2 : Entry) :
  parse_deck_line line1 = Some e1 -> parse_deck_line line2 = Some e2 ->
  is_Some (set_code e1) -> is_Some (collector_number e1) ->
  key e1 = key e2 ->
  set_code e2 = set_code e1 /\ collector_number e2 = collector_number e1.
Proof.
  intros H1 H2 [s1 Hs1] [c1 Hc1].
  pose proof (parse_fields_nonempty _ _ H1) as [Hn1 Hm1].
  pose proof (parse_fields_nonempty _ _ H2) as [Hn2 Hm2].
  apply parse_fields in H1 as [Hf1 _]. apply parse_fields in H2 as [Hf2 _].
  destruct (Hf1 s1 Hs1) as (t1 & Ht1 & E1).
  rewrite Hs1 in Hn1. rewrite Hc1 in Hm1.
  assert (Hs1' : s1 <> []) by (intros ->; apply Hn1; reflexivity).
  assert (Hc1' : c1 <> []) by (intros ->; apply Hm1; reflexivity).
  assert (Hk1 : key e1 = L "set:" ++ s1 ++ L "#cn:" ++ c1).
  { unfold key. rewrite Hs1, Hc1.
    rewrite !truthy_Some by assumption. reflexivity. }
  rewrite Hk1, Hs1, Hc1.
  unfold key. destruct (set_code e2) as [s2|] eqn:Hs2.
  - destruct (Hf2 s2 eq_refl) as (t2 & Ht2 & E2).
    assert (Hs2' : s2 <> []) by (intros ->; apply Hn2; reflexivity).
    rewrite (truthy_Some s2) by assumption. cbn [andb].
    destruct (collector_number e2) as [c2|] eqn:Hc2.
    + assert (Hc2' : c2 <> []) by (intros ->; apply Hm2; reflexivity).
      rewrite (truthy_Some c2) by assumption. cbn [item default].
      intros E. apply app_inv_head in E.
      change (L "#cn:") with ("#"%char :: L "cn:") in E. cbn [app] in E.
      apply app_pivot_unique in E as [-> E]; [ | rewrite E1 | rewrite E2 ];
        try (apply set_code_no_hash; assumption).
      apply app_inv_head in E as ->. split; reflexivity.
    + cbn [truthy]. intros E. discriminate.
  - cbn [truthy andb]. intros E. discriminate.
Qed.

(** A parsed entry with a set code and a collector number has both
    truthy. *)
Lemma printing_truthy (line : str) (e : Entry) :
  parse_deck_line line = Some e ->
  is_Some (set_code e) -> is_Some (collector_number e) ->
  truthy (set_code e) = true /\ truthy (collector_number e) = true.
Proof.
  intros H [s Hs] [c Hc]. apply parse_fields_nonempty in H as [Hn Hm].
  rewrite Hs in *. rewrite Hc in *.
  split; apply truthy_Some; intros ->; [apply Hn | apply Hm]; reflexivity.
Qed.

End Keys.

(** X9. A printing is merged with the same printing only: for a parsed
    entry that has a set code and a collector number, any other parsed
    entry has the same identity key exactly when it has the same set code
    and the same collector number. *)
Theorem key_separates_printings (line1 line2 : str) (e1 e2 : Entry) :
  parse_deck_line line1 = Some e1 -> parse_deck_line line2 = Some e2 ->
  is_Some (set_code e1) -> is_Some (collector_number e1) ->
  key e1 = key e2
  <-> set_code e2 = set_code e1 /\ collector_number e2 = collector_number e1.
Proof.
  intros H1 H2 Hs Hc. split.
  - apply (printing_key_fields line1 line2); assumption.
  - intros [Es Ec]. destruct (printing_truthy _ _ H1 Hs Hc) as [Ts Tc].
    unfold key. rewrite Es, Ec, Ts, Tc. reflexivity.
Qed.

Lemma key_separates_printings_witness :
  key {| qty := 4; name := L "Lightning Bolt"; set_code := Some (L "lea");
         collector_number := Some (L "162") |}
  = key {| qty := 1; name := L "Bolt"; set_code := Some (L "lea");
           collector_number := Some (L "162") |}
  <-> Some (L "lea") = Some (L "lea") /\ Some (L "162") = Some (L "162").
Proof.
  apply (key_separates_printings (L "4 Lightning Bolt (LEA) 162") (L "Bolt (lea) 162")).
  - vm_compute. reflexivity.
  - vm_compute. reflexivity.
  - eexists. reflexivity.
  - eexists. reflexivity.
Defined.

(** X29. Merging the duplicates of a printing loses nothing for the
    lookup: two parsed entries with one identity key, one of them with a
    set code and a collector number, give the same identifier, whatever
    their names and quantities. *)
Theorem merged_printings_share_identifier (line1 line2 : str) (e1 e2 : Entry) :
  parse_deck_line line1 = Some e1 -> parse_deck_line line2 = Some e2 ->
  is_Some (set_code e1) -> is_Some (collector_number e1) ->
  key e1 = key e2 ->
  build_identifier e1 = build_identifier e2.
Proof.
  intros H1 H2 Hs Hc Hk.
  destruct (printing_key_fields _ _ _ _ H1 H2 Hs Hc Hk) as [Es Ec].
  destruct (printing_truthy _ _ H1 Hs Hc) as [Ts Tc].
  unfold build_identifier. rewrite Es, Ec, Ts, Tc. reflexivity.
Qed.

Lemma merged_printings_share_identifier_witness :
  build_identifier {| qty := 4; name := L "Lightning Bolt"; set_code := Some (L "lea");
                      collector_number := Some (L "162") |}
  = build_identifier {| qty := 1; name := L "Bolt"; set_code := Some (L "lea");
                        collector_number := Some (L "162") |}.
Proof.
  apply (merged_printings_share_identifier
           (L "4 Lightning Bolt (LEA) 162") (L "Bolt (lea) 162")).
  - vm_compute. reflexivity.
  - vm_compute. reflexivity.
  - eexists. reflexivity.
  - eexists. reflexivity.
  - vm_compute. reflexivity.
Defined.

Section GroupOrder.

Implicit Types (g : list (str * list Entry)) (l : list Entry) (k : str) (e : Entry).

Lemma setdefault_append_keys k e g :
  map fst (setdefault_append k e g)
  = if decide (k ∈ map fst g) then map fst g else map fst g ++ [k].
Proof.
  induction g as [|[k' items] g IH]; cbn [setdefault_append map fst].
  - destruct (decide (k ∈ [])) as [H|_]; [inversion H | reflexivity].
  - destruct (decide (k = k')) as [->|Hne]; cbn [map fst].
    + rewrite decide_True by (apply elem_of_cons; left; reflexivity). reflexivity.
    + rewrite IH. destruct (decide (k ∈ map fst g)) as [Hin|Hout].
      * rewrite decide_True by (apply elem_of_cons; right; exact Hin). reflexivity.
      * rewrite decide_False; [reflexivity|].
        intros [?|?]%elem_of_cons; [apply Hne | apply Hout]; assumption.
Qed.

Lemma group_keys_fold l : forall g,
  map fst (fold_left (fun groups e => setdefault_append (key e) e groups) l g)
  = map fst g ++ filter (fun k => k ∉ map fst g) (first_seen (map key l)).
Proof.
  induction l as [|e l IH]; intros g; cbn [fold_left map first_seen].
  - cbn. rewrite app_nil_r. reflexivity.
  - rewrite IH, setdefault_append_keys.
    destruct (decide (key e ∈ map fst g)) as [Hin|Hout].
    + rewrite filter_cons_False by (intros H; apply H, Hin).
      rewrite list_filter_filter. f_equal. apply list_filter_iff.
      intros k. split; [intros H; split; [exact H|] | intros [H _]; exact H].
      intros ->. apply H, Hin.
    + rewrite filter_cons_True by exact Hout.
      rewrite <- app_assoc. cbn [app]. do 2 f_equal.
      rewrite list_filter_filter. apply list_filter_iff.
      intros k. rewrite elem_of_app, list_elem_of_singleton. tauto.
Qed.

Lemma group_keys l : map fst (group_by_identifier l) = first_seen (map key l).
Proof.
  unfold group_by_identifier. rewrite group_keys_fold. cbn [map app].
  induction (first_seen (map key l)) as [|k ks IH]; [reflexivity|].
  rewrite filter_cons_True by (intros H; inversion H). f_equal. exact IH.
Qed.

Lemma concat_setdefault_append k e g :
  Permutation (concat (map snd (setdefault_append k e g))) (e :: concat (map snd g)).
Proof.
  induction g as [|[k' items] g IH]; cbn [setdefault_append map snd concat].
  - reflexivity.
  - destruct (decide (k = k')) as [->|Hne]; cbn [map snd concat].
    + rewrite <- app_assoc. cbn [app]. symmetry. apply Permutation_middle.
    + rewrite IH. symmetry. apply Permutation_middle.
Qed.

Lemma concat_groups_fold l : forall g,
  Permutation
    (concat (map snd (fold_left (fun groups e => setdefault_append (key e) e groups) l g)))
    (concat (map snd g) ++ l).
Proof.
  induction l as [|e l IH]; intros g; cbn [fold_left].
  - rewrite app_nil_r. reflexivity.
  - rewrite IH, concat_setdefault_append. apply Permutation_middle.
Qed.

Lemma group_items l k items :
  (k, items) ∈ group_by_identifier l -> items <> [] /\ items = with_key k l.
Proof.
  destruct (group_by_identifier_spec l) as [Hnd Hg]. intros Hin.
  apply (assoc_elem_of _ _ _ Hnd) in Hin. rewrite Hg in Hin.
  destruct (with_key k l) as [|x xs]; [discriminate|].
  injection Hin as <-. split; [discriminate | reflexivity].
Qed.

Lemma total_qty_app l l' : total_qty (l ++ l') = total_qty l + total_qty l'.
Proof.
  induction l as [|e l IH]; cbn [app].
  - unfold total_qty at 2. cbn. lia.
  - rewrite !total_qty_cons, IH. lia.
Qed.

Lemma total_qty_map l : total_qty l = foldr Z.add 0 (map qty l).
Proof.
  induction l as [|e l IH]; [reflexivity|].
  rewrite total_qty_cons, IH. reflexivity.
Qed.

Lemma total_qty_concat g :
  foldr Z.add 0 (map (fun kv => total_qty (snd kv)) g) = total_qty (concat (map snd g)).
Proof.
  induction g as [|[k items] g IH]; [reflexivity|].
  cbn [map foldr snd concat]. rewrite total_qty_app, IH. reflexivity.
Qed.

End GroupOrder.

(** X10. [group_by_identifier] partitions its input: the keys of the
    groups are distinct, no group is empty, each group holds exactly the
    entries with its key in input order, and the groups together are a
    rearrangement of the input, so no entry is lost or repeated. *)
Theorem group_by_identifier_partition (entries : list Entry) :
  NoDup (map fst (group_by_identifier entries))
  /\ (forall k items, (k, items) ∈ group_by_identifier entries ->
        items <> [] /\ items = with_key k entries)
  /\ Permutation (concat (map snd (group_by_identifier entries))) entries.
Proof.
  split; [apply group_by_identifier_spec|]. split.
  - intros k items. apply group_items.
  - unfold group_by_identifier. rewrite concat_groups_fold. reflexivity.
Qed.

(** X11. The aggregation loop of [main] yields one entry per distinct
    identity key, in the order in which the keys first occur among the
    parsed entries, with or without [--unique]. *)
Theorem aggregated_first_seen_order (unique : bool) (parsed : list Entry) :
  exists aggregated,
    aggregated_of unique parsed = Some aggregated
    /\ map key aggregated = first_seen (map key parsed).
Proof.
  destruct (aggregated_of_total unique parsed) as (a & Ha & Hkq).
  exists a. split; [exact Ha|]. rewrite <- group_keys.
  apply (f_equal (map fst)) in Hkq. rewrite !map_map in Hkq. exact Hkq.
Qed.

(** X12. Without [--unique] the aggregation keeps the number of cards: the
    quantities of the aggregated entries add up to the quantities of the
    parsed entries. *)
Theorem aggregation_preserves_total (parsed : list Entry) :
  exists aggregated,
    aggregated_of false parsed = Some aggregated
    /\ total_qty aggregated = total_qty parsed.
Proof.
  destruct (aggregated_of_total false parsed) as (a & Ha & Hkq).
  exists a. split; [exact Ha|].
  apply (f_equal (map snd)) in Hkq. rewrite !map_map in Hkq. cbn [snd key_qty] in Hkq.
  rewrite total_qty_map.
  replace (map qty a)
    with (map (fun kv : str * list Entry => total_qty (snd kv)) (group_by_identifier parsed))
    by (symmetry; exact Hkq).
  rewrite total_qty_concat. apply total_qty_permutation.
  unfold group_by_identifier. rewrite concat_groups_fold. reflexivity.
Qed.

(** X13. Every aggregated entry takes its name, set code and collector
    number from the first parsed entry that has its identity key; the
    fields of the later duplicates are dropped. *)
Theorem aggregated_fields_of_first (unique : bool) (parsed : list Entry) :
  exists aggregated,
    aggregated_of unique parsed = Some aggregated
    /\ Forall (fun e => exists first rest,
                 with_key (key e) parsed = first :: rest
                 /\ name e = name first
                 /\ set_code e = set_code first
                 /\ collector_number e = collector_number first) aggregated.
Proof.
  destruct (aggregated_of_total unique parsed) as (a & Ha & _).
  exists a. split; [exact Ha|].
  unfold aggregated_of, aggregate in Ha. apply mapM_Some in Ha.
  pose proof (group_members parsed) as Hm.
  assert (Hitems : Forall (fun kv => snd kv = with_key (fst kv) parsed)
                     (group_by_identifier parsed)).
  { apply Forall_forall. intros [k items] Hin. apply group_items in Hin as [_ ->].
    reflexivity. }
  induction Ha as [|[k items] e g a' Hex _ IH]; [constructor|].
  apply Forall_cons in Hm as [[_ Hkeys] Hm]. apply Forall_cons in Hitems as [Hit Hitems].
  constructor; [|apply IH; assumption].
  cbn [fst snd] in *. apply key_exemplar in Hex
    as (first & rest & -> & Hk & _ & Hn & Hs & Hc).
  apply Forall_cons in Hkeys as [Hkf _].
  exists first, rest. rewrite Hk, Hkf, <- Hit. repeat split; assumption.
Qed.

(** ** Chunks and batches *)

Section Chunks.

Context {A : Type}.
Implicit Types (l : list A) (step n m i : nat).

(** The slices [l[i : i + step]] taken at the points of [range_step]. *)
Lemma chunks_at l step n :
  map (fun i => firstn step (skipn i l)) (range_step n step)
  = map (fun i => firstn step (skipn (i * step) l)) (seq 0 ((n + step - 1) / step)).
Proof. unfold range_step. rewrite map_map. reflexivity. Qed.

Lemma chunks_concat l step m :
  concat (map (fun i => firstn step (skipn (i * step) l)) (seq 0 m))
  = firstn (m * step) l.
Proof.
  induction m as [|m IH]; [reflexivity|].
  rewrite seq_S, map_app, concat_app, IH. cbn [map concat Nat.add].
  rewrite app_nil_r, take_take_drop. f_equal. lia.
Qed.

Lemma range_step_cover step n :
  (0 < step)%nat -> (n <= (n + step - 1) / step * step)%nat.
Proof.
  intros Hs. pose proof (Nat.div_mod_eq (n + step - 1) step) as E.
  pose proof (Nat.mod_upper_bound (n + step - 1) step) as Hr. nia.
Qed.

Lemma range_step_inside step n i :
  (0 < step)%nat -> (i < (n + step - 1) / step)%nat -> (i * step < n)%nat.
Proof.
  intros Hs Hi. pose proof (Nat.div_mod_eq (n + step - 1) step) as E.
  pose proof (Nat.mod_upper_bound (n + step - 1) step) as Hr. nia.
Qed.

Lemma chunks_partition l step :
  (0 < step)%nat ->
  concat (map (fun i => firstn step (skipn i l)) (range_step (length l) step)) = l.
Proof.
  intros Hs. rewrite chunks_at, chunks_concat. apply take_ge, range_step_cover, Hs.
Qed.

Lemma chunks_lengths l step :
  (0 < step)%nat ->
  Forall (fun c => (0 < length c <= step)%nat)
    (map (fun i => firstn step (skipn i l)) (range_step (length l) step)).
Proof.
  intros Hs. rewrite chunks_at. apply Forall_forall. intros c Hc.
  apply list_elem_of_fmap_1 in Hc as (i & -> & Hi).
  apply list_elem_of_In, in_seq in Hi as [_ Hi]. cbn [Nat.add] in Hi.
  apply (range_step_inside _ _ _ Hs) in Hi.
  rewrite length_take, length_drop. lia.
Qed.

Lemma chunks_full l step i c :
  (0 < step)%nat ->
  map (fun i => firstn step (skipn i l)) (range_step (length l) step) !! i = Some c ->
  (S i < length (range_step (length l) step))%nat ->
  length c = step.
Proof.
  intros Hs. rewrite chunks_at. unfold range_step. rewrite length_map, length_seq.
  intros Hc Hi. rewrite list_lookup_fmap in Hc.
  rewrite lookup_seq_lt in Hc by lia. cbn in Hc. injection Hc as <-.
  apply (range_step_inside _ _ _ Hs) in Hi.
  rewrite length_take, length_drop. lia.
Qed.

End Chunks.

(** X14. [chunked] with a positive size cuts its input into consecutive
    slices: the chunks put back together are the input, no chunk is empty
    or longer than the size, and every chunk but the last has exactly the
    size. *)
Theorem chunked_partition {A : Type} (iterable : list A) (size : Z) :
  0 < size ->
  exists chunks,
    chunked iterable size = Some chunks
    /\ concat chunks = iterable
    /\ Forall (fun c => (0 < length c <= Z.to_nat size)%nat) chunks
    /\ forall i c, chunks !! i = Some c -> (S i < length chunks)%nat ->
         length c = Z.to_nat size.
Proof.
  intros Hs. unfold chunked.
  destruct (Z.eqb_spec size 0) as [->|_]; [lia|].
  destruct (Z.ltb_spec size 0) as [Hneg|_]; [lia|].
  assert (Hstep : (0 < Z.to_nat size)%nat) by lia.
  eexists. split; [reflexivity|]. split; [apply chunks_partition, Hstep|].
  split; [apply chunks_lengths, Hstep|].
  intros i c Hc Hi. rewrite length_map in Hi. eapply chunks_full; eassumption.
Qed.

Lemma chunked_partition_witness :
  exists chunks,
    chunked [1; 2; 3; 4; 5; 6; 7] 3 = Some chunks
    /\ concat chunks = [1; 2; 3; 4; 5; 6; 7]
    /\ Forall (fun c => (0 < length c <= Z.to_nat 3)%nat) chunks
    /\ forall i c, chunks !! i = Some c -> (S i < length chunks)%nat ->
         length c = Z.to_nat 3.
Proof. apply (chunked_partition [1; 2; 3; 4; 5; 6; 7] 3). lia. Defined.

(** X15. The resolver of [main] sends every identifier exactly once, in
    order, in requests of 1 to 75 identifiers, and the entries it pairs
    with the answer to a request are the entries that the identifiers of
    the request were built from. *)
Theorem batches_cover_identifiers (aggregated : list Entry) :
  let identifiers := build_identifiers aggregated in
  let starts := range_step (length identifiers) BATCH_SIZE in
  concat (map (batch identifiers) starts) = identifiers
  /\ Forall (fun start =>
       (1 <= length (batch identifiers start) <= 75)%nat
       /\ batch identifiers start = build_identifiers (batch aggregated start)) starts.
Proof.
  cbv zeta. split.
  - apply (chunks_partition (build_identifiers aggregated) BATCH_SIZE).
    unfold BATCH_SIZE. lia.
  - pose proof (chunks_lengths (build_identifiers aggregated) BATCH_SIZE) as Hlen.
    rewrite Forall_forall in Hlen. apply Forall_forall. intros start Hin. split.
    + assert (H : (0 < length (batch (build_identifiers aggregated) start) <= BATCH_SIZE)%nat).
      { apply Hlen; [unfold BATCH_SIZE; lia|].
        apply (list_elem_of_fmap_2 (fun i => firstn BATCH_SIZE (skipn i _))), Hin. }
      unfold BATCH_SIZE in H. lia.
    + unfold batch, build_identifiers.
      rewrite <- (fmap_drop build_identifier), <- (fmap_take build_identifier).
      reflexivity.
Qed.

(** ** The resolver and [main] as a whole *)

Section Running.

Context {World : Type}.
Variable post : list Identifier -> World -> World * (Exception + Response).
Variable path_exists : str -> World -> bool.
Variable fetch : str -> str -> World -> World * option Exception.
Variable ensure_dir : str -> World -> World * option Exception.
Variable path_join : str -> str -> str.
Variable str_of_exception : Exception -> str.

Implicit Types (st : State World) (aggregated : list Entry) (starts : list nat).

Lemma only_world_refl st : only_world st st.
Proof. repeat split. Qed.

Lemma only_world_trans st st1 st2 :
  only_world st st1 -> only_world st1 st2 -> only_world st st2.
Proof.
  intros (H1 & H2 & H3 & H4) (K1 & K2 & K3 & K4).
  repeat split; congruence.
Qed.

Lemma call_only_world (f : World -> World * option Exception) st st1 r :
  call f st = (st1, r) -> only_world st st1.
Proof.
  unfold call. destruct (f (world st)) as [w [ex|]]; intros [= <- _]; repeat split.
Qed.

Lemma for_each_only_world {A} (body : A -> Eff World unit) (xs : list A) :
  (forall x st st1 r, body x st = (st1, r) -> only_world st st1) ->
  forall st st1 r, for_each xs body st = (st1, r) -> only_world st st1.
Proof.
  intros Hbody. induction xs as [|x xs IH]; intros st st1 r; cbn [for_each].
  - intros [= <- _]. apply only_world_refl.
  - unfold mbind, Eff_bind.
    destruct (body x st) as [st2 [ex|u]] eqn:Hx.
    + intros [= <- _]. eapply Hbody, Hx.
    + intros H. eapply only_world_trans; [eapply Hbody, Hx | eapply IH, H].
Qed.

Lemma download_card_only_world size out_dir (overwrite : bool) card_json q st st1 r :
  download_card path_exists fetch path_join size out_dir overwrite card_json q st
    = (st1, r) ->
  only_world st st1.
Proof.
  unfold download_card, mbind, Eff_bind, lift.
  destruct (pick_image_uris card_json size) as [ex|pairs].
  - intros [= <- _]. apply only_world_refl.
  - apply for_each_only_world. intros [url suffix] st2 st3 r'.
    unfold download_file. destruct (negb overwrite && path_exists _ (world st2)).
    + intros [= <- _]. apply only_world_refl.
    + apply call_only_world.
Qed.

(** The download loop returns, counts every card, records at most one
    error per card and leaves the lists of the resolver alone. *)
Lemma download_all_returns size out_dir (overwrite : bool) (resolved : list (Card * Z)) :
  forall st, exists st',
    download_all path_exists fetch path_join str_of_exception size out_dir overwrite
      resolved st = (st', inr tt)
    /\ pbar st' = (pbar st + length resolved)%nat
    /\ (length (errors st') <= length (errors st) + length resolved)%nat
    /\ resolved_cards st' = resolved_cards st
    /\ missing st' = missing st.
Proof.
  unfold download_all.
  induction resolved as [|[card_json q] rest IH]; intros st; cbn [for_each].
  - exists st. cbn. repeat split; lia.
  - unfold mbind, Eff_bind, download_turn, try_finally, try_except,
      record_error, errors_append, pbar_update, update.
    destruct (download_card path_exists fetch path_join size out_dir overwrite card_json q st)
      as [st1 [ex|[]]] eqn:Hc;
      apply download_card_only_world in Hc as (Hr & Hm & He & Hp).
    + destruct (IH (add_progress 1
                      (add_error (default (L "Unknown") (card_name card_json),
                                  str_of_exception ex) st1)))
        as (st' & Hrun & Hpb & Her & Hrc & Hms).
      exists st'. split; [exact Hrun|]. cbn in Hpb, Her, Hrc, Hms.
      rewrite length_app in Her. cbn in Her. cbn [length].
      rewrite He in Her. rewrite Hp in Hpb.
      repeat split; try congruence; lia.
    + destruct (IH (add_progress 1 st1)) as (st' & Hrun & Hpb & Her & Hrc & Hms).
      exists st'. split; [exact Hrun|]. cbn in Hpb, Her, Hrc, Hms. cbn [length].
      rewrite He in Her. rewrite Hp in Hpb.
      repeat split; try congruence; lia.
Qed.

(** One request: progress and errors are not touched, at most one card
    per entry of the batch is stored, and a failed request stores
    nothing. *)
Lemma resolve_batch_run (identifiers : list Identifier) aggregated (start : nat) st st1 r :
  resolve_batch post identifiers aggregated start st = (st1, r) ->
  pbar st1 = pbar st /\ errors st1 = errors st
  /\ (length (resolved_cards st1)
      <= length (resolved_cards st) + length (batch aggregated start))%nat
  /\ (forall ex, r = inl ex ->
        resolved_cards st1 = resolved_cards st /\ missing st1 = missing st
        /\ exists w, post (batch identifiers start) (world st) = (w, inl ex)
                     /\ world st1 = w).
Proof.
  destruct (post (batch identifiers start) (world st)) as [w [ex|resp]] eqn:Hpost.
  - unfold resolve_batch, mbind, Eff_bind, call_post. rewrite Hpost.
    intros [= <- <-]. cbn.
    split; [reflexivity|]. split; [reflexivity|]. split; [lia|].
    intros ex' [= <-]. split; [reflexivity|]. split; [reflexivity|].
    exists w. split; reflexivity.
  - rewrite (resolve_batch_answered post _ _ _ _ _ _ Hpost). intros [= <- <-]. cbn.
    rewrite length_app, length_map, length_zip.
    split; [reflexivity|]. split; [reflexivity|]. split; [lia|].
    intros ex' [=].
Qed.

Lemma resolve_batch_failed (identifiers : list Identifier) aggregated (start : nat) st
    (w : World) (ex : Exception) :
  post (batch identifiers start) (world st) = (w, inl ex) ->
  resolve_batch post identifiers aggregated start st = (set_world w st, inl ex).
Proof.
  intros Hpost. unfold resolve_batch, mbind, Eff_bind, call_post. rewrite Hpost.
  reflexivity.
Qed.

Lemma resolve_starts_run (identifiers : list Identifier) aggregated starts :
  forall st st1 r,
    for_each starts (resolve_batch post identifiers aggregated) st = (st1, r) ->
    pbar st1 = pbar st /\ errors st1 = errors st
    /\ (length (resolved_cards st1)
        <= length (resolved_cards st) + length (concat (map (batch aggregated) starts)))%nat.
Proof.
  induction starts as [|start starts IH]; intros st st1 r; cbn [for_each map concat].
  - intros [= <- _]. cbn. repeat split; lia.
  - unfold mbind, Eff_bind.
    destruct (resolve_batch post identifiers aggregated start st) as [st2 [ex|u]] eqn:Hb;
      apply resolve_batch_run in Hb as (Hp & He & Hl & _); rewrite length_app.
    + intros [= <- _]. repeat split; [assumption..|lia].
    + intros H. apply IH in H as (Hp' & He' & Hl').
      repeat split; [congruence..|lia].
Qed.

(** Every request answered with one card per identifier: the quantities
    stored are the quantities of the batches, in order. *)
Lemma resolve_starts_answered (identifiers : list Identifier) aggregated starts :
  length identifiers = length aggregated ->
  (forall ids w, exists w' resp,
     post ids w = (w', inr resp) /\ length (default [] (data resp)) = length ids) ->
  forall st, exists st',
    for_each starts (resolve_batch post identifiers aggregated) st = (st', inr tt)
    /\ map snd (resolved_cards st')
       = map snd (resolved_cards st) ++ map qty (concat (map (batch aggregated) starts)).
Proof.
  intros Hlen Hpost. induction starts as [|start starts IH]; intros st;
    cbn [for_each map concat].
  - exists st. split; [reflexivity|]. cbn. rewrite app_nil_r. reflexivity.
  - unfold mbind, Eff_bind.
    destruct (Hpost (batch identifiers start) (world st)) as (w' & resp & Hp & Hd).
    rewrite (resolve_batch_answered post _ _ _ _ _ _ Hp).
    match goal with |- context [for_each starts _ ?s] => destruct (IH s) as (st' & Hrun & Hq) end.
    exists st'. split; [exact Hrun|]. rewrite Hq. cbn [resolved_cards].
    rewrite !map_app, <- app_assoc. do 2 f_equal.
    rewrite map_map. cbn [snd]. rewrite <- (map_map snd qty). f_equal.
    apply snd_zip. rewrite Hd. unfold batch.
    rewrite !length_take, !length_drop, Hlen. lia.
Qed.

Lemma batches_of_aggregated aggregated :
  concat (map (batch aggregated)
            (range_step (length (build_identifiers aggregated)) BATCH_SIZE))
  = aggregated.
Proof.
  unfold build_identifiers. rewrite length_map.
  apply (chunks_partition aggregated BATCH_SIZE). unfold BATCH_SIZE. lia.
Qed.

Lemma range_step_head (n : nat) :
  (0 < n)%nat -> exists rest, range_step n BATCH_SIZE = 0%nat :: rest.
Proof.
  intros Hn. pose proof (range_step_cover BATCH_SIZE n) as Hc. unfold range_step in *.
  destruct ((n + BATCH_SIZE - 1) / BATCH_SIZE)%nat as [|m].
  - unfold BATCH_SIZE in Hc. lia.
  - rewrite <- cons_seq. cbn [map]. eexists. reflexivity.
Qed.

Lemma parse_lines_nil (lines : list str) :
  parse_lines lines = [] <-> Forall (fun line => parse_deck_line line = None) lines.
Proof.
  unfold parse_lines. induction lines as [|line lines IH]; cbn [omap list_omap].
  - split; [constructor | reflexivity].
  - destruct (parse_deck_line line) as [e|] eqn:E.
    + split; [discriminate | intros H; inversion H; congruence].
    + rewrite IH. split; [intros H; constructor; assumption | intros H; inversion H; assumption].
Qed.

Lemma aggregated_of_nonempty (unique : bool) (e : Entry) (parsed : list Entry) :
  exists a aggregated, aggregated_of unique (e :: parsed) = Some (a :: aggregated).
Proof.
  destruct (aggregated_of_total unique (e :: parsed)) as (agg & Ha & Hkq).
  apply (f_equal (map fst)) in Hkq. rewrite !map_map in Hkq. cbn [fst] in Hkq.
  rewrite (map_ext _ fst) in Hkq by reflexivity.
  rewrite group_keys in Hkq. cbn [map first_seen] in Hkq.
  destruct agg as [|a agg]; [discriminate|]. exists a, agg. exact Ha.
Qed.

End Running.
Section Pipeline.

Context {World : Type}.
Variable post : list Identifier -> World -> World * (Exception + Response).
Variable path_exists : str -> World -> bool.
Variable fetch : str -> str -> World -> World * option Exception.
Variable ensure_dir : str -> World -> World * option Exception.
Variable path_join : str -> str -> str.
Variable str_of_exception : Exception -> str.

Implicit Types (st : State World) (aggregated : list Entry).

(** X16. When the lookup service answers every request with one card per
    identifier, the resolver returns and the quantities it stores with
    the cards are the quantities of the aggregated entries, in order. *)
Theorem resolve_keeps_quantities_when_all_found aggregated st :
  (forall ids w, exists w' resp,
     post ids w = (w', inr resp) /\ length (default [] (data resp)) = length ids) ->
  exists st',
    resolve post (build_identifiers aggregated) aggregated st = (st', inr tt)
    /\ map snd (resolved_cards st') = map snd (resolved_cards st) ++ map qty aggregated.
Proof.
  intros Hpost. unfold resolve.
  destruct (resolve_starts_answered post (build_identifiers aggregated) aggregated
              (range_step (length (build_identifiers aggregated)) BATCH_SIZE))
    with (st := st) as (st' & Hrun & Hq).
  - unfold build_identifiers. apply length_map.
  - exact Hpost.
  - exists st'. split; [exact Hrun|]. rewrite Hq, batches_of_aggregated. reflexivity.
Qed.

(** X17. Whatever the lookup service answers, and whether the resolver
    returns or raises, it stores at most one card per aggregated entry
    and touches neither the progress counter nor the error list. *)
Theorem resolve_stores_at_most_one_card_per_entry aggregated st :
  let out := resolve post (build_identifiers aggregated) aggregated st in
  (length (resolved_cards (fst out)) <= length (resolved_cards st) + length aggregated)%nat
  /\ pbar (fst out) = pbar st
  /\ errors (fst out) = errors st.
Proof.
  cbv zeta. unfold resolve.
  destruct (for_each _ _ st) as [st1 r] eqn:Hrun.
  apply resolve_starts_run in Hrun as (Hp & He & Hl).
  rewrite batches_of_aggregated in Hl. cbn [fst]. repeat split; assumption.
Qed.

(** X18. A lookup request that fails is fatal: when the service rejects
    the first request, [main] ends with that exception, having resolved
    nothing, created no folder and downloaded nothing. *)
Theorem failed_lookup_is_fatal (lines : list str) (unique overwrite : bool)
    (size out_dir : str) (w w' : World) (ex : Exception) :
  parse_lines lines <> [] ->
  (forall ids, post ids w = (w', inl ex)) ->
  main post path_exists fetch ensure_dir path_join str_of_exception
    lines unique overwrite size out_dir w
  = Crashed ex {| world := w'; resolved_cards := []; missing := [];
                  errors := []; pbar := 0 |}.
Proof.
  intros Hparsed Hpost. unfold main.
  destruct (parse_lines lines) as [|e parsed]; [contradiction|].
  destruct (aggregated_of_nonempty unique e parsed) as (a & agg & ->).
  cbv zeta. unfold mbind, Eff_bind, resolve.
  destruct (range_step_head (length (build_identifiers (a :: agg)))) as [rest ->];
    [cbn; lia|].
  cbn [for_each]. unfold mbind, Eff_bind.
  rewrite (resolve_batch_failed post _ _ _ (initial w) w' ex (Hpost _)). reflexivity.
Qed.

(** X20. The books of [main] balance.  When it finishes, the progress
    counter equals the number of resolved cards and there is at most one
    error per resolved card; when it crashes, it does so before the
    download loop, with no progress and no error recorded. *)
Theorem main_accounts_for_every_card (lines : list str) (unique overwrite : bool)
    (size out_dir : str) (w : World) :
  match main post path_exists fetch ensure_dir path_join str_of_exception
          lines unique overwrite size out_dir w with
  | Done st =>
      pbar st = length (resolved_cards st)
      /\ (length (errors st) <= length (resolved_cards st))%nat
  | Crashed ex st => pbar st = 0%nat /\ errors st = []
  | Exited code => code = 1
  end.
Proof.
  unfold main. destruct (parse_lines lines) as [|e parsed]; [reflexivity|].
  destruct (aggregated_of unique (e :: parsed)) as [aggregated|];
    [|split; reflexivity].
  cbv zeta. unfold mbind, Eff_bind, resolve.
  destruct (for_each _ _ (initial w)) as [st1 [ex|u]] eqn:Hres;
    apply resolve_starts_run in Hres as (Hp & He & _); cbn in Hp, He.
  - split; assumption.
  - destruct (call (ensure_dir out_dir) st1) as [st2 [ex|u']] eqn:Hcall;
      apply call_only_world in Hcall as (Hr2 & Hm2 & He2 & Hp2).
    + split; congruence.
    + unfold download_resolved.
      destruct (download_all_returns path_exists fetch path_join str_of_exception
                  size out_dir overwrite (resolved_cards st2) st2)
        as (st' & -> & Hpb & Her & Hrc & _).
      rewrite Hrc. rewrite He2, He in Her. rewrite Hp2, Hp in Hpb.
      cbn in Her. split; [exact Hpb | lia].
Qed.

(** The [try] block of a card whose destinations all exist: without
    [--overwrite] nothing is fetched. *)
Lemma download_card_existing (size out_dir : str) card_json (q : Z) st :
  Forall (fun dest => path_exists dest (world st) = true)
    (destinations path_join size out_dir (card_json, q)) ->
  download_card path_exists fetch path_join size out_dir false card_json q st
  = (st, match pick_image_uris card_json size with
         | inl ex => inl ex
         | inr _ => inr tt
         end).
Proof.
  unfold destinations, download_card, mbind, Eff_bind, lift. cbn [fst snd].
  destruct (pick_image_uris card_json size) as [ex|pairs]; [reflexivity|].
  induction pairs as [|[url suffix] pairs IH]; intros Hex; [reflexivity|].
  cbn [map fst snd] in Hex. apply Forall_cons in Hex as [Hdest Hex].
  cbn [for_each]. unfold mbind, Eff_bind, download_file at 1.
  rewrite Hdest. cbn [negb andb]. apply IH, Hex.
Qed.

(** X21. A rerun over a folder that already holds the files fetches
    nothing: without [--overwrite], when the destination of every image
    of every resolved card exists, the download loop returns with the
    world as it was; the progress counter has advanced by the number of
    cards, and the errors added are those of the cards whose image
    selection raises, in order. *)
Theorem download_all_skips_existing_files (size out_dir : str)
    (resolved : list (Card * Z)) st :
  Forall (fun rc =>
            Forall (fun dest => path_exists dest (world st) = true)
              (destinations path_join size out_dir rc)) resolved ->
  download_all path_exists fetch path_join str_of_exception size out_dir false
    resolved st
  = ({| world := world st; resolved_cards := resolved_cards st;
        missing := missing st;
        errors := errors st ++ selection_errors str_of_exception size resolved;
        pbar := (pbar st + length resolved)%nat |}, inr tt).
Proof.
  unfold download_all. revert st.
  induction resolved as [|[card_json q] rest IH]; intros st Hex; cbn [for_each].
  - destruct st as [w rc ms es pb]. cbn. rewrite app_nil_r.
    replace (pb + 0)%nat with pb by lia. reflexivity.
  - apply Forall_cons in Hex as [Hcard Hex].
    unfold mbind, Eff_bind, download_turn, try_finally, try_except,
      record_error, errors_append, pbar_update, update.
    rewrite (download_card_existing _ _ _ _ _ Hcard).
    unfold selection_errors. cbn [omap list_omap fst length].
    destruct (pick_image_uris card_json size) as [ex|pairs] eqn:Hpick.
    + rewrite IH by exact Hex. destruct st as [w rc ms es pb]. cbn.
      rewrite <- app_assoc. cbn [app]. do 2 f_equal. lia.
    + rewrite IH by exact Hex. destruct st as [w rc ms es pb]. cbn.
      do 2 f_equal. lia.
Qed.

End Pipeline.

Lemma resolve_keeps_quantities_when_all_found_witness :
  exists st',
    resolve (echo_post counterspell)
      (build_identifiers
         [ {| qty := 4; name := L "Counterspell"; set_code := None;
              collector_number := None |};
           {| qty := 2; name := L "Opt"; set_code := None; collector_number := None |} ])
      [ {| qty := 4; name := L "Counterspell"; set_code := None;
           collector_number := None |};
        {| qty := 2; name := L "Opt"; set_code := None; collector_number := None |} ]
      (initial tt) = (st', inr tt)
    /\ map snd (resolved_cards st') = map snd (resolved_cards (initial tt)) ++ [4; 2].
Proof.
  apply (resolve_keeps_quantities_when_all_found (echo_post counterspell)
           [ {| qty := 4; name := L "Counterspell"; set_code := None;
                collector_number := None |};
             {| qty := 2; name := L "Opt"; set_code := None; collector_number := None |} ]
           (initial tt)).
  intros ids w. exists w. eexists. split; [reflexivity|]. cbn. apply length_map.
Defined.

Lemma failed_lookup_is_fatal_witness :
  main down_post no_file (fun _ _ => always_ok) (fun _ => always_ok)
    posix_join exception_text [L "4 Lightning Bolt"] false false (L "png") (L "cards") tt
  = Crashed (HTTPError (L "503 Server Error"))
      {| world := tt; resolved_cards := []; missing := []; errors := []; pbar := 0 |}.
Proof.
  apply (failed_lookup_is_fatal down_post no_file (fun _ _ => always_ok)
           (fun _ => always_ok) posix_join exception_text
           [L "4 Lightning Bolt"] false false (L "png") (L "cards") tt tt
           (HTTPError (L "503 Server Error"))).
  - vm_compute. discriminate.
  - intros ids. reflexivity.
Defined.

Lemma download_all_skips_existing_files_witness :
  download_all (only_file (L "cards/4x Counterspell (lea) 54.png"))
    (fun _ _ => never_ok) posix_join exception_text
    (L "png") (L "cards") false
    [ (counterspell, 4);
      ({| card_name := Some (L "Opt"); card_set := None; card_collector_number := None;
          image_uris := None; card_faces := None |}, 1) ]
    (initial tt)
  = ({| world := tt; resolved_cards := []; missing := [];
        errors := [(L "Opt", L "No image_uris found for Opt")];
        pbar := 2 |}, inr tt).
Proof.
  apply (download_all_skips_existing_files
           (only_file (L "cards/4x Counterspell (lea) 54.png"))
           (fun _ _ => never_ok) posix_join exception_text (L "png") (L "cards")
           [ (counterspell, 4);
             ({| card_name := Some (L "Opt"); card_set := None;
                 card_collector_number := None;
                 image_uris := None; card_faces := None |}, 1) ]
           (initial tt)).
  repeat constructor.
Defined.

(** ** [pick_image_uris] on the faces of a card *)

(** X22. For a card whose faces all have an image of the wanted size, the
    loop over the faces yields one pair per face, in order: the URL of
    the face and a suffix made of a dash and the sanitized face name,
    where a face without a name is called "face" followed by its 1-based
    position. *)
Theorem pick_faces_one_pair_per_face (card : Card) (size : str) (idx : nat)
    (faces : list Face) :
  Forall (fun face => is_Some (face_image_uris face ≫= (fun iu => iu !! size))) faces ->
  exists uris,
    pick_faces card size idx faces = inr uris
    /\ length uris = length faces
    /\ forall i face, faces !! i = Some face ->
         exists url,
           face_image_uris face ≫= (fun iu => iu !! size) = Some url
           /\ uris !! i
              = Some (url, L "-" ++ sanitize_filename
                                      (default (L "face" ++ fmt_nat (idx + i + 1))
                                         (face_name face))).
Proof.
  intros Hall. revert idx.
  induction faces as [|face faces IH]; intros idx; cbn [pick_faces].
  - exists []. split; [reflexivity|]. split; [reflexivity|]. intros i face H. inversion H.
  - apply Forall_cons in Hall as [[url Hurl] Hall]. rewrite Hurl.
    destruct (IH Hall (S idx)) as (uris & -> & Hlen & Hat).
    eexists. split; [reflexivity|]. split; [cbn [length]; rewrite Hlen; reflexivity|].
    intros [|i] face' Hi; cbn in Hi.
    + injection Hi as <-. exists url. split; [exact Hurl|]. cbn.
      replace (idx + 0 + 1)%nat with (idx + 1)%nat by lia. reflexivity.
    + destruct (Hat i face' Hi) as (url' & Hurl' & Hu). exists url'.
      split; [exact Hurl'|]. cbn.
      replace (idx + S i + 1)%nat with (S idx + i + 1)%nat by lia. exact Hu.
Qed.

Lemma pick_faces_one_pair_per_face_witness :
  exists uris,
    pick_faces counterspell (L "png") 0
      [ {| face_name := Some (L "Delver of Secrets");
           face_image_uris := Some {[ L "png" := L "https://img/front.png" ]} |};
        {| face_name := None;
           face_image_uris := Some {[ L "png" := L "https://img/back.png" ]} |} ]
    = inr uris
    /\ length uris = 2%nat
    /\ forall i face,
         [ {| face_name := Some (L "Delver of Secrets");
              face_image_uris := Some {[ L "png" := L "https://img/front.png" ]} |};
           {| face_name := None;
              face_image_uris := Some {[ L "png" := L "https://img/back.png" ]} |} ] !! i
         = Some face ->
         exists url,
           face_image_uris face ≫= (fun iu => iu !! L "png") = Some url
           /\ uris !! i
              = Some (url, L "-" ++ sanitize_filename
                                      (default (L "face" ++ fmt_nat (0 + i + 1))
                                         (face_name face))).
Proof.
  apply (pick_faces_one_pair_per_face counterspell (L "png") 0
           [ {| face_name := Some (L "Delver of Secrets");
                face_image_uris := Some {[ L "png" := L "https://img/front.png" ]} |};
             {| face_name := None;
                face_image_uris := Some {[ L "png" := L "https://img/back.png" ]} |} ]).
  repeat constructor; vm_compute; eexists; reflexivity.
Defined.

(** X23. One face without an image of the wanted size fails the whole
    card: the loop raises a KeyError that names the 1-based position of
    the first such face, and the pairs of the faces before it are
    lost. *)
Theorem pick_faces_reports_first_missing_face (card : Card) (size : str) (idx : nat)
    (ok : list Face) (bad : Face) (rest : list Face) :
  Forall (fun face => is_Some (face_image_uris face ≫= (fun iu => iu !! size))) ok ->
  face_image_uris bad ≫= (fun iu => iu !! size) = None ->
  pick_faces card size idx (ok ++ bad :: rest)
  = inl (KeyError (L "No '" ++ size ++ L "' image for face "
                   ++ fmt_nat (idx + length ok + 1)
                   ++ L " of " ++ fmt_opt (card_name card))).
Proof.
  intros Hok Hbad. revert idx.
  induction ok as [|face ok IH]; intros idx; cbn [app pick_faces length].
  - rewrite Hbad. replace (idx + 0 + 1)%nat with (idx + 1)%nat by lia. reflexivity.
  - apply Forall_cons in Hok as [[url Hurl] Hok]. rewrite Hurl.
    rewrite (IH Hok (S idx)).
    replace (S idx + length ok + 1)%nat with (idx + S (length ok) + 1)%nat by lia.
    reflexivity.
Qed.

Lemma pick_faces_reports_first_missing_face_witness :
  pick_faces counterspell (L "png") 0
    ([ {| face_name := Some (L "Front");
          face_image_uris := Some {[ L "png" := L "https://img/front.png" ]} |} ]
     ++ {| face_name := Some (L "Back");
           face_image_uris := Some {[ L "large" := L "https://img/back.jpg" ]} |} :: [])
  = inl (KeyError (L "No 'png' image for face 2 of Counterspell")).
Proof.
  apply (pick_faces_reports_first_missing_face counterspell (L "png") 0
           [ {| face_name := Some (L "Front");
                face_image_uris := Some {[ L "png" := L "https://img/front.png" ]} |} ]
           {| face_name := Some (L "Back");
              face_image_uris := Some {[ L "large" := L "https://img/back.jpg" ]} |} []).
  - repeat constructor. vm_compute. eexists. reflexivity.
  - vm_compute. reflexivity.
Defined.

(** ** File names and extensions *)

(** X24. For one card and one quantity, [make_filename] gives two face
    suffixes the same base name only when the suffixes are equal. *)
Theorem make_filename_separates_suffixes (card : Card) (qty : Z) (s1 s2 : str) :
  make_filename card qty s1 = make_filename card qty s2 <-> s1 = s2.
Proof.
  split; [|intros ->; reflexivity].
  unfold make_filename. cbv zeta. intros E.
  apply app_inv_head in E. apply app_inv_head in E.
  apply app_inv_tail in E. exact E.
Qed.

Section Extensions.

Implicit Types (pre suf ys zs base x w e q : str) (c : ascii)
  (k : str -> str -> caps -> option answer).

Lemma alt_sound (r1 r2 : regex) k pre suf (cs : caps) (r : answer) :
  m (Alt r1 r2) k pre suf cs = Some r ->
  m r1 k pre suf cs = Some r \/ m r2 k pre suf cs = Some r.
Proof.
  cbn [m]. destruct (m r1 k pre suf cs).
  - intros [= <-]. left. reflexivity.
  - intros H. right. exact H.
Qed.

Lemma m_alt (r1 r2 : regex) k pre suf (cs : caps) :
  m (Alt r1 r2) k pre suf cs
  = match m r1 k pre suf cs with
    | Some a => Some a
    | None => m r2 k pre suf cs
    end.
Proof. reflexivity. Qed.

(** A literal under IGNORECASE consumes text that is equal to it up to
    case. *)
Lemma lits_sound w : forall k pre suf (cs : caps) (r : answer),
  m (Seq (map LitI w)) k pre suf cs = Some r ->
  exists x rest, suf = x ++ rest /\ lower x = lower w /\ k (rev x ++ pre) rest cs = Some r.
Proof.
  unfold Seq. induction w as [|a w IH]; intros k pre suf cs r; cbn [map fold_right m].
  - intros H. exists [], suf. repeat split. exact H.
  - unfold LitI at 1. cbn [m]. destruct suf as [|c suf]; [discriminate|].
    destruct (Ascii.eqb (lower_char c) (lower_char a)) eqn:E; [|discriminate].
    intros H. apply IH in H as (x & rest & -> & Hx & Hk).
    exists (c :: x), rest. split; [reflexivity|]. split.
    + cbn [lower map]. f_equal; [apply Ascii.eqb_eq, E | exact Hx].
    + cbn [rev]. rewrite <- app_assoc. exact Hk.
Qed.

Lemma lits_complete w : forall x k pre rest (cs : caps),
  lower x = lower w ->
  m (Seq (map LitI w)) k pre (x ++ rest) cs = k (rev x ++ pre) rest cs.
Proof.
  unfold Seq. induction w as [|a w IH]; intros [|c x] k pre rest cs E;
    try discriminate; cbn [map fold_right m app rev].
  - reflexivity.
  - injection E as Ec Ex. unfold LitI at 1. cbn [m]. rewrite Ec, Ascii.eqb_refl.
    rewrite <- app_assoc. apply IH, Ex.
Qed.

(** A literal under IGNORECASE fails on text whose first character is
    another letter. *)
Lemma lits_fail (a : ascii) w k pre c rest (cs : caps) :
  chr_i a c = false ->
  m (Seq (map LitI (a :: w))) k pre (c :: rest) cs = None.
Proof.
  intros H. unfold Seq. cbn [map fold_right m]. unfold LitI at 1. cbn [m].
  unfold chr_i in H. rewrite H. reflexivity.
Qed.

Lemma lits_fail_nil (a : ascii) w k pre (cs : caps) :
  m (Seq (map LitI (a :: w))) k pre [] cs = None.
Proof. reflexivity. Qed.

(** The end of the extension pattern: a question mark or the end of the
    text; it records no group. *)
Lemma ext_tail_sound pre suf (cs cs' : caps) (en : nat) :
  m (Alt (Lit "?") Eol) (m Eps accept) pre suf cs = Some (en, cs') -> cs' = cs.
Proof.
  intros H. apply alt_sound in H as [H|H]; cbn [m Lit] in H.
  - destruct suf as [|c suf]; [discriminate|].
    destruct (Ascii.eqb "?" c); [|discriminate]. injection H as _ <-. reflexivity.
  - destruct (at_end suf); [|discriminate]. injection H as _ <-. reflexivity.
Qed.

Lemma ext_tail_complete pre q (cs : caps) :
  q = [] \/ (exists q', q = "?"%char :: q') ->
  exists en : nat, m (Alt (Lit "?") Eol) (m Eps accept) pre q cs = Some (en, cs).
Proof.
  intros [->|[q' ->]]; cbn; eexists; reflexivity.
Qed.

Lemma ext_re_unfold pre suf :
  m ext_re accept pre suf []
  = match suf with
    | c :: suf' =>
        if Ascii.eqb "." c then
          m (Alt (LitsI "png") (Alt (LitsI "jpg") (LitsI "jpeg")))
            (fun pre' suf' cs' =>
               m (Alt (Lit "?") Eol) (m Eps accept) pre' suf'
                 ((1%nat, (length (c :: pre), length pre')) :: cs'))
            (c :: pre) suf' []
        else None
    | [] => None
    end.
Proof. destruct suf; reflexivity. Qed.

(** A match of the extension pattern captures one of the three
    extensions. *)
Lemma ext_match_sound ys zs (mo : Match) :
  match_at ext_re (rev ys ++ []) zs = Some mo ->
  is_image_ext (group mo (ys ++ zs) 1).
Proof.
  unfold match_at. rewrite ext_re_unfold.
  destruct zs as [|c0 zs]; [discriminate|].
  destruct (Ascii.eqb_spec "." c0) as [<-|]; [|discriminate].
  destruct (m _ _ _ zs []) as [[e cs]|] eqn:Hm; [|discriminate].
  intros [= <-]. unfold group, is_image_ext. cbn [m_groups].
  assert (H : exists x rest, zs = x ++ rest /\ is_image_ext x
            /\ cs = [(1%nat, (length ("."%char :: rev ys ++ []),
                              length (rev x ++ "."%char :: rev ys ++ [])))]).
  { unfold LitsI in Hm.
    apply alt_sound in Hm as [Hm|Hm]; [|apply alt_sound in Hm as [Hm|Hm]];
      apply lits_sound in Hm as (x & rest & -> & Hx & Hk);
      apply ext_tail_sound in Hk; exists x, rest;
      (split; [reflexivity|]); (split; [|exact Hk]); unfold is_image_ext.
    - left. exact Hx.
    - right. left. exact Hx.
    - right. right. exact Hx. }
  destruct H as (x & rest & -> & Hx & ->). cbn [span_of Nat.eqb].
  replace (ys ++ "."%char :: x ++ rest) with ((ys ++ ["."%char]) ++ x ++ rest) by list_eq.
  rewrite slice_middle by lengths. exact Hx.
Qed.

Lemma ext_not_dot pre c suf : c <> "."%char -> match_at ext_re pre (c :: suf) = None.
Proof.
  intros H. unfold match_at. rewrite ext_re_unfold.
  destruct (Ascii.eqb_spec "." c) as [<-|_]; [contradiction | reflexivity].
Qed.

Lemma ext_dot_end pre : match_at ext_re pre ["."%char] = None.
Proof. reflexivity. Qed.

Lemma ext_dot_inert pre c suf :
  chr_i "p" c = false -> chr_i "j" c = false ->
  match_at ext_re pre ("."%char :: c :: suf) = None.
Proof.
  intros Hp Hj. unfold match_at. rewrite ext_re_unfold. cbn [Ascii.eqb Bool.eqb].
  unfold LitsI, L. cbn [list_ascii_of_string m].
  rewrite !lits_fail by assumption. reflexivity.
Qed.

(** The search passes over text in which no dot starts an extension. *)
Lemma ext_search_inert : forall xs pre suf,
  dots_inert xs = true ->
  match suf with
  | c :: _ => chr_i "p" c = false /\ chr_i "j" c = false
  | [] => True
  end ->
  search_from ext_re pre (xs ++ suf) = search_from ext_re (rev xs ++ pre) suf.
Proof.
  induction xs as [|a xs IH]; intros pre suf Hin Hsuf; [reflexivity|].
  cbn [dots_inert] in Hin. apply andb_true_iff in Hin as [Ha Hin].
  cbn [app search_from rev]. rewrite <- app_assoc. cbn [app].
  rewrite <- (IH (a :: pre) suf Hin Hsuf).
  assert (Hno : match_at ext_re pre (a :: xs ++ suf) = None).
  { destruct (Ascii.eqb_spec a ".") as [->|Hne]; [|apply ext_not_dot, Hne].
    destruct xs as [|c xs]; cbn [app].
    - destruct suf as [|c suf]; [apply ext_dot_end|].
      destruct Hsuf as [Hp Hj]. apply ext_dot_inert; assumption.
    - apply negb_true_iff, orb_false_iff in Ha as [Hp Hj].
      apply ext_dot_inert; assumption. }
  rewrite Hno. reflexivity.
Qed.

(** At the dot of an extension that ends the text or is followed by a
    question mark, the pattern matches and captures the extension. *)
Lemma ext_match_here pre e q :
  is_image_ext e ->
  q = [] \/ (exists q', q = "?"%char :: q') ->
  exists mo,
    match_at ext_re pre ("."%char :: e ++ q) = Some mo
    /\ m_groups mo = [(1%nat, (S (length pre), length (rev e ++ "."%char :: pre)))].
Proof.
  intros He Hq. unfold match_at. rewrite ext_re_unfold. cbn [Ascii.eqb Bool.eqb].
  unfold LitsI.
  assert (Hgo : forall t : string, lower e = lower (L t) ->
            exists en,
              m (Seq (map LitI (L t)))
                (fun pre' suf' cs' =>
                   m (Alt (Lit "?") Eol) (m Eps accept) pre' suf'
                     ((1%nat, (length ("."%char :: pre), length pre')) :: cs'))
                ("."%char :: pre) (e ++ q) []
              = Some (en, [(1%nat, (S (length pre), length (rev e ++ "."%char :: pre)))])).
  { intros t Ht. rewrite (lits_complete _ _ _ _ _ _ Ht).
    apply ext_tail_complete, Hq. }
  rewrite !m_alt. destruct He as [He|[He|He]].
  - destruct (Hgo "png"%string He) as [en Hen]. rewrite Hen.
    eexists. split; reflexivity.
  - destruct (Hgo "jpg"%string He) as [en Hen].
    destruct e as [|c e]; [discriminate|]. injection He as Hc He.
    cbn [app] in Hen |- *. change (L "png") with ("p"%char :: L "ng").
    rewrite (lits_fail "p" _ _ _ c) by (unfold chr_i; rewrite Hc; reflexivity).
    rewrite Hen. eexists. split; reflexivity.
  - destruct (Hgo "jpeg"%string He) as [en Hen].
    destruct e as [|c1 [|c2 [|c3 e]]]; try discriminate.
    injection He as H1 H2 H3 He.
    cbn [app] in Hen |- *. change (L "png") with ("p"%char :: L "ng").
    rewrite (lits_fail "p" _ _ _ c1) by (unfold chr_i; rewrite H1; reflexivity).
    match goal with
    | |- context [m (Seq (map LitI (L "jpg"))) ?k ?p ?t ?cs] =>
        assert (Hjpg : m (Seq (map LitI (L "jpg"))) k p t cs = None)
    end.
    { unfold Seq, L. cbn [list_ascii_of_string map fold_right m]. unfold LitI.
      cbn [m]. rewrite H1, H2, H3. reflexivity. }
    rewrite Hjpg, Hen. eexists. split; reflexivity.
Qed.

End Extensions.

(** X25. [infer_extension_from_url] returns one of four extensions,
    always in lower case: .png, .jpg, .jpeg, or .img when it recognizes
    none. *)
Theorem infer_extension_closed (url : str) :
  In (infer_extension_from_url url) [L ".png"; L ".jpg"; L ".jpeg"; L ".img"].
Proof.
  unfold infer_extension_from_url, re_search.
  destruct (search_from ext_re [] url) as [mo|] eqn:Hs.
  - apply search_from_sound in Hs as (ys & zs & -> & Hm).
    apply ext_match_sound in Hm as [H|[H|H]]; rewrite H; cbn; tauto.
  - cbn. tauto.
Qed.

(** X26. A URL that ends in a dot and png, jpg or jpeg in any case,
    alone or followed by a query string, gets that extension in lower
    case, provided no earlier dot of the URL starts such an
    extension. *)
Theorem infer_extension_of_suffix (base e q : str) :
  dots_inert base = true ->
  is_image_ext e ->
  q = [] \/ (exists q', q = "?"%char :: q') ->
  infer_extension_from_url (base ++ L "." ++ e ++ q) = L "." ++ lower e.
Proof.
  intros Hbase He Hq. unfold infer_extension_from_url, re_search.
  change (L "." ++ e ++ q) with ("."%char :: e ++ q).
  rewrite ext_search_inert by (try exact Hbase; split; reflexivity).
  destruct (ext_match_here (rev base ++ []) e q He Hq) as (mo & Hm & Hg).
  rewrite (search_from_here _ _ _ _ Hm). unfold group. rewrite Hg.
  cbn [span_of Nat.eqb].
  replace (base ++ "."%char :: e ++ q) with ((base ++ ["."%char]) ++ e ++ q) by list_eq.
  rewrite slice_middle by lengths. reflexivity.
Qed.

Lemma infer_extension_of_suffix_witness :
  infer_extension_from_url
    (L "https://cards.scryfall.io/png/front/6/d/6da045f8.PNG?1562404626")
  = L ".png".
Proof.
  apply (infer_extension_of_suffix (L "https://cards.scryfall.io/png/front/6/d/6da045f8")
           (L "PNG") (L "?1562404626")).
  - vm_compute. reflexivity.
  - left. vm_compute. reflexivity.
  - right. eexists. reflexivity.
Defined.

(** X27. A URL in which no dot starts an image extension gets the
    fallback extension .img. *)
Theorem infer_extension_default (url : str) :
  dots_inert url = true -> infer_extension_from_url url = L ".img".
Proof.
  intros H. unfold infer_extension_from_url, re_search.
  rewrite <- (app_nil_r url). rewrite (ext_search_inert url [] [] H I).
  reflexivity.
Qed.

Lemma infer_extension_default_witness :
  infer_extension_from_url (L "https://cards.scryfall.io/large/front/6/d/6da045f8.webp")
  = L ".img".
Proof.
  apply (infer_extension_default
           (L "https://cards.scryfall.io/large/front/6/d/6da045f8.webp")).
  vm_compute. reflexivity.
Defined.

(** ** Reading the decklist *)

Section Reading.

Implicit Types (s cur t : str) (p : ascii -> bool).

Lemma dropwhile_nil p s : dropwhile p s = [] -> Forall (fun c => p c = true) s.
Proof.
  induction s as [|c s IH]; cbn [dropwhile]; [constructor|].
  destruct (p c) eqn:E; [|discriminate]. intros H. constructor; [exact E | apply IH, H].
Qed.

Lemma dropwhile_split p s :
  exists ws, s = ws ++ dropwhile p s /\ Forall (fun c => p c = true) ws.
Proof.
  induction s as [|c s (ws & Hs & Hws)]; cbn [dropwhile].
  - exists []. split; [reflexivity | constructor].
  - destruct (p c) eqn:E.
    + exists (c :: ws). split; [cbn [app]; f_equal; exact Hs | constructor; assumption].
    + exists []. split; [reflexivity | constructor].
Qed.

Lemma strip_nil_blank s : strip s = [] -> Forall (fun c => isspace c = true) s.
Proof.
  unfold strip, rstrip, lstrip. intros H.
  destruct (dropwhile_split isspace s) as (ws & Hs & Hws).
  rewrite Hs. apply Forall_app_2; [exact Hws|].
  apply (f_equal (@rev ascii)) in H. rewrite rev_involutive in H. cbn [rev] in H.
  apply dropwhile_nil, Forall_rev in H. rewrite rev_involutive in H. exact H.
Qed.

Lemma splitlines_from_blank : forall (n : nat) s cur,
  (length s <= n)%nat ->
  Forall (fun c => isspace c = true) cur -> Forall (fun c => isspace c = true) s ->
  Forall (Forall (fun c => isspace c = true)) (splitlines_from cur s).
Proof.
  induction n as [|n IH]; intros [|c s] cur Hn Hcur Hs; cbn [length] in Hn; try lia;
    cbn [splitlines_from].
  - destruct cur; repeat constructor. apply Forall_rev, Hcur.
  - destruct cur; repeat constructor. apply Forall_rev, Hcur.
  - apply Forall_cons in Hs as [Hc Hs]. destruct (is_linebreak c).
    + constructor; [apply Forall_rev, Hcur|].
      destruct s as [|c' s'']; [constructor|].
      destruct (Ascii.eqb c "013" && Ascii.eqb c' "010").
      * apply Forall_cons in Hs as [_ Hs]. apply IH; [cbn [length] in Hn; lia | constructor | exact Hs].
      * apply IH; [lia | constructor | exact Hs].
    + apply IH; [lia | constructor; assumption | exact Hs].
Qed.

Lemma splitlines_blank s :
  Forall (fun c => isspace c = true) s ->
  Forall (fun line => parse_deck_line line = None) (splitlines s).
Proof.
  intros Hs. eapply Forall_impl.
  - apply (splitlines_from_blank (length s) s []); [lia | constructor | exact Hs].
  - intros line. apply parse_blank.
Qed.

End Reading.

(** X28. Whenever a reader prints its empty-input warning, [main] exits
    with status 1: a text that is empty after stripping has only blank
    lines, none of which parses, so no request is made and nothing is
    downloaded. *)
Theorem empty_input_exits {World : Type}
    (post : list Identifier -> World -> World * (Exception + Response))
    (path_exists : str -> World -> bool)
    (fetch : str -> str -> World -> World * option Exception)
    (ensure_dir : str -> World -> World * option Exception)
    (path_join : str -> str -> str) (str_of_exception : Exception -> str)
    (unique overwrite : bool) (size out_dir : str) (w : World) (txt : str) :
  fst (read_decklist_from_file txt) = true ->
  fst (read_decklist_from_stdin txt) = true
  /\ main post path_exists fetch ensure_dir path_join str_of_exception
       (snd (read_decklist_from_file txt)) unique overwrite size out_dir w = Exited 1
  /\ main post path_exists fetch ensure_dir path_join str_of_exception
       (snd (read_decklist_from_stdin txt)) unique overwrite size out_dir w = Exited 1.
Proof.
  unfold read_decklist_from_file, read_decklist_from_stdin. cbn [fst snd].
  intros H. split; [exact H|].
  assert (Hs : strip txt = []) by (destruct (strip txt); [reflexivity | discriminate]).
  apply strip_nil_blank, splitlines_blank, parse_lines_nil in Hs.
  unfold main. rewrite Hs. split; reflexivity.
Qed.

Lemma empty_input_exits_witness :
  fst (read_decklist_from_stdin [" "%char; "010"%char; "009"%char; "013"%char; "010"%char])
  = true
  /\ main one_card_post no_file (fun _ _ => always_ok) (fun _ => always_ok)
       posix_join exception_text
       (snd (read_decklist_from_file
               [" "%char; "010"%char; "009"%char; "013"%char; "010"%char]))
       false false (L "png") (L "cards") tt = Exited 1
  /\ main one_card_post no_file (fun _ _ => always_ok) (fun _ => always_ok)
       posix_join exception_text
       (snd (read_decklist_from_stdin
               [" "%char; "010"%char; "009"%char; "013"%char; "010"%char]))
       false false (L "png") (L "cards") tt = Exited 1.
Proof.
  apply (empty_input_exits one_card_post no_file (fun _ _ => always_ok)
           (fun _ => always_ok) posix_join exception_text false false
           (L "png") (L "cards") tt
           [" "%char; "010"%char; "009"%char; "013"%char; "010"%char]).
  vm_compute. reflexivity.
Defined.
